(** * pg-differ: the value codec, the sequence differ, the operation orderer
    and the transactional executor, embedded from the JavaScript sources.

    Sources embedded here:
    - [src/parser.js]          (value codec, schema normaliser)
    - the sequence object      (second half of the same file)
    - the closure-based Differ (the factory with [_define], [_entitySync], [sync],
                                [_read])
    - [lib/index.js]           (the class-based Differ)
    - the utilities module     ([isExist], [findByName])
    - the table-information object ([getChecks])
    - [src/logger.js]          (the logger)

    JavaScript strings are sequences of UTF-16 code units; they are modelled as
    lists of code units so that indexing, [length] and the character tests of
    the regular expressions mean what they mean in the source. *)

From Stdlib Require Import ZArith NArith QArith Lia Ascii String.
From stdpp Require Import base list gmap strings pretty sorting.

Set Default Proof Using "Type".
Local Open Scope N_scope.

(** ** JavaScript strings and values *)

Module Js.

(** A string value: the list of its UTF-16 code units. *)
Definition jsstring : Type := list N.

(** String literals of the sources, written as Rocq literals. *)
Definition str (s : string) : jsstring :=
  (λ a, N_of_ascii a) <$> list_ascii_of_string s.

Definition apostrophe : N := 39.
Definition backslash : N := 92.
Definition dquote : N := 34.
Definition dot : N := 46.
Definition colon : N := 58.
Definition letter_E : N := 69.

(** [LineTerminator] of ECMAScript: LF, CR, LS, PS.  The regular-expression
    atom [.] (without the [s] flag) matches every code unit but these. *)
Definition is_line_terminator (c : N) : bool :=
  (c =? 10) || (c =? 13) || (c =? 8232) || (c =? 8233).

(** [WhiteSpace] and [LineTerminator], the code units [String.prototype.trim]
    removes. *)
Definition is_space (c : N) : bool :=
  (c =? 9) || (c =? 11) || (c =? 12) || (c =? 32) || (c =? 160)
  || (c =? 5760) || ((8192 <=? c) && (c <=? 8202)) || (c =? 8239)
  || (c =? 8287) || (c =? 12288) || (c =? 65279) || is_line_terminator c.

Definition is_digit (c : N) : bool := (48 <=? c) && (c <=? 57).
Definition is_upper (c : N) : bool := (65 <=? c) && (c <=? 90).
Definition is_lower (c : N) : bool := (97 <=? c) && (c <=? 122).
(** [\w] *)
Definition is_word (c : N) : bool :=
  is_digit c || is_upper c || is_lower c || (c =? 95).

Fixpoint trim_start (s : jsstring) : jsstring :=
  match s with
  | c :: s' => if is_space c then trim_start s' else s
  | [] => []
  end.

(** [s.trim()] *)
Definition trim (s : jsstring) : jsstring :=
  reverse (trim_start (reverse (trim_start s))).

(** [s.endsWith(suffix)] *)
Definition ends_with (suffix s : jsstring) : bool :=
  bool_decide (drop (length s - length suffix)%nat s = suffix).

(** Primitive values.  [Num z] is the Number that the integer literal [z]
    evaluates to (sequence attributes and the representative values of the
    codec are integers).  Numbers are IEEE doubles: up to 53 significant bits
    the literal is the Number, beyond that it is rounded ([to_Number]). *)
Inductive prim : Type :=
| Undefined
| Null
| Bool (b : bool)
| Num (z : Z)
| Str (s : jsstring).

#[global] Instance prim_eq_dec : EqDecision prim.
Proof. solve_decision. Defined.

(** A value is a primitive or an object; what objects are is left to the
    user of the codec (it only hands them to [JSON.stringify]). *)
Inductive jsvalue (object : Type) : Type :=
| Prim (p : prim)
| Obj (o : object).
Arguments Prim {object} p.
Arguments Obj {object} o.

#[global] Instance jsvalue_eq_dec {object : Type} `{EqDecision object} :
  EqDecision (jsvalue object).
Proof. solve_decision. Defined.

(** [Boolean(v)] on primitives. *)
Definition truthy (v : prim) : bool :=
  match v with
  | Undefined | Null => false
  | Bool b => b
  | Num z => negb (z =? 0)%Z
  | Str s => negb (bool_decide (s = []))
  end.

(** The decimal digits of an integer, with a leading [-] when negative. *)
Definition Z_to_jsstring (z : Z) : jsstring :=
  str (pretty z).

(** The Number value of the integer [z]: [z] itself when it has at most 53
    significant bits, else the nearest double, a tie going to the even
    significand.  The result is the value of that double, an integer again;
    a result of [2^1024] or more stands for [Infinity]. *)
Definition to_Number (z : Z) : Z :=
  let magnitude := Z.abs z in
  let shift := (Z.log2 magnitude - 52)%Z in
  if (shift <=? 0)%Z then z
  else
    let significand := Z.shiftr magnitude shift in
    let rest := (magnitude - Z.shiftl significand shift)%Z in
    let half := Z.shiftl 1 (shift - 1) in
    let up := (half <? rest)%Z || ((rest =? half)%Z && Z.odd significand) in
    (Z.sgn z * Z.shiftl (if up then significand + 1 else significand) shift)%Z.

(** The multiple of [scale] that reads back as the Number [v], if there is
    one: of the two multiples around [v] the closer, and of two equally
    close ones the one with the even digit string. *)
Definition digits_at (v scale : Z) : option Z :=
  let low := (v / scale * scale)%Z in
  let high := (low + scale)%Z in
  match bool_decide (to_Number low = v), bool_decide (to_Number high = v) with
  | true, true =>
      Some (if (v - low <? high - v)%Z || ((v - low =? high - v)%Z && Z.even (v / scale))
            then low else high)
  | true, false => Some low
  | false, true => Some high
  | false, false => None
  end.

(** The digits [Number::toString] prints for [v]: the fewest significant
    digits that read back as [v], tried from one digit on. *)
Fixpoint shortest_digits (v scale : Z) (fuel : nat) : Z :=
  match fuel with
  | O => v
  | S fuel' =>
      match digits_at v scale with
      | Some digits => digits
      | None => shortest_digits v (scale / 10) fuel'
      end
  end.

Fixpoint drop_zeros (s : jsstring) : jsstring :=
  match s with
  | c :: s' => if c =? 48 then drop_zeros s' else s
  | [] => []
  end.

(** [Number::toString] for a Number [v >= 0] with an integer value: plain
    digits up to 21 of them, the exponent form beyond. *)
Definition Number_toString (v : Z) : jsstring :=
  if (2 ^ 1024 <=? v)%Z then str "Infinity"
  else if (v <? 2 ^ 53)%Z then Z_to_jsstring v
  else
    let n := length (Z_to_jsstring v) in
    let digits := Z_to_jsstring (shortest_digits v (10 ^ (Z.of_nat n - 1)) n) in
    let n := length digits in
    if (n <=? 21)%nat then digits
    else
      match reverse (drop_zeros (reverse digits)) with
      | first :: [] => first :: str "e+" ++ Z_to_jsstring (Z.of_nat n - 1)
      | first :: more => first :: dot :: more ++ str "e+" ++ Z_to_jsstring (Z.of_nat n - 1)
      | [] => digits
      end.

(** [String(v)] on primitives. *)
Definition to_String (v : prim) : jsstring :=
  match v with
  | Undefined => str "undefined"
  | Null => str "null"
  | Bool true => str "true"
  | Bool false => str "false"
  | Num z =>
      let v := to_Number z in
      if (v <? 0)%Z then str "-" ++ Number_toString (- v) else Number_toString v
  | Str s => s
  end.

(** [R.isNil] / [utils.isExist = R.compose(R.not, R.isNil)]. *)
Definition isExist (v : prim) : bool :=
  match v with
  | Undefined | Null => false
  | _ => true
  end.

(** Exceptions a call can throw. *)
Inductive exn : Type :=
| SyntaxError
| TypeError
| ValidationError (path message : jsstring)
| DatabaseError (code : N).

#[global] Instance exn_eq_dec : EqDecision exn.
Proof. solve_decision. Defined.

(** The outcome of a call that may throw. *)
Definition outcome (A : Type) : Type := exn + A.

End Js.

Import Js.

(** ** Regular expressions, as far as parser.js uses them *)

Module Regex.

Inductive re : Type :=
| Void
| Eps
| Cls (p : N → bool)
| Cat (r1 r2 : re)
| Alt (r1 r2 : re)
| Star (r : re).

Definition Chr (c : N) : re := Cls (N.eqb c).
Definition Plus (r : re) : re := Cat r (Star r).
Definition Opt (r : re) : re := Alt Eps r.

Fixpoint Lit (s : jsstring) : re :=
  match s with
  | [] => Eps
  | c :: s' => Cat (Chr c) (Lit s')
  end.

(** The words of a regular expression. *)
Inductive lang : re → jsstring → Prop :=
| lang_eps : lang Eps []
| lang_cls p c : p c = true → lang (Cls p) [c]
| lang_cat r1 r2 s1 s2 : lang r1 s1 → lang r2 s2 → lang (Cat r1 r2) (s1 ++ s2)
| lang_alt_l r1 r2 s : lang r1 s → lang (Alt r1 r2) s
| lang_alt_r r1 r2 s : lang r2 s → lang (Alt r1 r2) s
| lang_star_nil r : lang (Star r) []
| lang_star_cons r s1 s2 : lang r s1 → lang (Star r) s2 → lang (Star r) (s1 ++ s2).

Fixpoint nullable (r : re) : bool :=
  match r with
  | Void => false
  | Eps => true
  | Cls _ => false
  | Cat r1 r2 => nullable r1 && nullable r2
  | Alt r1 r2 => nullable r1 || nullable r2
  | Star _ => true
  end.

Fixpoint deriv (c : N) (r : re) : re :=
  match r with
  | Void => Void
  | Eps => Void
  | Cls p => if p c then Eps else Void
  | Cat r1 r2 =>
      if nullable r1 then Alt (Cat (deriv c r1) r2) (deriv c r2)
      else Cat (deriv c r1) r2
  | Alt r1 r2 => Alt (deriv c r1) (deriv c r2)
  | Star r1 => Cat (deriv c r1) (Star r1)
  end.

(** Does [r] match the whole of [s]? *)
Fixpoint matches (r : re) (s : jsstring) : bool :=
  match s with
  | [] => nullable r
  | c :: s' => matches (deriv c r) s'
  end.

(** A pattern as the sources write them: a test of the text before the
    match (look-behind, [^]), a body, and a test of the text after the match
    (look-ahead, [$]). *)
Record pattern : Type := {
  behind : jsstring → bool;
  body : re;
  ahead : jsstring → bool;
}.

(** The match that starts where [m] ends: [m] grows over [rest], and the
    longest admissible end is taken.  Every pattern of parser.js admits at
    most one end per start (it is anchored by [$] or closed by a delimiter),
    so no choice among ends arises. *)
Fixpoint match_end (p : pattern) (m rest : jsstring) : option (jsstring * jsstring) :=
  let here := if matches (body p) m && ahead p rest then Some (m, rest) else None in
  match rest with
  | [] => here
  | c :: rest' =>
      match match_end p (m ++ [c]) rest' with
      | Some r => Some r
      | None => here
      end
  end.

(** [RegExp.prototype.exec]: the leftmost start with a match; the result is
    (text before, matched text, text after). *)
Fixpoint exec_from (p : pattern) (pre suf : jsstring)
  : option (jsstring * jsstring * jsstring) :=
  let here := if behind p pre then match_end p [] suf else None in
  match here with
  | Some (m, rest) => Some (pre, m, rest)
  | None =>
      match suf with
      | [] => None
      | c :: suf' => exec_from p (pre ++ [c]) suf'
      end
  end.

Definition exec (p : pattern) (s : jsstring) := exec_from p [] s.

(** [s.replace(p, by)] for a pattern without the [g] flag and a replacement
    text without [$] references. *)
Definition replace (p : pattern) (by_ : jsstring) (s : jsstring) : jsstring :=
  match exec p s with
  | Some (pre, _, rest) => pre ++ by_ ++ rest
  | None => s
  end.

(** [s.replace(p, by)] for a pattern with the [g] flag, no look-behind and a
    body that does not match the empty word: after a match the search
    resumes where the match ended. *)
Fixpoint replace_all_fuel (fuel : nat) (p : pattern) (by_ s : jsstring) : jsstring :=
  match fuel with
  | O => s
  | S fuel' =>
      match exec p s with
      | Some (pre, _, rest) => pre ++ by_ ++ replace_all_fuel fuel' p by_ rest
      | None => s
      end
  end.

Definition replace_all (p : pattern) (by_ s : jsstring) : jsstring :=
  replace_all_fuel (S (length s)) p by_ s.

(** An upper bound on the last characters of the non-empty words of [r]. *)
Fixpoint can_end (r : re) (c : N) : bool :=
  match r with
  | Void => false
  | Eps => false
  | Cls p => p c
  | Cat r1 r2 => can_end r2 c || (nullable r2 && can_end r1 c)
  | Alt r1 r2 => can_end r1 c || can_end r2 c
  | Star r1 => can_end r1 c
  end.

Definition anywhere : jsstring → bool := λ _, true.
Definition at_end (rest : jsstring) : bool := bool_decide (rest = []).
Definition at_start (pre : jsstring) : bool := bool_decide (pre = []).

End Regex.

Import Regex.

(** ** [quoteLiteral] (parser.js) *)

Module Quote.

(** One iteration of the [for] loop: the state is [(quoted, hasBackslash)]. *)
Definition quoteLiteral_step (st : jsstring * bool) (c : N) : jsstring * bool :=
  let '(quoted, hasBackslash) := st in
  if c =? apostrophe then (quoted ++ [c; c], hasBackslash)
  else if c =? backslash then (quoted ++ [c; c], true)
  else (quoted ++ [c], hasBackslash).

Definition quoteLiteral (value : jsstring) : jsstring :=
  let literal := value in
  let '(quoted, hasBackslash) :=
    foldl quoteLiteral_step ([apostrophe], false) literal in
  let quoted := quoted ++ [apostrophe] in
  if hasBackslash then letter_E :: quoted else quoted.

(** The spec's wording: what one character becomes inside the quotes. *)
Definition doubled (c : N) : jsstring :=
  if bool_decide (c = apostrophe ∨ c = backslash) then [c; c] else [c].

Definition has_backslash (s : jsstring) : bool :=
  bool_decide (backslash ∈ s).

End Quote.

Import Quote.

(** ** The value codec (parser.js) *)

Module Parser.

(** The arrays of [TYPES.GROUPS] are told apart by identity ([===] in the
    [switch] of [decodeValue]); each array carries its tag here. *)
Inductive group : Type :=
| JSON
| INTEGER
| BOOLEAN
| OtherGroup (n : nat).

#[global] Instance group_eq_dec : EqDecision group.
Proof. solve_decision. Defined.

(** [/\[]|\[\w+]|\(\w+\)|'(\w+|\d+)'/g] *)
Definition regExpTypeOptions : pattern :=
  {| behind := anywhere;
     body :=
       Alt (Lit (str "[]"))
         (Alt (Cat (Chr 91) (Cat (Plus (Cls is_word)) (Chr 93)))
            (Alt (Cat (Chr 40) (Cat (Plus (Cls is_word)) (Chr 41)))
               (Cat (Chr apostrophe)
                  (Cat (Alt (Plus (Cls is_word)) (Plus (Cls is_digit)))
                     (Chr apostrophe)))));
     ahead := anywhere |}.

Definition trimType (type : jsstring) : jsstring :=
  trim (replace_all regExpTypeOptions [] type).

(** [/(?<=nextval\(')(?=[^.]*$)/]: an empty match right after [nextval('],
    provided no dot follows up to the end of the text. *)
Definition nextvalWithoutSchema : pattern :=
  {| behind := ends_with (str "nextval('");
     body := Eps;
     ahead := matches (Star (Cls (λ c, negb (c =? dot)))) |}.

Definition is_cast_letter (c : N) : bool :=
  is_lower c || is_upper c || (c =? 32).

(** [(?:\[\d+]|\[])] *)
Definition array_suffix : re :=
  Alt (Cat (Chr 91) (Cat (Plus (Cls is_digit)) (Chr 93))) (Lit (str "[]")).

(** [::[a-zA-Z ]+(?:\[\d+]|\[]){0,2}] *)
Definition cast_re : re :=
  Cat (Lit (str "::"))
    (Cat (Plus (Cls is_cast_letter))
       (Opt (Cat array_suffix (Opt array_suffix)))).

(** [/::[a-zA-Z ]+(?:\[\d+]|\[]){0,2}$/] *)
Definition trailingCast : pattern :=
  {| behind := anywhere; body := cast_re; ahead := at_end |}.

(** [/::sql$/] *)
Definition rawSuffix : pattern :=
  {| behind := anywhere; body := Lit (str "::sql"); ahead := at_end |}.

(** [/(?<=^').*(?='$)/] *)
Definition bracketsContent : pattern :=
  {| behind := λ pre, bool_decide (pre = [apostrophe]);
     body := Star (Cls (λ c, negb (is_line_terminator c)));
     ahead := λ rest, bool_decide (rest = [apostrophe]) |}.

(** [/^[0-9]*$/] *)
Definition allDigits : pattern :=
  {| behind := at_start; body := Star (Cls is_digit); ahead := at_end |}.

(** [s.match(p)] for a pattern without [g]: [match[0]] or [null]. *)
Definition match0 (p : pattern) (s : jsstring) : option jsstring :=
  match exec p s with
  | Some (_, m, _) => Some m
  | None => None
  end.

Section codec.

(** Objects and the two built-ins that handle them. *)
Context {object : Type}.
Variable JSON_stringify : object → jsstring.
Variable JSON_parse : jsstring → outcome (jsvalue object).

(** [Object.values(TYPES.GROUPS)]; the table lives in the constants
    module, which the codec only reads. *)
Variable GROUPS : list (group * list jsstring).

Definition getTypeGroup (type : option jsstring) : option group :=
  match type with
  | Some type =>
      if truthy (Str type) then
        let type := trimType type in
        fst <$> List.find (λ g, bool_decide (type ∈ g.2)) GROUPS
      else None
  | None => None
  end.

Definition defaultValueInformationSchema (value : jsvalue object) : jsvalue object :=
  match value with
  | Prim (Str value) =>
      (* adding the public scheme in case of its absence *)
      let value := replace nextvalWithoutSchema (str "public.") value in
      let regExp := trailingCast in
      match match0 regExp value with
      | Some _ => Prim (Str (replace regExp [] value))
      | None => Prim (Str value)
      end
  | _ => value
  end.

Definition encodeValue (value : jsvalue object) : jsvalue object :=
  match value with
  | Prim (Num _) => value
  | Prim (Str s) =>
      let regExp := rawSuffix in
      match match0 regExp s with
      | Some _ => Prim (Str (replace regExp [] s))
      | None => Prim (Str (quoteLiteral s))
      end
  | Obj o => Prim (Str (quoteLiteral (JSON_stringify o)))
  | Prim _ => value
  end.

Definition decodeValue (value : jsvalue object) (type : option jsstring)
  : outcome (jsvalue object) :=
  match value with
  | Prim (Str value) =>
      let typeGroup := getTypeGroup type in
      let defaultValue := Prim (Str (value ++ str "::sql")) in
      match typeGroup with
      | Some JSON =>
          match match0 bracketsContent value with
          | Some m => JSON_parse m
          | None => inr defaultValue
          end
      | Some INTEGER =>
          match match0 allDigits value with
          | Some m => inr (Prim (Str m))
          | None => inr defaultValue
          end
      | Some BOOLEAN =>
          if bool_decide (value = str "true") then inr (Prim (Bool true))
          else if bool_decide (value = str "false") then inr (Prim (Bool false))
          else inr defaultValue
      | _ =>
          match match0 bracketsContent value with
          | Some m => inr (Prim (Str m))
          | None => inr defaultValue
          end
      end
  | _ => inr value
  end.

End codec.

(** The spec's wording: a plain text, free of the characters the codec
    cannot carry through a quoted default: single quote, backslash and line
    terminators. *)
Definition plain (s : jsstring) : Prop :=
  (apostrophe ∉ s) ∧ (backslash ∉ s) ∧ Forall (λ c, is_line_terminator c = false) s.

(** The spec's wording: [value] splits into [pre ++ post] where [pre] ends
    with [nextval('] and the name that follows carries no schema qualifier,
    which the code reads as: no dot up to the end of the expression. *)
Definition unqualified_at (value pre post : jsstring) : Prop :=
  value = pre ++ post ∧ ends_with (str "nextval('") pre = true ∧ dot ∉ post.

(** The spec's wording: [value] ends with the cast [cast], a word of
    [::typename] with up to two array-bracket suffixes. *)
Definition cast_at (value keep cast : jsstring) : Prop :=
  value = keep ++ cast ∧ lang cast_re cast.

(** *** The cleanable policy *)

Definition _cleanableDefaults : gmap jsstring prim :=
  list_to_map [
    (str "primaryKey", Bool true);
    (str "foreignKey", Bool false);
    (str "unique", Bool false);
    (str "check", Bool false) ].

Definition _encryptedNamesListExtensions : gmap jsstring jsstring :=
  list_to_map [
    (str "primaryKeys", str "primaryKey");
    (str "indexes", str "index");
    (str "foreignKeys", str "foreignKey");
    (str "checks", str "check");
    (str "unique", str "unique") ].

(** [acc[k] = value] with [k] the result of a lookup: a missing entry is
    [undefined], and the property written is then named ["undefined"].
    (Members inherited from [Object.prototype] are not modelled.) *)
Definition property_key (k : option jsstring) : jsstring :=
  default (str "undefined") k.

(** The object the [reduce] builds from [Object.entries(object)]. *)
Definition encrypted (entries : list (jsstring * prim)) : gmap jsstring prim :=
  foldl (λ acc '(listName, value),
           <[ property_key (_encryptedNamesListExtensions !! listName) := value ]> acc)
        ∅ entries.

(** The argument is [schema.cleanable]: absent, or the entries of the
    caller's object in [Object.entries] order. *)
Definition _normalizeCleanableObject (object : option (list (jsstring * prim)))
  : gmap jsstring prim :=
  match object with
  | Some entries =>
      (* { ..._cleanableDefaults, ...encrypted } *)
      encrypted entries ∪ _cleanableDefaults
  | None => _cleanableDefaults
  end.

(** The five extension variants ([_encodeExtensionTypes]). *)
Definition extensionVariants : list jsstring :=
  [ str "primaryKey"; str "unique"; str "foreignKey"; str "index"; str "check" ].

End Parser.

Import Parser.

(** ** Insertion-ordered tables: object literals and [Map] *)

Module Entries.

(** Keys with their values, in insertion order, each key once. Both an
    object literal (read through [Object.entries]) and a [Map] (read through
    [values()]) enumerate in this order. *)
Definition entries (V : Type) : Type := list (jsstring * V).

Definition lookup {V : Type} (key : jsstring) (m : entries V) : option V :=
  snd <$> List.find (λ e, bool_decide (e.1 = key)) m.

(** [o[key] = v], [map.set(key, v)]: an existing key keeps its place. *)
Fixpoint set {V : Type} (key : jsstring) (v : V) (m : entries V) : entries V :=
  match m with
  | [] => [(key, v)]
  | (k, w) :: m' =>
      if bool_decide (k = key) then (k, v) :: m' else (k, w) :: set key v m'
  end.

Definition keys {V : Type} (m : entries V) : list jsstring := fst <$> m.

(** [[...map.values()]] *)
Definition values {V : Type} (m : entries V) : list V := snd <$> m.

End Entries.

Import Entries.

(** ** Object literals *)

Module Object.

(** An object with primitive properties (no property of the objects below
    has an integer-like name, so [Object.entries] is insertion order). *)
Definition object : Type := entries prim.

(** [o[key]] *)
Definition get (o : object) (key : jsstring) : prim :=
  default Undefined (lookup key o).

(** [{ ...base, ...over }] *)
Definition spread (base over : object) : object :=
  foldl (λ acc e, set e.1 e.2 acc) base over.

(** The rest of a destructuring [{ key, ...rest }]. *)
Definition without (key : jsstring) (o : object) : object :=
  List.filter (λ e, negb (bool_decide (e.1 = key))) o.

End Object.

Import Object.

(** ** [separateSchema] (parser.js) *)

Module Names.

(** [s.split(sep)] for a one-character separator. *)
Fixpoint split_on (sep : N) (cur : jsstring) (s : jsstring) : list jsstring :=
  match s with
  | [] => [cur]
  | c :: s' => if c =? sep then cur :: split_on sep [] s' else split_on sep (cur ++ [c]) s'
  end.

Definition nonempty (s : option jsstring) : bool :=
  match s with
  | Some (_ :: _) => true
  | _ => false
  end.

(** Returns [[chunks[1] ? chunks[0] : undefined, chunks[1] || chunks[0]]]. *)
Definition separateSchema (name : jsstring) : option jsstring * jsstring :=
  let chunks := split_on dot [] name in
  ((if nonempty (chunks !! 1%nat) then chunks !! 0%nat else None),
   (if nonempty (chunks !! 1%nat) then default [] (chunks !! 1%nat)
    else default [] (chunks !! 0%nat))).

End Names.

Import Names.

(** ** Statements *)

Module Sql.

(** [Sql.create(operation, value)] *)
Record op : Type := create { operation : jsstring; value : jsstring }.

#[global] Instance op_eq_dec : EqDecision op.
Proof. solve_decision. Defined.

(** [new Sql(...)]: the store of an [Sql] object, read by [getStore()]. *)
Definition Sql : Type := list op.

(** [chunks.join(sep)] *)
Fixpoint join (sep : jsstring) (chunks : list jsstring) : jsstring :=
  match chunks with
  | [] => []
  | [c] => c
  | c :: rest => c ++ sep ++ join sep rest
  end.

End Sql.

Import Sql.

(** ** The sequence object *)

Module Sequence.

(** Modelled from the spec: the constant [ATTRIBUTES] of the sequence
    constants module, "an attribute-level diff over start, min, max,
    increment, cycle". *)
Definition ATTRIBUTES : list jsstring :=
  [ str "start"; str "min"; str "max"; str "increment"; str "cycle" ].

(** Modelled from the spec: [DEFAULTS.increment] of the sequence constants
    module, "the system default increment of 1". *)
Definition DEFAULTS_increment : prim := Num 1.

Section sequence.

(** [properties] after validation, and the outer [force] option. *)
Variable properties : object.
Variable force : prim.

Definition _forceCreate : prim :=
  if isExist (get properties (str "force")) then get properties (str "force")
  else force.

Definition _fullName : jsstring :=
  let '(schema, name) := separateSchema (to_String (get properties (str "name"))) in
  default (str "public") schema ++ str "." ++ name.

(** The body of the [switch]: what one entry pushes onto [chunks]. *)
Definition _buildSql_chunk (key : jsstring) (value : prim) : list jsstring :=
  if bool_decide (key = str "start") then
    [ if truthy value then str "start " ++ to_String value else str "no start" ]
  else if bool_decide (key = str "increment") then
    [ if truthy value then str "increment " ++ to_String value
      else str "increment " ++ to_String DEFAULTS_increment ]
  else if bool_decide (key = str "min") then
    [ if truthy value then str "minvalue " ++ to_String value else str "no minvalue" ]
  else if bool_decide (key = str "max") then
    [ if truthy value then str "maxvalue " ++ to_String value else str "no maxvalue" ]
  else if bool_decide (key = str "cycle") then
    [ if truthy value then str "cycle" else str "no cycle" ]
  else if bool_decide (key = str "current") then
    if isExist value then [ str "restart with " ++ to_String value ] else []
  else [].

(** The argument is the whole object [{ action, ...rest }]. *)
Definition _buildSql (arg : object) : option Sql :=
  let action := get arg (str "action") in
  let rest := without (str "action") arg in
  let chunks := rest ≫= (λ e, _buildSql_chunk e.1 e.2) in
  if bool_decide (chunks = []) then None
  else
    let chunks := (to_String action ++ str " sequence " ++ _fullName) :: chunks in
    Some [ create (to_String action ++ str " sequence") (join (str " ") chunks ++ str ";") ].

Definition _getDifference (a b : object) : object :=
  foldl (λ acc key,
           let leftValue := get a key in
           let rightValue := get b key in
           if bool_decide (to_String leftValue ≠ to_String rightValue)
           then set key leftValue acc
           else acc)
        [] ATTRIBUTES.

(** [structures] is the snapshot; [hasCorrectCurrValue] is the outcome of
    the read-only check query ([rows[0].correct]), consulted only when
    [min] or [max] changed. *)
Definition _getSqlChanges (structures : gmap jsstring object)
    (hasCorrectCurrValue : outcome prim) : outcome (option Sql) :=
  if truthy _forceCreate then
    match _buildSql (spread [(str "action", Str (str "create"))] properties) with
    | Some store =>
        inr (Some (create (str "drop sequence")
                     (str "drop sequence if exists " ++ _fullName ++ str " cascade;")
                   :: store))
    | None => inl TypeError
    end
  else
    match structures !! _fullName with
    | Some structure =>
        let diff := _getDifference properties structure in
        if isExist (get diff (str "min")) || isExist (get diff (str "max")) then
          match hasCorrectCurrValue with
          | inr correct =>
              let diff :=
                if negb (truthy correct)
                then set (str "current") (get properties (str "min")) diff
                else diff in
              inr (_buildSql (spread [(str "action", Str (str "alter"))] diff))
          | inl error => inl error
          end
        else inr (_buildSql (spread [(str "action", Str (str "alter"))] diff))
    | None =>
        inr (_buildSql (spread [(str "action", Str (str "create"))] properties))
    end.

End sequence.

(** The spec's wording of the clause of one attribute. *)
Definition attribute_clause (key : jsstring) (desired : prim) : jsstring :=
  if bool_decide (key = str "cycle") then
    (if truthy desired then str "cycle" else str "no cycle")
  else if bool_decide (key = str "increment") then
    str "increment " ++ to_String (if truthy desired then desired else Num 1)
  else
    let word :=
      if bool_decide (key = str "start") then str "start"
      else if bool_decide (key = str "min") then str "minvalue"
      else str "maxvalue" in
    if truthy desired then word ++ str " " ++ to_String desired
    else str "no " ++ word.

(** The attributes whose desired and observed values differ as strings. *)
Definition changed (desired observed : object) : list jsstring :=
  List.filter
    (λ key, bool_decide (to_String (get desired key) ≠ to_String (get observed key)))
    ATTRIBUTES.

(** The spec's wording: the read-only check is consulted when [min] or [max]
    changed (to a value that exists). *)
Definition needs_check (desired observed : object) : bool :=
  (bool_decide (str "min" ∈ changed desired observed)
     && isExist (get desired (str "min")))
  || (bool_decide (str "max" ∈ changed desired observed)
        && isExist (get desired (str "max"))).

(** The spec's wording: [restart with N], when the current value is out of
    the new bounds and a minimum is given. *)
Definition restart_clause (desired observed : object) (correct : prim) : list jsstring :=
  if needs_check desired observed && negb (truthy correct)
     && isExist (get desired (str "min"))
  then [ str "restart with " ++ to_String (get desired (str "min")) ]
  else [].

(** The spec's wording: the statement holds one clause per changed
    attribute, then the restart clause if any; no statement when nothing
    changed. *)
Definition expected_alter (fullName : jsstring) (desired observed : object)
    (correct : prim) : option Sql :=
  let clauses :=
    (λ key, attribute_clause key (get desired key)) <$> changed desired observed in
  if bool_decide (changed desired observed = []) then None
  else
    Some [ create (str "alter sequence")
             (join (str " ")
                ((str "alter sequence " ++ fullName)
                   :: clauses ++ restart_clause desired observed correct)
              ++ str ";") ].

End Sequence.

Import Sequence.

(** ** The operation orderer *)

Module Orderer.

(** Position of [tag] in the priority list; tags that are not listed rank
    after every listed one. *)
Fixpoint rank (order : list jsstring) (tag : jsstring) : nat :=
  match order with
  | [] => O
  | t :: order' => if bool_decide (t = tag) then O else S (rank order' tag)
  end.

Fixpoint insert_by {A : Type} (rk : A → nat) (x : A) (l : list A) : list A :=
  match l with
  | [] => [x]
  | y :: l' => if (rk x <=? rk y)%nat then x :: l else y :: insert_by rk x l'
  end.

(** Modelled from the spec: [utils.sortByList(getter, orderList, array)],
    which the closure-based Differ calls and the utilities module at hand
    does not contain.  "Stably sorts them according to a fixed priority
    list, with any operation tag not in the list retained in its original
    relative position after the listed ones; operations with equal priority
    (or no explicit priority) preserve original ordering." *)
Definition sortByList {A : Type} (getter : A → jsstring) (orderList : list jsstring)
    (array : list A) : list A :=
  foldr (insert_by (λ x, rank orderList (getter x))) [] array.


(** [R.uniq]: the first occurrence of every element, in order. *)
Definition uniq {A : Type} `{EqDecision A} (l : list A) : list A :=
  foldl (λ acc x, if bool_decide (x ∈ acc) then acc else acc ++ [x]) [] l.

(** [_getFlatAndSortedSqlList], on the settled result of
    [Promise.all(promises)]: [None] is a getter that returned nothing. *)
Definition _getFlatAndSortedSqlList (orderOfOperations : option (list jsstring))
    (result : list (option Sql)) : list jsstring :=
  let store := omap id result in          (* .filter(Boolean).map(getStore) *)
  let store := concat store in            (* R.unnest *)
  let store :=
    match orderOfOperations with
    | Some order => sortByList operation order store
    | None => store
    end in
  value <$> store.

(** The priority list [sync] passes for the Extensions category. *)
Definition extensionsOrder : list jsstring :=
  [ str "drop foreignKey"; str "drop primaryKey"; str "drop unique";
    str "delete rows"; str "add unique" ].





(** [x] occurs in [l] at an earlier position than [y]. *)
Definition before {A : Type} (x y : A) (l : list A) : Prop :=
  ∃ l1 l2 l3, l = l1 ++ x :: l2 ++ y :: l3.

End Orderer.

Import Orderer.

(** ** The connection and the log, as state *)

Module Effects.

Inductive entity : Type :=
| Sequences
| Tables
| Extensions
| Seeds
| SequenceValues.

#[global] Instance entity_eq_dec : EqDecision entity.
Proof. solve_decision. Defined.

(** What [_getDatabaseVersion] returns: [null], or the [Number] read off the
    version text (possibly [NaN]). *)
Inductive dbversion : Type :=
| VersionNull
| VersionNaN
| Version (q : Q).

(** Log lines.  The exact wording (and colouring) of a line is not modelled;
    each constructor stands for one message of the sources:
    ['Sync started'], ['Current version PostgreSQL: ...'],
    ['[ entity ] updating...' + statements], ['[ entity ] updated successfully'],
    ['Inserted seeds: n'], ['For Seeds need a PostgreSQL v9.5 or more'],
    ['Database does not need updating'], ['Sync successful'],
    ['Invalid schema type: ...'], the deprecation notice of [define],
    and a statement echoed by [logger.log]. *)
Inductive message : Type :=
| SyncStarted
| CurrentVersion (v : dbversion)
| Updating (e : entity) (sql : list jsstring)
| Updated (e : entity)
| InsertedSeeds (count : Z)
| SeedsNeedNewerServer
| NoUpdateNeeded
| SyncSuccessful
| InvalidSchemaType (type : jsstring)
| DefineDeprecated
| Statement (sql : jsstring).

Inductive level : Type := Info | Warn | Error | Log.

#[global] Instance Q_eq_dec : EqDecision Q.
Proof. solve_decision. Defined.

#[global] Instance dbversion_eq_dec : EqDecision dbversion.
Proof. solve_decision. Defined.

#[global] Instance message_eq_dec : EqDecision message.
Proof. solve_decision. Defined.

#[global] Instance level_eq_dec : EqDecision level.
Proof. solve_decision. Defined.

(** What is asked of the connection. *)
Inductive request : Type :=
| Connect
| Query (sql : jsstring)
| End.

#[global] Instance request_eq_dec : EqDecision request.
Proof. solve_decision. Defined.

Inductive event : Type :=
| Call (r : request)
| Logged (l : level) (m : message).

#[global] Instance event_eq_dec : EqDecision event.
Proof. solve_decision. Defined.

(** The connection provider: what it answers to a request, given everything
    that happened before. *)
Class Server : Type := {
  response : Type;
  rowCount : response → Z;
  reply : list event → request → outcome response;
}.

(** A computation: from the events so far to the events afterwards and
    either a thrown exception or a value. *)
Definition M (A : Type) : Type := list event → list event * outcome A.

Definition ret {A : Type} (a : A) : M A := λ tr, (tr, inr a).

Definition throw {A : Type} (e : exn) : M A := λ tr, (tr, inl e).

Definition bind {A B : Type} (c : M A) (k : A → M B) : M B :=
  λ tr,
    match c tr with
    | (tr', inr a) => k a tr'
    | (tr', inl e) => (tr', inl e)
    end.

(** [try { c } catch (error) { handler(error) }] *)
Definition try_catch {A : Type} (c : M A) (handler : exn → M A) : M A :=
  λ tr,
    match c tr with
    | (tr', inr a) => (tr', inr a)
    | (tr', inl e) => handler e tr'
    end.

(** [cond && await c] *)
Definition when (cond : bool) (c : M unit) : M unit :=
  if cond then c else ret tt.

Definition logged (l : level) (m : message) : M unit :=
  λ tr, (tr ++ [Logged l m], inr tt).

Definition call `{Server} (r : request) : M response :=
  λ tr, (tr ++ [Call r], reply tr r).

(** [await client.query(sql)] *)
Definition query `{Server} (sql : jsstring) : M response := call (Query sql).

Definition discard {A : Type} (c : M A) : M unit :=
  bind c (λ _, ret tt).

(** Run [c] and hand back how it settled, thrown or returned. *)
Definition attempt {A : Type} (c : M A) : M (outcome A) :=
  λ tr, let '(tr', r) := c tr in (tr', inr r).

(** [for (let i = 0; i < sql.length; i++) result.push(await f(sql[i]))] *)
Fixpoint for_each {A B : Type} (f : A → M B) (l : list A) : M (list B) :=
  match l with
  | [] => ret []
  | x :: l' => bind (f x) (λ r, bind (for_each f l') (λ rs, ret (r :: rs)))
  end.

(** A computation stops at the first request that is answered with an error
    and throws that error: whatever it adds to the trace, a request in it
    that failed is the last event, and its error is the outcome. *)
Definition failstop `{Server} {A : Type} (c : M A) : Prop :=
  ∀ tr, ∃ evs,
    (c tr).1 = tr ++ evs
    ∧ ∀ pre r post e,
        evs = pre ++ Call r :: post → reply (tr ++ pre) r = inl e →
        post = [] ∧ (c tr).2 = inl e.

(** The answer to a request was not an error. *)
Definition answered `{Server} (tr : list event) (r : request) : Prop :=
  ∃ response, reply tr r = inr response.

(** Every request among the events [evs], which extend the trace [tr], was
    answered without an error. *)
Definition all_answered `{Server} (tr evs : list event) : Prop :=
  ∀ pre r post, evs = pre ++ Call r :: post → answered (tr ++ pre) r.

(** The requests of a trace, in order. *)
Definition calls (tr : list event) : list request :=
  omap (λ e, match e with Call r => Some r | Logged _ _ => None end) tr.

(** The log lines of a trace, in order. *)
Definition logs (tr : list event) : list (level * message) :=
  omap (λ e, match e with Logged l m => Some (l, m) | Call _ => None end) tr.

End Effects.

Import Effects.

#[global] Instance M_ret : MRet M := @ret.
#[global] Instance M_bind : MBind M := λ A B k c, bind c k.

(** ** The closure-based Differ *)

Module Legacy.

(** The parts the orchestrator calls and does not define: how the version
    number is read off the row of [select version()] (a [match] and a
    [Number] conversion), and what the getters of the registered tables and
    sequences produce for a category, once all have settled, given what
    happened so far.  The getters' own read-only queries are not recorded. *)
Class Getters `{Server} : Type := {
  versionOf : response → dbversion;
  changes : entity → list event → outcome (list (option Sql));
}.

Section differ.

Context `{Getters}.

Definition _getDatabaseVersion : M dbversion :=
  r ← query (str "select version()"); ret (versionOf r).

(** [currentVersion >= 9.5]; [null] converts to [0], [NaN] compares false. *)
Definition _supportSeeds (currentVersion : dbversion) : bool :=
  match currentVersion with
  | Version q => Qle_bool (95 # 10) q
  | VersionNull => false
  | VersionNaN => false
  end.

(** [_calculateSuccessfulInsets] on an array of results. *)
Definition _calculateSuccessfulInsets (results : list response) : Z :=
  foldl (λ acc insert, (acc + rowCount insert)%Z) 0%Z results.

(** Returns [None] for [false], [Some results] otherwise. *)
Definition _entitySync (e : entity) (orderOfOperations : option (list jsstring))
    (logging : bool) : M (option (list response)) :=
  result ← (λ tr, (tr, changes e tr));
  let sql := _getFlatAndSortedSqlList orderOfOperations result in
  if bool_decide (sql = []) then ret None
  else
    let sql := uniq sql in
    when logging (logged Info (Updating e sql)) ;;
    result ← for_each query sql;
    when logging (logged Info (Updated e)) ;;
    ret (Some result).

(** The seeds step of [sync]; returns what it pushes onto [queries]. *)
Definition syncSeeds (databaseVersion : dbversion) : M (list bool) :=
  if _supportSeeds databaseVersion then
    insertSeedQueries ← _entitySync Seeds None false;
    match insertSeedQueries with
    | Some results =>
        let insertSeedCount := _calculateSuccessfulInsets results in
        logged Info (InsertedSeeds insertSeedCount) ;;
        ret [negb (insertSeedCount =? 0)%Z]
    | None => ret []
    end
  else
    logged Warn SeedsNeedNewerServer ;;
    ret [].

(** The rest of the [try] block once [queries] is complete. *)
Definition syncFinish (transaction : bool) (queries : list bool) : M unit :=
  when (bool_decide (List.filter id queries = []))
       (logged Info NoUpdateNeeded) ;;
  when transaction (discard (query (str "commit"))) ;;
  logged Info SyncSuccessful ;;
  discard (call End).

(** The [try] block from the seeds step on; [queries] holds the results of
    the first three categories. *)
Definition syncRest (transaction : bool) (databaseVersion : dbversion)
    (queries : list bool) : M unit :=
  seeds ← syncSeeds databaseVersion;
  let queries := queries ++ seeds in
  q5 ← _entitySync SequenceValues None true;
  let queries := queries ++ [bool_decide (is_Some q5)] in
  syncFinish transaction queries.

(** The body of the [try] block. [queries] is kept as the list of the
    truth values of its elements, which is all [filter(Boolean)] reads. *)
Definition syncBody (transaction : bool) (databaseVersion : dbversion) : M unit :=
  q1 ← _entitySync Sequences None true;
  q2 ← _entitySync Tables None true;
  q3 ← _entitySync Extensions (Some extensionsOrder) true;
  let queries := [bool_decide (is_Some q1); bool_decide (is_Some q2);
                  bool_decide (is_Some q3)] in
  syncRest transaction databaseVersion queries.

(** The [catch] block. *)
Definition syncCatch (transaction : bool) (error : exn) : M unit :=
  when transaction (discard (query (str "rollback"))) ;;
  discard (call End) ;;
  throw error.

(** [options.transaction] after [{ ..._defaultSyncOptions, ...options }];
    [_defaultSyncOptions] is [{ transaction: true }]. *)
Definition transactionOption (options : object) : bool :=
  truthy (get (spread [(str "transaction", Bool true)] options) (str "transaction")).

(** [options] is the caller's object. *)
Definition sync (options : object) : M unit :=
  let transaction := transactionOption options in
  databaseVersion ← _getDatabaseVersion;
  logged Info SyncStarted ;;
  logged Info (CurrentVersion databaseVersion) ;;
  when transaction (discard (query (str "begin"))) ;;
  try_catch (syncBody transaction databaseVersion) (syncCatch transaction).

(** The events of [sync] before the [try] block, when [select version()]
    reports [v]. *)
Definition syncPrelude (transaction : bool) (v : dbversion) : list event :=
  [ Call (Query (str "select version()"));
    Logged Info SyncStarted;
    Logged Info (CurrentVersion v) ]
  ++ (if transaction then [Call (Query (str "begin"))] else []).

(** The events of the [catch] block. *)
Definition catchEvents (transaction : bool) : list event :=
  (if transaction then [Call (Query (str "rollback"))] else []) ++ [Call End].

(** The events of the [try] block when no category has a statement. *)
Definition quietEvents (transaction : bool) (v : dbversion) : list event :=
  (if _supportSeeds v then [] else [Logged Warn SeedsNeedNewerServer])
  ++ [Logged Info NoUpdateNeeded]
  ++ (if transaction then [Call (Query (str "commit"))] else [])
  ++ [Logged Info SyncSuccessful; Call End].

(** The events of one category whose statements, once repeated texts are
    removed, are [sql]. *)
Definition categoryEvents (e : entity) (logging : bool) (sql : list jsstring)
  : list event :=
  if bool_decide (sql = []) then []
  else (if logging then [Logged Info (Updating e sql)] else [])
       ++ ((λ q, Call (Query q)) <$> sql)
       ++ (if logging then [Logged Info (Updated e)] else []).

(** The events that end the [try] block; [idle] says that no category had
    a statement. *)
Definition finishEvents (transaction idle : bool) : list event :=
  (if idle then [Logged Info NoUpdateNeeded] else [])
  ++ (if transaction then [Call (Query (str "commit"))] else [])
  ++ [Logged Info SyncSuccessful; Call End].

(** No getter has a change: whatever happened so far, every category's
    flattened list is empty. *)
Definition nothing_changes : Prop :=
  ∀ e tr, ∃ result, changes e tr = inr result ∧ concat (omap id result) = [].

End differ.

End Legacy.

(** ** The class-based Differ (lib/index.js) *)

Module Differ.

(** The two kinds [_createObject] accepts. *)
Inductive kind : Type := table | sequence.

#[global] Instance kind_eq_dec : EqDecision kind.
Proof. solve_decision. Defined.

Definition kind_of (type : jsstring) : option kind :=
  if bool_decide (type = str "table") then Some table
  else if bool_decide (type = str "sequence") then Some sequence
  else None.

(** The object layer the orchestrator builds on: [validate[type]] and the
    two controllers. *)
Class Controllers : Type := {
  properties : Type;
  controller : Type;
  name : properties → jsstring;                          (* properties.name *)
  validate : kind → properties → outcome unit;           (* validate[type]('properties', properties) *)
  construct : kind → properties → outcome controller;    (* new Controller(this, properties) *)
}.

Section registry.

Context `{Controllers}.

Definition _createObject (type : jsstring) (props : properties) : outcome controller :=
  match kind_of type with
  | Some k =>
      match validate k props with
      | inr _ => construct k props
      | inl error => inl error
      end
  | None =>
      inl (ValidationError (str "type") (str "should be one of ['table', 'sequence']"))
  end.

(** [define]: the registry [this.objects] before, the registry after, and
    what the call returns or throws. *)
Definition define (type : jsstring) (props : properties)
    (objects : entries controller) : entries controller * outcome controller :=
  match _createObject type props with
  | inr object => (set (name props) object objects, inr object)
  | inl error => (objects, inl error)
  end.

(** A Differ starts with [new Map()]; the registry after a series of
    [define] calls (a call that throws leaves it as it was). *)
Definition defined (calls : list (jsstring * properties)) : entries controller :=
  foldl (λ objects c, (define c.1 c.2 objects).1) [] calls.

(** The spec's wording: the object of the most recent successful
    [define] for a name, if any. *)
Definition latest_defined (n : jsstring) (calls : list (jsstring * properties))
  : option controller :=
  last (omap (λ c, if bool_decide (name c.2 = n)
                   then match _createObject c.1 c.2 with
                        | inr object => Some object
                        | inl _ => None
                        end
                   else None) calls).

(** What [_prepare] diffs: [[...this.objects.values()]]. *)
Definition prepared_objects (objects : entries controller) : list controller :=
  values objects.

End registry.

(** What [sync] calls and this file does not define: the settled value of
    [this._prepare(client, options)], given what happened so far (it reads
    the catalogue and asks every registered object for its changes). *)
Class Preparation : Type := {
  _prepare : list event → outcome (list jsstring);
}.

Section sync.

Context `{Server} `{Preparation}.

(** Modelled from the spec: [ConnectionManager.transaction(client,
    callback, enable)], which lives in the connection-manager module.
    "The whole run is wrapped in BEGIN ... COMMIT unless the caller
    disables transaction wrapping; on any statement failure, issues
    ROLLBACK ... and re-raises the original error to the caller." *)
Definition transaction {A : Type} (callback : M A) (enable : bool) : M A :=
  when enable (discard (query (str "begin"))) ;;
  try_catch
    (result ← callback;
     when enable (discard (query (str "commit"))) ;;
     ret result)
    (λ error,
       when enable (discard (query (str "rollback"))) ;;
       throw error).

Definition _execute (queries : list jsstring) : M (list response) :=
  for_each (λ query_, logged Log (Statement query_) ;; query query_) queries.

(** The body of the [try] block; its value is [preparedChanges]. *)
Definition syncBody (transaction_ : bool) : M (list jsstring) :=
  query (str "set search_path to public") ;;
  preparedChanges ← transaction (λ tr, (tr, _prepare tr)) transaction_;
  if bool_decide (length preparedChanges = 0%nat) then
    logged Info NoUpdateNeeded ;;
    ret preparedChanges
  else
    transaction (_execute preparedChanges) transaction_ ;;
    ret preparedChanges.

(** Modelled from the spec: [parser.syncOptions] of the class-based
    sources, "accepts [{transaction: boolean}] (default true)". *)
Definition syncOptions (options : object) : bool :=
  truthy (get (spread [(str "transaction", Bool true)] options) (str "transaction")).

(** [suppliedClient] is [this._connectionConfig instanceof Client]. *)
Definition sync (suppliedClient : bool) (options : object) : M (list jsstring) :=
  let transaction_ := syncOptions options in
  logged Info SyncStarted ;;
  when (negb suppliedClient) (discard (call Connect)) ;;
  settled ← attempt (syncBody transaction_);
  when (negb suppliedClient) (discard (call End)) ;;
  match settled with
  | inl error => throw error
  | inr preparedChanges =>
      logged Info SyncSuccessful ;;
      ret preparedChanges
  end.

(** The events of [sync] up to the call of [_prepare]. *)
Definition preparePrelude (suppliedClient transaction_ : bool) : list event :=
  [Logged Info SyncStarted]
  ++ (if negb suppliedClient then [Call Connect] else [])
  ++ [Call (Query (str "set search_path to public"))]
  ++ (if transaction_ then [Call (Query (str "begin"))] else []).



(** The events after [_prepare] returned no statement. *)
Definition nothingToDoEvents (suppliedClient transaction_ : bool) : list event :=
  (if transaction_ then [Call (Query (str "commit"))] else [])
  ++ [Logged Info NoUpdateNeeded]
  ++ (if negb suppliedClient then [Call End] else [])
  ++ [Logged Info SyncSuccessful].

End sync.

End Differ.

(** ** The registries of the closure-based Differ *)

Module LegacyRegistry.

(** The objects [_define] builds. *)
Class Objects : Type := {
  schema : Type;
  Table : Type;
  SequenceObject : Type;
  schema_name : schema → jsstring;                        (* properties.name *)
  new_Table : schema → outcome Table;
  new_Sequence : schema → outcome SequenceObject;
  _getSequences : Table → option (list SequenceObject);   (* the [[ , sequence ]] pairs *)
  sequence_name : SequenceObject → jsstring;              (* sequence._getProperties().name *)
}.

Section registry.

Context `{Objects}.

Record registries : Type := {
  _tables : entries Table;
  _sequences : entries SequenceObject;
}.

Definition empty : registries := {| _tables := []; _sequences := [] |}.

Inductive defined_object : Type :=
| DefinedTable (t : Table)
| DefinedSequence (s : SequenceObject)
| NothingDefined.

(** [_define(type, properties)] (the one-argument form is unpacked into
    these two first): the registries after, the lines logged, and what the
    call returns or throws. *)
Definition _define (type : jsstring) (props : schema) (r : registries)
  : registries * list (level * message) * outcome defined_object :=
  if bool_decide (type = str "table") then
    match new_Table props with
    | inr table =>
        let sequences := default [] (_getSequences table) in
        let seqs :=
          foldl (λ acc sequence, set (sequence_name sequence) sequence acc)
                (_sequences r) sequences in
        ({| _tables := set (schema_name props) table (_tables r);
            _sequences := seqs |}, [], inr (DefinedTable table))
    | inl error => (r, [], inl error)
    end
  else if bool_decide (type = str "sequence") then
    match new_Sequence props with
    | inr sequence =>
        ({| _tables := _tables r;
            _sequences := set (schema_name props) sequence (_sequences r) |},
         [], inr (DefinedSequence sequence))
    | inl error => (r, [], inl error)
    end
  else (r, [(Error, InvalidSchemaType type)], inr NothingDefined).

(** [define(type, properties)]: the deprecation notice, then [_define]. *)
Definition define (type : jsstring) (props : schema) (r : registries)
  : registries * list (level * message) * outcome defined_object :=
  let '(r', lines, result) := _define type props r in
  (r', (Warn, DefineDeprecated) :: lines, result).

(** [define.table] and [define.sequence]. *)
Definition define_table (props : schema) := _define (str "table") props.
Definition define_sequence (props : schema) := _define (str "sequence") props.

Definition defined (calls : list (jsstring * schema)) : registries :=
  foldl (λ r c, (_define c.1 c.2 r).1.1) empty calls.

(** The spec's wording: the table of the most recent successful
    [_define('table', ...)] for a name, if any. *)
Definition latest_table (n : jsstring) (calls : list (jsstring * schema))
  : option Table :=
  last (omap (λ c, if bool_decide (c.1 = str "table" ∧ schema_name c.2 = n)
                   then match new_Table c.2 with
                        | inr t => Some t
                        | inl _ => None
                        end
                   else None) calls).

(** The sequences a call of [_define] registers, each with the name it is
    registered under, in the order of the [set] calls: those of a table's
    columns, or the one defined. *)
Definition registered_sequences (c : jsstring * schema)
  : list (jsstring * SequenceObject) :=
  if bool_decide (c.1 = str "table") then
    match new_Table c.2 with
    | inr table => (λ s, (sequence_name s, s)) <$> default [] (_getSequences table)
    | inl _ => []
    end
  else if bool_decide (c.1 = str "sequence") then
    match new_Sequence c.2 with
    | inr sequence => [(schema_name c.2, sequence)]
    | inl _ => []
    end
  else [].

(** The spec's wording: the sequence most recently registered under a
    name, if any. *)
Definition latest_sequence (n : jsstring) (calls : list (jsstring * schema))
  : option SequenceObject :=
  last (omap (λ e : jsstring * SequenceObject,
                if bool_decide (e.1 = n) then Some e.2 else None)
             (calls ≫= registered_sequences)).

(** What [sync] goes through: [[..._tables.values()]] and
    [[..._sequences.values()]]. *)
Definition synced_tables (r : registries) : list Table := values (_tables r).
Definition synced_sequences (r : registries) : list SequenceObject :=
  values (_sequences r).

End registry.

End LegacyRegistry.

(** ** Concrete collaborators, for running the definitions *)

Module Scenario.

(** A type-group table with the three groups the codec tells apart. *)
Definition groups : list (group * list jsstring) :=
  [ (JSON, [str "json"; str "jsonb"]);
    (INTEGER, [str "smallint"; str "integer"; str "bigint"]);
    (BOOLEAN, [str "boolean"]) ].

(** Flat objects with integer members, and the two built-ins on them:
    [{"a":1,"b":2}]. *)
Definition flat : Type := list (jsstring * Z).

Definition stringify_member (m : jsstring * Z) : jsstring :=
  [dquote] ++ m.1 ++ [dquote; colon] ++ Z_to_jsstring m.2.

Definition stringify (o : flat) : jsstring :=
  str "{" ++ join (str ",") (stringify_member <$> o) ++ str "}".

Fixpoint span (p : N → bool) (s : jsstring) : jsstring * jsstring :=
  match s with
  | c :: s' => if p c then let '(a, b) := span p s' in (c :: a, b) else ([], s)
  | [] => ([], [])
  end.

Definition digits_value (ds : jsstring) : Z :=
  foldl (λ acc d, (acc * 10 + (Z.of_N d - 48))%Z) 0%Z ds.

Fixpoint parse_members (fuel : nat) (s : jsstring) : option flat :=
  match fuel with
  | O => None
  | S fuel' =>
      match s with
      | c :: s1 =>
          if c =? dquote then
            let '(key, s2) := span (λ c, negb (c =? dquote)) s1 in
            match s2 with
            | _ :: c2 :: s3 =>
                if c2 =? colon then
                  let '(ds, s4) := span is_digit s3 in
                  match ds, s4 with
                  | _ :: _, [c4] =>
                      if c4 =? 125 then Some [(key, digits_value ds)] else None
                  | _ :: _, c4 :: s5 =>
                      if c4 =? 44 then
                        (λ rest, (key, digits_value ds) :: rest) <$> parse_members fuel' s5
                      else None
                  | _, _ => None
                  end
                else None
            | _ => None
            end
          else None
      | [] => None
      end
  end.

Definition parse (s : jsstring) : outcome (jsvalue flat) :=
  match s with
  | c :: s' =>
      if c =? 123 then
        if bool_decide (s' = [125]) then inr (Obj [])
        else match parse_members (length s) s' with
             | Some members => inr (Obj members)
             | None => inl SyntaxError
             end
      else inl SyntaxError
  | [] => inl SyntaxError
  end.

(** A server that reports [reported] as its version and answers every
    request, except that the statement [failing] is answered with an error. *)
Definition server (reported : dbversion) (failing : jsstring) : Server :=
  {| response := dbversion * Z;
     rowCount := snd;
     reply := λ _ r,
       match r with
       | Query sql =>
           if bool_decide (sql = failing) then inl (DatabaseError 23505)
           else inr (reported, 1%Z)
       | _ => inr (reported, 0%Z)
       end |}.

(** Getters that produce the same changes whatever happened before. *)
Definition getters (reported : dbversion) (failing : jsstring)
    (per_entity : entity → list (option Sql))
  : @Legacy.Getters (server reported failing) :=
  {| Legacy.versionOf := (fst : @response (server reported failing) → dbversion);
     Legacy.changes := λ e _, inr (per_entity e) |}.

Definition preparation (stmts : list jsstring) : Differ.Preparation :=
  {| Differ._prepare := λ _, inr stmts |}.

(** A registry layer: properties are a name and a payload, every definition
    is valid, and the controller built is the payload. *)
Definition controllers : Differ.Controllers :=
  {| Differ.properties := jsstring * nat;
     Differ.controller := nat;
     Differ.name := fst;
     Differ.validate := λ _ _, inr tt;
     Differ.construct := λ _ p, inr p.2 |}.


End Scenario.

(** ** More on computations *)

Module Computations.

(** A value or an exception that is already known: [return] or [throw]. *)
Definition settle {A : Type} (o : outcome A) : M A := λ tr, (tr, o).


(** Whatever the events so far, a computation only adds events, and every
    request among them is one that [P] allows. *)
Definition only_calls `{Server} {A : Type} (P : request → Prop) (c : M A) : Prop :=
  ∀ tr, ∃ evs, (c tr).1 = tr ++ evs ∧ ∀ r, Call r ∈ evs → P r.

End Computations.

Import Computations.

(** The requests the closure-based [sync] makes when the transaction is
    off: the version query, the end of the connection, and the statements
    that a getter produced. *)
Module Requests.

Definition plain_run `{Legacy.Getters} (r : request) : Prop :=
  r = Query (str "select version()") ∨ r = End
  ∨ ∃ e tr result statement,
      Legacy.changes e tr = inr result ∧ statement ∈ concat (omap id result)
      ∧ r = Query (value statement).

End Requests.

Import Requests.

(** ** Check constraints: [checkCondition] (parser.js) and [getChecks] *)

Module Checks.

Definition lparen : N := 40.
Definition rparen : N := 41.

(** [/[^(]+(?=\))/]: a run of characters other than [(] that is followed by
    [)].  The greedy [+] gives back characters until the look-ahead holds,
    so the run taken from a start is the longest one that [)] follows. *)
Definition conditionPattern : pattern :=
  {| behind := anywhere;
     body := Plus (Cls (λ c, negb (c =? lparen)));
     ahead := λ rest, bool_decide (head rest = Some rparen) |}.

(** [definition.match(/[^(]+(?=\))/)[0]]; reading [[0]] of the [null] of a
    failed match throws a [TypeError]. *)
Definition checkCondition (definition : jsstring) : outcome jsstring :=
  match match0 conditionPattern definition with
  | Some m => inr m
  | None => inl TypeError
  end.

(** [rows.map(f)] for an [f] that may throw: the first exception ends it. *)
Fixpoint map_throwing {A B : Type} (f : A → outcome B) (rows : list A) : outcome (list B) :=
  match rows with
  | [] => inr []
  | row :: rows' =>
      match f row with
      | inr b =>
          match map_throwing f rows' with
          | inr bs => inr (b :: bs)
          | inl error => inl error
          end
      | inl error => inl error
      end
  end.

(** What the table-information object reads from the connection: the text
    of the query for a table's check constraints ([queries.getChecks]) and
    the rows of an answer, each a [name] and a [definition]. *)
Class Catalogue `{Server} : Type := {
  getChecks_query : jsstring → jsstring;
  rows : response → list (jsstring * jsstring);
}.

Section table_info.

Context `{Catalogue}.

(** The table-information object of the table [name]. *)
Variable name : jsstring.

(** [getChecks(table = name)]: the rows of one query, each definition
    reduced to its condition. *)
Definition getChecks (table : option jsstring) : M (list (jsstring * jsstring)) :=
  let table := default name table in
  r ← query (getChecks_query table);
  settle (map_throwing
            (λ row, match checkCondition row.2 with
                    | inr condition => inr (row.1, condition)
                    | inl error => inl error
                    end)
            (rows r)).

End table_info.

End Checks.

Import Checks.

(** ** Type names: [normalizeType] (parser.js) *)

Module Types.

(** [s.match(p)] for a pattern with the [g] flag, no look-behind and a body
    that does not match the empty word: the matched texts from left to
    right (none for [null]). *)
Fixpoint match_all_fuel (fuel : nat) (p : pattern) (s : jsstring) : list jsstring :=
  match fuel with
  | O => []
  | S fuel' =>
      match exec p s with
      | Some (_, m, rest) => m :: match_all_fuel fuel' p rest
      | None => []
      end
  end.

Definition match_all (p : pattern) (s : jsstring) : list jsstring :=
  match_all_fuel (S (length s)) p s.

Section aliases.

(** [TYPES.ALIASES[type]], when the table of the constants module has an
    entry for [type]. *)
Variable ALIASES : jsstring → option jsstring.

Definition normalizeType (type : jsstring) : jsstring :=
  let values := match_all regExpTypeOptions type in   (* type.match(...) || [] *)
  let type := trimType type in
  (* decode type alias *)
  let type :=
    match ALIASES type with
    | Some alias => alias
    | None => type
    end in
  type ++ concat values.                               (* values.join('') *)

End aliases.

(** The characters an option of a type starts with: [[], [(] and [']. *)
Definition opens_option (c : N) : bool :=
  (c =? 91) || (c =? 40) || (c =? apostrophe).

End Types.

Import Types.

(** ** Auto-increment columns: [normalizeAutoIncrement] (parser.js) *)

Module AutoIncrement.

Section defaults.

(** [SEQUENCES.DEFAULTS] of the constants module. *)
Variable DEFAULTS : object.

(** The argument is [column.autoIncrement]: a primitive or an object. *)
Definition normalizeAutoIncrement (value : jsvalue object) : jsvalue object :=
  match value with
  | Obj o => Obj (spread DEFAULTS o)                       (* R.is(Object, value) *)
  | Prim p => if truthy p then Obj (spread DEFAULTS []) else value
  end.

End defaults.

End AutoIncrement.

Import AutoIncrement.

(** ** The utilities module *)

Module Utils.

Section by_name.

Context {A : Type}.

(** [el.name] *)
Variable name_of : A → jsstring.

(** The test [findByName] hands to [R.find]; [formerNames] is absent or an
    array of names. *)
Definition named (name : jsstring) (formerNames : option (list jsstring)) (el : A) : bool :=
  if bool_decide (name_of el = name) then true
  else
    match formerNames with
    | Some names => bool_decide (name_of el ∈ names)     (* R.includes(el.name, formerNames) *)
    | None => false
    end.

Definition findByName (array : list A) (name : jsstring)
    (formerNames : option (list jsstring)) : option A :=
  List.find (named name formerNames) array.

End by_name.

End Utils.

Import Utils.

(** ** Reading a definition back: [_read] of the closure-based Differ *)

Module Reading.

(** What [_read] calls and does not define: the two validators of the
    options and the two readers, whose own read-only queries are not
    recorded. *)
Class Readers `{Server} : Type := {
  reading : Type;                                             (* options *)
  read_properties : Type;
  validate_tableReading : reading → outcome unit;
  validate_sequenceReading : reading → outcome unit;
  Table_read : reading → list event → outcome read_properties;      (* Table._read(_client, options) *)
  Sequence_read : reading → list event → outcome read_properties;   (* Sequence._read(_client, options) *)
}.

Section read.

Context `{Readers}.

(** The [switch]: [None] is the [undefined] that [properties] stays at. *)
Definition readByType (type : jsstring) (options : reading) : M (option read_properties) :=
  if bool_decide (type = str "table") then
    settle (validate_tableReading options) ;;
    properties ← (λ tr, (tr, Table_read options tr));
    ret (Some properties)
  else if bool_decide (type = str "sequence") then
    settle (validate_sequenceReading options) ;;
    properties ← (λ tr, (tr, Sequence_read options tr));
    ret (Some properties)
  else ret None.

Definition _read (type : jsstring) (options : reading) : M (option read_properties) :=
  discard (query (str "begin")) ;;
  try_catch
    (properties ← readByType type options;
     discard (query (str "commit")) ;;
     discard (call End) ;;
     ret properties)
    (λ error,
       discard (query (str "rollback")) ;;
       discard (call End) ;;
       throw error).

End read.

End Reading.

Import Reading.

(** ** The version text: the pattern of [_getDatabaseVersion] *)

Module Version.

Definition is_any (c : N) : bool := negb (is_line_terminator c).

(** [/[0-9]+.[0-9]+/]; the dot is not escaped and stands for any character
    but a line terminator.  Both runs of digits are greedy; the match taken
    from a start is the longest one. *)
Definition versionPattern : pattern :=
  {| behind := anywhere;
     body := Cat (Plus (Cls is_digit)) (Cat (Cls is_any) (Plus (Cls is_digit)));
     ahead := anywhere |}.

(** [row.version.match(/[0-9]+.[0-9]+/)]: the text handed to [Number], or
    [None] for the [null] that makes the version [null]. *)
Definition versionText (version : jsstring) : option jsstring :=
  match0 versionPattern version.

End Version.

Import Version.

(** ** The logger (logger.js) and the logging option of the class-based Differ *)

Module Logger.

Section logger.

(** The functions a caller can pass as a callback. *)
Context {function : Type}.

(** The value of an option: a primitive or a function. *)
Inductive option_value : Type :=
| Plain (p : prim)
| Function (f : function).

(** What a logger calls with a line: [console.info], its default, or the
    value it was given as [callback]. *)
Inductive callee : Type :=
| console_info
| given (v : option_value).

Definition truthy_option (v : option_value) : bool :=
  match v with
  | Plain p => truthy p
  | Function _ => true
  end.

(** A property of an options object: [None] when the object does not have
    it; [Some (Plain Undefined)] when it has it with the value [undefined]. *)
Definition property : Type := option option_value.

(** The value read from a property. *)
Definition read (p : property) : option_value := default (Plain Undefined) p.

(** A default of a destructuring pattern applies when the value read is
    [undefined]. *)
Definition or_default (v : option_value) (d : option_value) : option_value :=
  match v with
  | Plain Undefined => d
  | _ => v
  end.

Record logger : Type := {
  _prefix : jsstring;
  _callback : callee;
  _logging : option_value;
}.

(** [new Logger({ prefix, logging = true, callback = console.info })] *)
Definition new_Logger (prefix : option jsstring) (logging callback : property) : logger :=
  {| _prefix :=
       str "Postgres Differ"
         ++ (match prefix with
             | Some (c :: p) => str " " ++ (c :: p)
             | _ => []
             end);
     _callback :=
       match read callback with
       | Plain Undefined => console_info
       | v => given v
       end;
     _logging := or_default (read logging) (Plain (Bool true)) |}.

Definition _formatMessage (l : logger) (message : jsstring) : jsstring :=
  _prefix l ++ str " :: " ++ message.

(** The calls of the callback that a method makes: whom it calls, and with
    which text.  (Calling a value that is not a function throws; the
    constructor of the Differ never passes one.) *)
Definition info (l : logger) (message : jsstring) : list (callee * jsstring) :=
  if truthy_option (_logging l) then [(_callback l, _formatMessage l message)] else [].

Definition log (l : logger) (message : jsstring) : list (callee * jsstring) :=
  if truthy_option (_logging l) then [(_callback l, message)] else [].

(** The logger the constructor of the class-based Differ makes from the
    [logging] property of its options:
    [options = { ..._defaultOptions, ...options }] with
    [_defaultOptions.logging = false], then [loggingCallback] is
    [options.logging] when that is a function. *)
Definition differ_logger (logging : property) : logger :=
  let logging : option_value :=
    match logging with
    | Some v => v                      (* the caller's property wins, whatever its value *)
    | None => Plain (Bool false)
    end in
  let loggingCallback : property :=
    match logging with
    | Function f => Some (Function f)
    | Plain _ => Some (Plain Undefined)
    end in
  new_Logger None (Some logging) loggingCallback.

End logger.

Arguments callee : clear implicits.
Arguments option_value : clear implicits.
Arguments property : clear implicits.
Arguments logger : clear implicits.

End Logger.

(** ** The statements of a run: [_prepare] of the class-based Differ *)

Module Prepare.

(** What [_prepare] calls and this file does not define: the catalogue
    reader [this._metalize.find] and the controllers' methods, with the
    client and the options already passed.  Each asynchronous call is given
    by how its promise settles: for a controller's method, with the
    statements of the change storage it resolves to ([i.values()]) or the
    exception it rejects with. *)
Class Changes : Type := {
  TableC : Type;
  SequenceC : Type;
  structure : Type;
  metadata : Type;
  table_getObjectName : TableC → jsstring;                  (* t.getObjectName() *)
  sequence_getObjectName : SequenceC → jsstring;            (* s.getObjectName() *)
  (* this._metalize.find({ tables, sequences }, { client }) *)
  find : list jsstring → list jsstring → outcome metadata;
  tables_get : metadata → jsstring → option structure;      (* metadata.tables.get(name) *)
  sequences_get : metadata → jsstring → option structure;   (* metadata.sequences.get(name) *)
  _getChangeQueries : SequenceC → option structure → outcome (list jsstring);
  _getAddExtensionQueries :
    TableC → jsstring → option structure → outcome (list jsstring);
  _getExtensionCleanupQueries :
    TableC → jsstring → option structure → outcome (list jsstring);
  _getCreateOrAlterTableQueries : TableC → option structure → outcome (list jsstring);
  _getIdentityUpdateQueries : TableC → option structure → outcome (list jsstring);
}.

Section prepare.

Context `{Changes}.

(** A registered object: [object.type] is ['table'] or ['sequence']. *)
Definition registered : Type := TableC + SequenceC.

Definition tables_of (values : list registered) : list TableC :=
  omap (λ o, match o with inl t => Some t | inr _ => None end) values.

Definition sequences_of (values : list registered) : list SequenceC :=
  omap (λ o, match o with inr s => Some s | inl _ => None end) values.

Definition extensions : list jsstring :=
  (* order is important *)
  [ str "index"; str "check"; str "unique"; str "primaryKey"; str "foreignKey" ].

(** The array handed to [Promise.all], once the catalogue has been read. *)
Definition promises (found : metadata) (values : list registered)
  : list (outcome (list jsstring)) :=
  let tables := tables_of values in
  let sequences := sequences_of values in
  let updatingSequences :=
    (λ sequence,
       let structure := sequences_get found (sequence_getObjectName sequence) in
       _getChangeQueries sequence structure) <$> sequences in
  let creatingExtensions :=
    tables ≫= (λ table,
                 let structure := tables_get found (table_getObjectName table) in
                 (λ type, _getAddExtensionQueries table type structure) <$> extensions) in
  let cleaningExtensions :=
    tables ≫= (λ table,
                 let structure := tables_get found (table_getObjectName table) in
                 (λ type, _getExtensionCleanupQueries table type structure)
                   <$> reverse extensions) in
  let updatingTables :=
    (λ table,
       let structure := tables_get found (table_getObjectName table) in
       _getCreateOrAlterTableQueries table structure) <$> tables in
  let updatingIdentities :=
    (λ table,
       let structure := tables_get found (table_getObjectName table) in
       _getIdentityUpdateQueries table structure) <$> tables in
  (* order is important *)
  updatingSequences ++ cleaningExtensions ++ updatingTables
    ++ creatingExtensions ++ updatingIdentities.

(** [Promise.all] resolves to the results in the order of the array when
    every promise resolves, and rejects otherwise. *)
Definition all_resolved {A : Type} (settled : list (outcome A)) : option (list A) :=
  mapM (λ o, match o with inr a => Some a | inl _ => None end) settled.

(** The exceptions of the promises that reject, in the order of the array. *)
Definition rejections {A : Type} (settled : list (outcome A)) : list exn :=
  omap (λ o, match o with inl e => Some e | inr _ => None end) settled.

(** How [_prepare] settles: with the statements; with the exception of the
    catalogue read, when that fails; or, when [Promise.all] rejects, with
    the exception of the promise that rejected first in time, which is one
    of [errors] (the order in time is not modelled). *)
Inductive settlement : Type :=
| Resolved (statements : list jsstring)
| FindRejected (error : exn)
| ChangesRejected (errors : list exn).

Definition _prepare (values : list registered) : settlement :=
  let tables := tables_of values in
  let sequences := sequences_of values in
  match find (table_getObjectName <$> tables) (sequence_getObjectName <$> sequences) with
  | inl error => FindRejected error
  | inr found =>
      match all_resolved (promises found values) with
      | Some result =>
          Resolved (concat result)         (* utils.unnest(result.map(i => i.values())) *)
      | None => ChangesRejected (rejections (promises found values))
      end
  end.

(** The statements of a promise that resolved. *)
Definition resolved (o : outcome (list jsstring)) : list jsstring :=
  match o with
  | inr statements => statements
  | inl _ => []
  end.

End prepare.

End Prepare.

(** ** Extensions declared on columns: [_getExtensionsFromColumns] (parser.js) *)

Module ColumnExtensions.

(** [{ type, columns: [ column.name ] }] *)
Record extension : Type := { ext_type : jsstring; ext_columns : list prim }.

(** [R.pick(names, o)]: the properties of [o] among [names], in the order
    of [names]. *)
Definition pick (names : list jsstring) (o : object) : object :=
  foldl (λ acc name,
           match lookup name o with
           | Some v => set name v acc
           | None => acc
           end)
        [] names.

(** [R.groupBy(f)]: the elements under the key [f] gives them, each group in
    the order of the list. *)
Definition groupBy {A : Type} (f : A → jsstring) (l : list A) : entries (list A) :=
  foldl (λ acc x, set (f x) (default [] (lookup (f x) acc) ++ [x]) acc) [] l.

Section from_columns.

(** [COLUMNS.EXTENSIONS] of the constants module: the properties of a
    column that declare an extension. *)
Variable COLUMNS_EXTENSIONS : list jsstring.

(** The inner pipe, before [R.concat(acc)]. *)
Definition column_extensions (column : object) : list extension :=
  omap (λ e : jsstring * prim,
          let '(type, value) := e in
          if bool_decide (value = Bool true)
          then Some {| ext_type := type; ext_columns := [get column (str "name")] |}
          else None)
       (pick COLUMNS_EXTENSIONS column).                 (* R.toPairs *)

Definition _getExtensionsFromColumns (columns : list object) : entries (list extension) :=
  groupBy ext_type
    (foldl (λ acc column, acc ++ column_extensions column) [] columns).

End from_columns.

End ColumnExtensions.

Import ColumnExtensions.

(** ** More concrete collaborators *)

Module Examples.

(** A catalogue server: every query is answered with the same rows. *)
Definition catalogue_server (answer : list (jsstring * jsstring)) : Server :=
  {| response := list (jsstring * jsstring);
     rowCount := λ r, Z.of_nat (length r);
     reply := λ _ _, inr answer |}.

Definition catalogue (answer : list (jsstring * jsstring))
  : @Checks.Catalogue (catalogue_server answer) :=
  {| Checks.getChecks_query := λ table, str "select checks of " ++ table;
     Checks.rows := (id : @response (catalogue_server answer) → list (jsstring * jsstring)) |}.

(** A server that rejects the requests of a list, the n-th of them with the
    error code n, and answers every other request. *)
Fixpoint position (r : request) (l : list request) (n : N) : option N :=
  match l with
  | [] => None
  | r' :: l' => if bool_decide (r' = r) then Some n else position r l' (n + 1)
  end.

Definition picky_server (rejected : list request) : Server :=
  {| response := unit;
     rowCount := λ _, 1%Z;
     reply := λ _ r,
       match position r rejected 1 with
       | Some n => inl (DatabaseError n)
       | None => inr tt
       end |}.

(** Getters that produce the same changes whatever happened before, on a
    server that reports version 10. *)
Definition getters_of (S : Server) (per_entity : entity → list (option Sql))
  : @Legacy.Getters S :=
  {| Legacy.versionOf := λ _, Version (10 # 1);
     Legacy.changes := λ e _, inr (per_entity e) |}.

(** Changes in four categories; the extensions come out of the getter with
    the addition before the removal, and the first table statement twice. *)
Definition some_changes (e : entity) : list (option Sql) :=
  match e with
  | Sequences => [Some [create (str "create sequence") (str "create sequence s")]]
  | Tables =>
      [ Some [create (str "create table") (str "create table t")]; None;
        Some [create (str "create table") (str "create table t")] ]
  | Extensions =>
      [ Some [ create (str "add unique") (str "add unique u");
               create (str "drop foreignKey") (str "drop fk") ] ]
  | Seeds => [Some [create (str "insert seed") (str "insert seed")]]
  | SequenceValues => []
  end.

(** Objects of the closure-based Differ, reduced to names: a definition is
    a name and the names of the sequences its columns ask for. *)
Definition named_objects : LegacyRegistry.Objects :=
  {| LegacyRegistry.schema := jsstring * list jsstring;
     LegacyRegistry.Table := list jsstring;
     LegacyRegistry.SequenceObject := jsstring;
     LegacyRegistry.schema_name := fst;
     LegacyRegistry.new_Table := λ props, inr props.2;
     LegacyRegistry.new_Sequence := λ props, inr props.1;
     LegacyRegistry._getSequences := λ table, Some table;
     LegacyRegistry.sequence_name := id |}.

(** Readers that accept every option and read a name. *)
Definition readers (S : Server) : @Reading.Readers S :=
  {| Reading.reading := jsstring;
     Reading.read_properties := jsstring;
     Reading.validate_tableReading := λ _, inr tt;
     Reading.validate_sequenceReading := λ _, inr tt;
     Reading.Table_read := λ name _, inr name;
     Reading.Sequence_read := λ name _, inr name |}.

(** A server that answers every request and reports no row. *)
Definition idle_server : Server :=
  {| response := unit;
     rowCount := λ _, 0%Z;
     reply := λ _ _, inr tt |}.

(** Only the seeds have a statement. *)
Definition only_seeds (e : entity) : list (option Sql) :=
  match e with
  | Seeds => [Some [create (str "insert seed") (str "insert seed")]]
  | _ => []
  end.

(** Controllers of the class-based Differ, reduced to names: a sequence has
    one statement, a table one statement to create it, one to remove its
    foreign keys and one to add its indexes.  The catalogue cannot be read
    while a table named [locked] is registered. *)
Definition named_changes : Prepare.Changes :=
  {| Prepare.TableC := jsstring;
     Prepare.SequenceC := jsstring;
     Prepare.structure := unit;
     Prepare.metadata := unit;
     Prepare.table_getObjectName := id;
     Prepare.sequence_getObjectName := id;
     Prepare.find := λ tables _,
       if bool_decide (str "locked" ∈ tables) then inl (DatabaseError 55) else inr tt;
     Prepare.tables_get := λ _ _, None;
     Prepare.sequences_get := λ _ _, None;
     Prepare._getChangeQueries := λ s _, inr [str "alter sequence " ++ s];
     Prepare._getAddExtensionQueries := λ t type _,
       inr (if bool_decide (type = str "index") then [str "create index on " ++ t] else []);
     Prepare._getExtensionCleanupQueries := λ t type _,
       inr (if bool_decide (type = str "foreignKey")
            then [str "drop foreign keys of " ++ t] else []);
     Prepare._getCreateOrAlterTableQueries := λ t _, inr [str "create table " ++ t];
     Prepare._getIdentityUpdateQueries := λ _ _, inr [] |}.

End Examples.

Section quote_facts.

Lemma has_backslash_cons (c : N) (s : jsstring) :
  has_backslash (c :: s) = (c =? backslash) || has_backslash s.
Proof.
  unfold has_backslash. destruct (N.eqb_spec c backslash) as [->|Hc].
  - rewrite bool_decide_eq_true_2; [done | by left].
  - rewrite orb_false_l. apply bool_decide_ext. rewrite elem_of_cons.
    split; [intros [?|?]; [congruence | done] | by right].
Qed.

Lemma doubled_eqb (c : N) :
  doubled c = if (c =? apostrophe) || (c =? backslash) then [c; c] else [c].
Proof.
  unfold doubled.
  destruct (N.eqb_spec c apostrophe), (N.eqb_spec c backslash); simpl;
    case_bool_decide; try done; exfalso; tauto.
Qed.

Lemma quoteLiteral_loop (s : jsstring) (acc : jsstring) (b : bool) :
  foldl quoteLiteral_step (acc, b) s
  = (acc ++ (s ≫= doubled), b || has_backslash s).
Proof.
  revert acc b. induction s as [|c s IH]; intros acc b.
  - simpl. by rewrite app_nil_r, orb_false_r.
  - change (foldl quoteLiteral_step (acc, b) (c :: s))
      with (foldl quoteLiteral_step (quoteLiteral_step (acc, b) c) s).
    rewrite has_backslash_cons, bind_cons, doubled_eqb.
    unfold quoteLiteral_step.
    destruct (N.eqb_spec c apostrophe) as [->|Hq]; simpl.
    + rewrite IH. by rewrite <- app_assoc.
    + destruct (c =? backslash); rewrite IH, <- app_assoc; simpl;
        by rewrite ?orb_true_r.
Qed.

Lemma quoteLiteral_closed_form (value : jsstring) :
  quoteLiteral value
  = (if has_backslash value then [letter_E] else [])
      ++ [apostrophe] ++ (value ≫= doubled) ++ [apostrophe].
Proof.
  unfold quoteLiteral. rewrite quoteLiteral_loop. simpl.
  by destruct (has_backslash value).
Qed.

End quote_facts.

(** C1. For every input string, [quoteLiteral] returns the string wrapped in
    single quotes with every interior single quote and every backslash
    doubled; the result starts with [E] exactly when the input contains a
    backslash; [quoteLiteral("O'Brien")] is ['O''Brien'], and a string with a
    backslash yields a literal that starts with [E'] and carries that
    backslash doubled. *)
Theorem quoteLiteral_spec :
  (∀ value : jsstring,
      quoteLiteral value
      = (if has_backslash value then [letter_E] else [])
          ++ [apostrophe] ++ (value ≫= doubled) ++ [apostrophe])
  ∧ (∀ value : jsstring, head (quoteLiteral value) = Some letter_E ↔ backslash ∈ value)
  ∧ (∀ s1 s2 : jsstring,
        quoteLiteral (s1 ++ [backslash] ++ s2)
        = [letter_E; apostrophe] ++ (s1 ≫= doubled)
            ++ [backslash; backslash] ++ (s2 ≫= doubled) ++ [apostrophe])
  ∧ quoteLiteral (str "O'Brien") = str "'O''Brien'"
  ∧ quoteLiteral (str "a\b") = str "E'a\\b'".
Proof.
  split; [|split; [|split; [|split]]].
  - apply quoteLiteral_closed_form.
  - intros value. rewrite quoteLiteral_closed_form. unfold has_backslash.
    case_bool_decide as Hb; simpl; split; done.
  - intros s1 s2. rewrite quoteLiteral_closed_form.
    unfold has_backslash. rewrite bool_decide_eq_true_2 by set_solver.
    rewrite !bind_app. simpl. by rewrite <- !app_assoc.
  - reflexivity.
  - reflexivity.
Qed.

(** * The cleanable policy *)

Section cleanable_facts.

Lemma encrypted_names_inj (l1 l2 k : jsstring) :
  _encryptedNamesListExtensions !! l1 = Some k →
  _encryptedNamesListExtensions !! l2 = Some k →
  l1 = l2.
Proof.
  unfold _encryptedNamesListExtensions. cbn [list_to_map foldr uncurry].
  intros H1 H2.
  repeat (apply lookup_insert_Some in H1 as [[<- <-]|[? H1]]);
    try (by apply lookup_empty_Some in H1);
    repeat (apply lookup_insert_Some in H2 as [[<- H2]|[? H2]]);
    try (by apply lookup_empty_Some in H2); try done; by vm_compute in H2.
Qed.

Lemma encrypted_snoc (entries : list (jsstring * prim)) (l : jsstring) (v : prim) :
  encrypted (entries ++ [(l, v)])
  = <[ property_key (_encryptedNamesListExtensions !! l) := v ]> (encrypted entries).
Proof. unfold encrypted. by rewrite foldl_app. Qed.

Lemma encrypted_lookup (entries : list (jsstring * prim)) (l k : jsstring) (v : prim) :
  NoDup entries.*1 →
  (l, v) ∈ entries →
  _encryptedNamesListExtensions !! l = Some k →
  (∀ l', l' ∈ entries.*1 → is_Some (_encryptedNamesListExtensions !! l')) →
  encrypted entries !! k = Some v.
Proof.
  induction entries as [|[l0 v0] entries IH] using rev_ind; intros Hnd Hin Hk Hall.
  - by apply elem_of_nil in Hin.
  - rewrite encrypted_snoc. rewrite fmap_app in Hnd, Hall.
    apply NoDup_app in Hnd as (Hnd & Hfresh & _).
    apply elem_of_app in Hin as [Hin|Hin].
    + destruct (Hall l0) as [k0 Hk0]; [set_solver|].
      rewrite Hk0. simpl.
      rewrite lookup_insert_ne.
      * apply IH; [done..|]. intros l' Hl'. apply Hall, elem_of_app. by left.
      * intros ->. assert (l0 = l) as -> by (by eapply encrypted_names_inj).
        apply (Hfresh l); [|set_solver].
        apply list_elem_of_fmap. by exists (l, v).
    + apply list_elem_of_singleton in Hin as [= -> ->].
      rewrite Hk. simpl. by rewrite lookup_insert_eq.
Qed.

Lemma encrypted_lookup_none (entries : list (jsstring * prim)) (k : jsstring) :
  (∀ l, l ∈ entries.*1 → property_key (_encryptedNamesListExtensions !! l) ≠ k) →
  encrypted entries !! k = None.
Proof.
  induction entries as [|[l0 v0] entries IH] using rev_ind; intros Hall.
  - done.
  - rewrite encrypted_snoc. rewrite fmap_app in Hall.
    rewrite lookup_insert_ne; [|apply Hall; set_solver].
    apply IH. intros l Hl. apply Hall, elem_of_app. by left.
Qed.

End cleanable_facts.

(** The normalised cleanable policy is the caller's overrides (list names
    translated to variant names) merged over the defaults; without a cleanable
    object the result is the defaults table itself. *)
Lemma cleanable_policy_merge :
  _normalizeCleanableObject None = _cleanableDefaults
  ∧ _cleanableDefaults !! str "primaryKey" = Some (Bool true)
  ∧ _cleanableDefaults !! str "foreignKey" = Some (Bool false)
  ∧ _cleanableDefaults !! str "unique" = Some (Bool false)
  ∧ _cleanableDefaults !! str "check" = Some (Bool false)
  ∧ (∀ (entries : list (jsstring * prim)) (k : jsstring),
        _normalizeCleanableObject (Some entries) !! k
        = match encrypted entries !! k with
          | Some v => Some v
          | None => _cleanableDefaults !! k
          end)
  ∧ (∀ (entries : list (jsstring * prim)) (l k : jsstring) (v : prim),
        NoDup entries.*1 →
        (∀ l', l' ∈ entries.*1 → is_Some (_encryptedNamesListExtensions !! l')) →
        (l, v) ∈ entries →
        _encryptedNamesListExtensions !! l = Some k →
        _normalizeCleanableObject (Some entries) !! k = Some v)
  ∧ (∀ (entries : list (jsstring * prim)) (k : jsstring),
        (∀ l, l ∈ entries.*1 → property_key (_encryptedNamesListExtensions !! l) ≠ k) →
        _normalizeCleanableObject (Some entries) !! k = _cleanableDefaults !! k).
Proof.
  assert (Hmerge : ∀ (entries : list (jsstring * prim)) (k : jsstring),
             _normalizeCleanableObject (Some entries) !! k
             = match encrypted entries !! k with
               | Some v => Some v
               | None => _cleanableDefaults !! k
               end).
  { intros entries k. unfold _normalizeCleanableObject.
    rewrite lookup_union. by destruct (encrypted entries !! k), (_cleanableDefaults !! k). }
  split; [done|]. do 4 (split; [by vm_compute|]).
  split; [exact Hmerge|]. split.
  - intros entries l k v Hnd Hall Hin Hk. rewrite Hmerge.
    by rewrite (encrypted_lookup entries l k v).
  - intros entries k Hall. rewrite Hmerge. by rewrite encrypted_lookup_none.
Qed.

(** C9. The normalised cleanable policy should assign a boolean to each of the
    five extension variants, [false] to [index] by default. At a table without
    a cleanable object the code returns the defaults table, which lists four
    variants: the [index] variant, which the two sibling tables
    ([_encodeExtensionTypes], [_encryptedNamesListExtensions]) do list, has no
    entry and reads [undefined]; it gets a value only from a caller's
    [indexes]. *)
Theorem cleanable_index_has_no_default :
  _normalizeCleanableObject None = _cleanableDefaults
  ∧ _normalizeCleanableObject None !! str "index" = None
  ∧ _normalizeCleanableObject None !! str "index" ≠ Some (Bool false)
  ∧ dom (_normalizeCleanableObject None)
    = list_to_set [str "primaryKey"; str "foreignKey"; str "unique"; str "check"]
  ∧ _encryptedNamesListExtensions !! str "indexes" = Some (str "index")
  ∧ str "index" ∈ extensionVariants
  ∧ ¬ (∀ variant, variant ∈ extensionVariants →
         ∃ b, _normalizeCleanableObject None !! variant = Some (Bool b))
  ∧ _normalizeCleanableObject (Some [(str "indexes", Bool true)]) !! str "index"
    = Some (Bool true).
Proof.
  assert (Hvariant : str "index" ∈ extensionVariants).
  { apply (bool_decide_unpack _). by vm_compute. }
  assert (Hindex : _normalizeCleanableObject None !! str "index" = None).
  { by vm_compute. }
  split; [done|]. split; [exact Hindex|].
  split; [by rewrite Hindex|].
  split; [apply (bool_decide_unpack _); by vm_compute|].
  split; [by vm_compute|]. split; [exact Hvariant|].
  split; [|by vm_compute].
  intros Hall. destruct (Hall (str "index") Hvariant) as [b Hb].
  by rewrite Hindex in Hb.
Qed.

(** * The registries *)

Section entries_facts.

Context {V : Type}.
Implicit Types (m : entries V) (k : jsstring) (v : V).

Lemma lookup_cons_eq m k v : lookup k ((k, v) :: m) = Some v.
Proof. unfold lookup. simpl. by rewrite bool_decide_eq_true_2. Qed.

Lemma lookup_cons_ne m k k0 v : k0 ≠ k → lookup k ((k0, v) :: m) = lookup k m.
Proof. intros Hne. unfold lookup. simpl. by rewrite bool_decide_eq_false_2. Qed.

Lemma lookup_set_eq m k v : lookup k (set k v m) = Some v.
Proof.
  induction m as [|[k0 v0] m IH]; simpl.
  - unfold lookup. simpl. by rewrite bool_decide_eq_true_2.
  - case_bool_decide as Hk.
    + unfold lookup. simpl. by rewrite bool_decide_eq_true_2.
    + unfold lookup in *. simpl. by rewrite bool_decide_eq_false_2.
Qed.

Lemma lookup_set_ne m k k' v : k ≠ k' → lookup k' (set k v m) = lookup k' m.
Proof.
  intros Hne. induction m as [|[k0 v0] m IH]; simpl.
  - unfold lookup. simpl. by rewrite bool_decide_eq_false_2.
  - case_bool_decide as Hk.
    + subst k0. unfold lookup. simpl. by rewrite !bool_decide_eq_false_2.
    + unfold lookup in *. simpl. by case_bool_decide.
Qed.

Lemma keys_set_present m k v : k ∈ keys m → keys (set k v m) = keys m.
Proof.
  induction m as [|[k0 v0] m IH]; simpl; intros Hin.
  - by apply elem_of_nil in Hin.
  - case_bool_decide as Hk; [by subst|].
    unfold keys in *. simpl. f_equal. apply IH.
    simpl in Hin. apply elem_of_cons in Hin as [->|Hin]; done.
Qed.

Lemma keys_set_absent m k v : k ∉ keys m → keys (set k v m) = keys m ++ [k].
Proof.
  induction m as [|[k0 v0] m IH]; simpl; intros Hin; [done|].
  unfold keys in *. simpl in *. apply not_elem_of_cons in Hin as [Hne Hin].
  rewrite bool_decide_eq_false_2 by done. simpl. f_equal. by apply IH.
Qed.

Lemma NoDup_keys_set m k v : NoDup (keys m) → NoDup (keys (set k v m)).
Proof.
  intros Hnd. destruct (decide (k ∈ keys m)) as [Hin|Hin].
  - by rewrite keys_set_present.
  - rewrite keys_set_absent by done. apply NoDup_app. split_and!; [done| |].
    + intros x Hx Hx'. apply list_elem_of_singleton in Hx'. by subst.
    + apply NoDup_singleton.
Qed.

(** Under distinct keys a name has at most one entry. *)
Lemma NoDup_keys_at_most_one m k :
  NoDup (keys m) → (length (List.filter (λ e, bool_decide (e.1 = k)) m) ≤ 1)%nat.
Proof.
  induction m as [|[k0 v0] m IH]; simpl; intros Hnd; [lia|].
  unfold keys in Hnd. simpl in Hnd. apply NoDup_cons in Hnd as [Hk0 Hnd].
  case_bool_decide as Hk; simpl; [|by apply IH].
  subst k0. assert (List.filter (λ e, bool_decide (e.1 = k)) m = []) as ->; [|simpl; lia].
  clear IH Hnd. induction m as [|[k1 v1] m IH]; [done|]. simpl in *.
  apply not_elem_of_cons in Hk0 as [Hne Hk0].
  rewrite bool_decide_eq_false_2 by done. by apply IH.
Qed.

(** Under distinct keys the values are the objects found under the keys,
    key by key. *)
Lemma values_lookup m :
  NoDup (keys m) → Some <$> values m = (λ k, lookup k m) <$> keys m.
Proof.
  induction m as [|[k0 v0] m IH]; [done|].
  unfold keys, values in *. rewrite !fmap_cons. cbn [fst snd].
  intros [Hk0 Hnd]%NoDup_cons. rewrite lookup_cons_eq. f_equal.
  rewrite IH by done. apply list_eq. intros i. rewrite !list_lookup_fmap.
  destruct (m !! i) as [[k v]|] eqn:Hk; [|done]. simpl. f_equal.
  rewrite lookup_cons_ne; [done|].
  intros ->. apply Hk0. apply list_elem_of_fmap. exists (k, v).
  split; [done|]. by eapply list_elem_of_lookup_2.
Qed.

Lemma lookup_is_Some m k : is_Some (lookup k m) ↔ k ∈ keys m.
Proof.
  induction m as [|[k0 v0] m IH].
  - split; [by intros [? ?]|]. intros Hin. by apply elem_of_nil in Hin.
  - unfold keys in *. rewrite fmap_cons, elem_of_cons. cbn [fst].
    destruct (decide (k0 = k)) as [->|Hne].
    + rewrite lookup_cons_eq. split; [by left|by eexists].
    + rewrite lookup_cons_ne by done. rewrite IH. split; [by right|].
      intros [Heq|Hin]; [by subst|done].
Qed.

End entries_facts.

Section registry_facts.

Import Differ.
Context `{Controllers}.

Lemma defined_snoc (calls : list (jsstring * properties)) (c : jsstring * properties) :
  defined (calls ++ [c]) = (define c.1 c.2 (defined calls)).1.
Proof. unfold defined. by rewrite foldl_app. Qed.

Lemma defined_NoDup (calls : list (jsstring * properties)) :
  NoDup (keys (defined calls)).
Proof.
  induction calls as [|c calls IH] using rev_ind.
  - apply NoDup_nil_2.
  - rewrite defined_snoc. unfold define.
    destruct (_createObject c.1 c.2); simpl; [done|].
    by apply NoDup_keys_set.
Qed.

Lemma defined_lookup (calls : list (jsstring * properties)) (n : jsstring) :
  lookup n (defined calls) = latest_defined n calls.
Proof.
  induction calls as [|c calls IH] using rev_ind; [done|].
  rewrite defined_snoc. unfold latest_defined, define in *.
  rewrite omap_app. simpl.
  destruct (_createObject c.1 c.2) as [e|object]; simpl.
  - rewrite IH. case_bool_decide; by rewrite app_nil_r.
  - case_bool_decide as Hn.
    + subst n. rewrite lookup_set_eq. by rewrite last_snoc.
    + rewrite lookup_set_ne by done. by rewrite app_nil_r.
Qed.

End registry_facts.

Section legacy_registry_facts.

Import LegacyRegistry.
Context `{Objects}.

Lemma legacy_defined_snoc (calls : list (jsstring * schema)) (c : jsstring * schema) :
  defined (calls ++ [c]) = (_define c.1 c.2 (defined calls)).1.1.
Proof. unfold defined. by rewrite foldl_app. Qed.

Lemma NoDup_keys_set_all (seqs : list SequenceObject) (m : entries SequenceObject) :
  NoDup (keys m) →
  NoDup (keys (foldl (λ acc sequence, set (sequence_name sequence) sequence acc) m seqs)).
Proof.
  revert m. induction seqs as [|s seqs IH]; intros m Hnd; simpl; [done|].
  apply IH. by apply NoDup_keys_set.
Qed.

Lemma legacy_defined_NoDup (calls : list (jsstring * schema)) :
  NoDup (keys (_tables (defined calls))) ∧ NoDup (keys (_sequences (defined calls))).
Proof.
  induction calls as [|c calls [IHt IHs]] using rev_ind.
  - split; apply NoDup_nil_2.
  - rewrite legacy_defined_snoc. unfold _define.
    repeat case_bool_decide; [destruct (new_Table c.2)|destruct (new_Sequence c.2)|];
      simpl; try done; split; try done;
      auto using NoDup_keys_set, NoDup_keys_set_all.
Qed.

Lemma legacy_defined_lookup (calls : list (jsstring * schema)) (n : jsstring) :
  lookup n (_tables (defined calls)) = latest_table n calls.
Proof.
  induction calls as [|c calls IH] using rev_ind; [done|].
  rewrite legacy_defined_snoc. unfold latest_table, _define in *.
  rewrite omap_app. simpl.
  destruct (decide (c.1 = str "table")) as [Ht|Ht].
  - rewrite (bool_decide_eq_true_2 (c.1 = str "table")) by done.
    destruct (new_Table c.2) as [e|t]; simpl.
    + rewrite IH. case_bool_decide; by rewrite app_nil_r.
    + destruct (decide (schema_name c.2 = n)) as [<-|Hn].
      * rewrite lookup_set_eq, bool_decide_eq_true_2 by done. by rewrite last_snoc.
      * rewrite lookup_set_ne by done.
        rewrite (bool_decide_eq_false_2 (_ ∧ _)) by tauto. by rewrite app_nil_r.
  - rewrite (bool_decide_eq_false_2 (c.1 = str "table")) by done.
    rewrite (bool_decide_eq_false_2 (_ ∧ _)) by tauto. rewrite app_nil_r.
    case_bool_decide; [destruct (new_Sequence c.2)|]; simpl; by rewrite IH.
Qed.

Lemma lookup_set_sequences (seqs : list SequenceObject) (m : entries SequenceObject)
    (n : jsstring) :
  lookup n (foldl (λ acc sequence, set (sequence_name sequence) sequence acc) m seqs)
  = match last (omap (λ e : jsstring * SequenceObject,
                        if bool_decide (e.1 = n) then Some e.2 else None)
                     ((λ s, (sequence_name s, s)) <$> seqs)) with
    | Some s => Some s
    | None => lookup n m
    end.
Proof.
  induction seqs as [|s seqs IH] using rev_ind; [done|].
  rewrite foldl_app, fmap_app, omap_app. simpl.
  destruct (decide (sequence_name s = n)) as [<-|Hne].
  - rewrite lookup_set_eq, bool_decide_eq_true_2 by done. by rewrite last_snoc.
  - rewrite lookup_set_ne by done. rewrite bool_decide_eq_false_2 by done.
    by rewrite app_nil_r.
Qed.

Lemma legacy_defined_sequence (calls : list (jsstring * schema)) (n : jsstring) :
  lookup n (_sequences (defined calls)) = latest_sequence n calls.
Proof.
  induction calls as [|c calls IH] using rev_ind; [done|].
  rewrite legacy_defined_snoc. unfold latest_sequence in *.
  rewrite bind_app, omap_app.
  change ([c] ≫= registered_sequences) with (registered_sequences c ++ []).
  rewrite app_nil_r.
  set (earlier := omap _ (calls ≫= registered_sequences)) in *.
  assert (∀ later : list SequenceObject,
            last (earlier ++ later)
            = match last later with Some s => Some s | None => last earlier end) as Hlast.
  { intros later. destruct later as [|s later _] using rev_ind.
    - by rewrite app_nil_r.
    - by rewrite app_assoc, !last_snoc. }
  rewrite Hlast, <- IH. unfold _define, registered_sequences.
  destruct (decide (c.1 = str "table")) as [Ht|Ht].
  - rewrite !(bool_decide_eq_true_2 (c.1 = str "table")) by done.
    destruct (new_Table c.2) as [e|t]; [done|]. cbn [fst snd _sequences].
    apply lookup_set_sequences.
  - rewrite !(bool_decide_eq_false_2 (c.1 = str "table")) by done.
    case_bool_decide; [|done].
    destruct (new_Sequence c.2) as [e|s]; [done|]. cbn [fst snd _sequences].
    destruct (decide (schema_name c.2 = n)) as [<-|Hne].
    + rewrite lookup_set_eq. cbn [omap list_omap fst snd].
      by rewrite bool_decide_eq_true_2.
    + rewrite lookup_set_ne by done. cbn [omap list_omap fst snd].
      by rewrite bool_decide_eq_false_2.
Qed.

End legacy_registry_facts.

(** C10. Within one Differ the registry holds at most one object per name.
    After any series of [define] calls on a fresh Differ the names of
    [this.objects] are pairwise distinct, a name has at most one entry among
    the objects [sync] goes on to diff, and that entry is the object of the
    most recent successful [define] for the name: the objects [_prepare]
    goes through are, name by name, the most recently defined ones, and
    every name that was defined successfully is among them.  A [define] for
    a name that is already registered replaces the object in place.  The
    same holds for the two registries of the closure-based Differ, where a
    sequence is registered by its own definition or by the table whose
    column asks for it: under each name [_tables] and [_sequences] hold the
    object registered last, and these are the tables and sequences [sync]
    goes through. *)
Theorem registry_one_object_per_name :
  (∀ (C : Differ.Controllers) (calls : list (jsstring * Differ.properties)),
      NoDup (keys (Differ.defined calls))
      ∧ (∀ n, (length (List.filter (λ e, bool_decide (e.1 = n)) (Differ.defined calls)) ≤ 1)%nat)
      ∧ (∀ n, lookup n (Differ.defined calls) = Differ.latest_defined n calls)
      ∧ length (Differ.prepared_objects (Differ.defined calls))
        = length (keys (Differ.defined calls))
      ∧ Some <$> Differ.prepared_objects (Differ.defined calls)
        = (λ n, Differ.latest_defined n calls) <$> keys (Differ.defined calls)
      ∧ (∀ n, n ∈ keys (Differ.defined calls) ↔ is_Some (Differ.latest_defined n calls)))
  ∧ (∀ (C : Differ.Controllers) (objects : entries Differ.controller)
       (type : jsstring) (props : Differ.properties),
        match Differ.define type props objects with
        | (objects', inr object) =>
            lookup (Differ.name props) objects' = Some object
            ∧ (∀ n, n ≠ Differ.name props → lookup n objects' = lookup n objects)
            ∧ (Differ.name props ∈ keys objects → keys objects' = keys objects)
        | (objects', inl _) => objects' = objects
        end)
  ∧ (∀ (O : LegacyRegistry.Objects) (calls : list (jsstring * LegacyRegistry.schema)),
        NoDup (keys (LegacyRegistry._tables (LegacyRegistry.defined calls)))
        ∧ NoDup (keys (LegacyRegistry._sequences (LegacyRegistry.defined calls)))
        ∧ (∀ n, lookup n (LegacyRegistry._tables (LegacyRegistry.defined calls))
                = LegacyRegistry.latest_table n calls)
        ∧ (∀ n, lookup n (LegacyRegistry._sequences (LegacyRegistry.defined calls))
                = LegacyRegistry.latest_sequence n calls)
        ∧ Some <$> LegacyRegistry.synced_tables (LegacyRegistry.defined calls)
          = (λ n, LegacyRegistry.latest_table n calls)
              <$> keys (LegacyRegistry._tables (LegacyRegistry.defined calls))
        ∧ Some <$> LegacyRegistry.synced_sequences (LegacyRegistry.defined calls)
          = (λ n, LegacyRegistry.latest_sequence n calls)
              <$> keys (LegacyRegistry._sequences (LegacyRegistry.defined calls))
        ∧ (∀ n, n ∈ keys (LegacyRegistry._tables (LegacyRegistry.defined calls))
                ↔ is_Some (LegacyRegistry.latest_table n calls))
        ∧ (∀ n, n ∈ keys (LegacyRegistry._sequences (LegacyRegistry.defined calls))
                ↔ is_Some (LegacyRegistry.latest_sequence n calls)))
  ∧ (∀ (O : LegacyRegistry.Objects) (r : LegacyRegistry.registries)
       (props : LegacyRegistry.schema),
        match LegacyRegistry._define (str "sequence") props r with
        | (r', _, inr (LegacyRegistry.DefinedSequence sequence)) =>
            lookup (LegacyRegistry.schema_name props) (LegacyRegistry._sequences r')
            = Some sequence
            ∧ (∀ n, n ≠ LegacyRegistry.schema_name props →
                    lookup n (LegacyRegistry._sequences r')
                    = lookup n (LegacyRegistry._sequences r))
            ∧ (LegacyRegistry.schema_name props ∈ keys (LegacyRegistry._sequences r) →
               keys (LegacyRegistry._sequences r') = keys (LegacyRegistry._sequences r))
            ∧ LegacyRegistry._tables r' = LegacyRegistry._tables r
        | (r', _, inr _) => False
        | (r', _, inl _) => r' = r
        end)
  ∧ (∀ (O : LegacyRegistry.Objects) (r : LegacyRegistry.registries)
       (props : LegacyRegistry.schema),
        match LegacyRegistry._define (str "table") props r with
        | (r', _, inr (LegacyRegistry.DefinedTable table)) =>
            lookup (LegacyRegistry.schema_name props) (LegacyRegistry._tables r')
            = Some table
            ∧ (∀ n, n ≠ LegacyRegistry.schema_name props →
                    lookup n (LegacyRegistry._tables r')
                    = lookup n (LegacyRegistry._tables r))
            ∧ (LegacyRegistry.schema_name props ∈ keys (LegacyRegistry._tables r) →
               keys (LegacyRegistry._tables r') = keys (LegacyRegistry._tables r))
            ∧ (∀ sequences sequence,
                 LegacyRegistry._getSequences table = Some sequences →
                 last sequences = Some sequence →
                 lookup (LegacyRegistry.sequence_name sequence)
                   (LegacyRegistry._sequences r') = Some sequence)
        | (r', _, inr _) => False
        | (r', _, inl _) => r' = r
        end).
Proof.
  split_and!.
  - intros C calls. split_and!.
    + apply defined_NoDup.
    + intros n. apply NoDup_keys_at_most_one, defined_NoDup.
    + intros n. apply defined_lookup.
    + unfold Differ.prepared_objects, values, keys. by rewrite !length_fmap.
    + unfold Differ.prepared_objects. rewrite values_lookup by apply defined_NoDup.
      apply list_fmap_ext. intros _ n _. apply defined_lookup.
    + intros n. by rewrite <- defined_lookup, lookup_is_Some.
  - intros C objects type props. unfold Differ.define.
    destruct (Differ._createObject type props) as [e|object]; [done|].
    split_and!.
    + apply lookup_set_eq.
    + intros n Hn. by apply lookup_set_ne.
    + apply keys_set_present.
  - intros O calls. split_and!.
    + apply legacy_defined_NoDup.
    + apply legacy_defined_NoDup.
    + intros n. apply legacy_defined_lookup.
    + intros n. apply legacy_defined_sequence.
    + unfold LegacyRegistry.synced_tables.
      rewrite values_lookup by apply legacy_defined_NoDup.
      apply list_fmap_ext. intros _ n _. apply legacy_defined_lookup.
    + unfold LegacyRegistry.synced_sequences.
      rewrite values_lookup by apply legacy_defined_NoDup.
      apply list_fmap_ext. intros _ n _. apply legacy_defined_sequence.
    + intros n. by rewrite <- legacy_defined_lookup, lookup_is_Some.
    + intros n. by rewrite <- legacy_defined_sequence, lookup_is_Some.
  - intros O r props. unfold LegacyRegistry._define.
    rewrite bool_decide_eq_false_2 by (by vm_compute).
    rewrite bool_decide_eq_true_2 by done.
    destruct (LegacyRegistry.new_Sequence props) as [e|sequence]; [done|].
    cbn [LegacyRegistry._sequences LegacyRegistry._tables]. split_and!.
    + apply lookup_set_eq.
    + intros n Hn. by apply lookup_set_ne.
    + apply keys_set_present.
    + done.
  - intros O r props. unfold LegacyRegistry._define.
    rewrite bool_decide_eq_true_2 by done.
    destruct (LegacyRegistry.new_Table props) as [e|table]; [done|].
    cbn [LegacyRegistry._sequences LegacyRegistry._tables]. split_and!.
    + apply lookup_set_eq.
    + intros n Hn. by apply lookup_set_ne.
    + apply keys_set_present.
    + intros sequences sequence -> Hlast. simpl.
      rewrite lookup_set_sequences.
      destruct sequences as [|s sequences _] using rev_ind; [done|].
      rewrite last_snoc in Hlast. injection Hlast as ->.
      rewrite fmap_app, omap_app. simpl.
      rewrite bool_decide_eq_true_2 by done. by rewrite last_snoc.
Qed.

(** * The operation orderer *)

Section order_facts.

Context {A : Type} (rk : A → nat).
Implicit Types (x y : A) (l : list A).

Lemma insert_by_perm x l : insert_by rk x l ≡ₚ x :: l.
Proof.
  induction l as [|y l IH]; simpl; [done|].
  destruct (rk x <=? rk y)%nat; [done|].
  rewrite IH. apply Permutation_swap.
Qed.







End order_facts.

Section sortByList_facts.

Context {A : Type} (getter : A → jsstring) (orderList : list jsstring).
Implicit Types (x y : A) (l : list A).


Lemma rank_listed (order : list jsstring) (tag : jsstring) :
  (rank order tag < length order)%nat ↔ tag ∈ order.
Proof.
  induction order as [|t order IH]; simpl.
  - split; [lia|]. by intros ?%elem_of_nil.
  - case_bool_decide as Ht.
    + subst. split; [intros; by left|lia].
    + rewrite elem_of_cons, <- IH. split; [intros; right; lia|].
      intros [->|?]; [done|lia].
Qed.

Lemma sortByList_perm l : sortByList getter orderList l ≡ₚ l.
Proof.
  induction l as [|x l IH]; [done|].
  unfold sortByList in *. simpl. rewrite insert_by_perm. by rewrite IH.
Qed.





End sortByList_facts.

Section uniq_facts.

Context {A : Type} `{EqDecision A}.
Implicit Types (l : list A).

Lemma uniq_snoc l (x : A) :
  uniq (l ++ [x]) = if bool_decide (x ∈ uniq l) then uniq l else uniq l ++ [x].
Proof. unfold uniq. by rewrite foldl_app. Qed.

Lemma elem_of_uniq l (x : A) : x ∈ uniq l ↔ x ∈ l.
Proof.
  induction l as [|y l IH] using rev_ind; [done|].
  rewrite uniq_snoc. case_bool_decide as Hy.
  - rewrite elem_of_app, list_elem_of_singleton, <- IH.
    split; [by left|]. intros [?| ->]; done.
  - by rewrite !elem_of_app, IH.
Qed.

Lemma NoDup_uniq l : NoDup (uniq l).
Proof.
  induction l as [|y l IH] using rev_ind; [apply NoDup_nil_2|].
  rewrite uniq_snoc. case_bool_decide as Hy; [done|].
  apply NoDup_app. split_and!; [done| |apply NoDup_singleton].
  intros x Hx ->%list_elem_of_singleton. done.
Qed.


End uniq_facts.

Section uniq_by_facts.

Context {A B : Type} `{EqDecision B}.
Implicit Types (l : list A) (f : A → B).






End uniq_by_facts.

Section sort_and_uniq.

Context {A B : Type} `{EqDecision B}.
Context (getter : A → jsstring) (orderList : list jsstring) (f : A → B).

Lemma bind_ext_in {X Y : Type} (g g' : X → list Y) (xs : list X) :
  (∀ x, x ∈ xs → g x = g' x) → xs ≫= g = xs ≫= g'.
Proof.
  induction xs as [|x xs IH]; intros Hg; [done|].
  rewrite !bind_cons, Hg, IH; [done| |by left].
  intros y Hy. apply Hg. by right.
Qed.




End sort_and_uniq.

Section before_facts.

Context {A B : Type}.


End before_facts.


(** * Numbers as texts *)

Section number_facts.

(** Up to 53 bits a number is printed digit by digit. *)
Lemma to_String_exact (z : Z) :
  (Z.abs z < 2 ^ 53)%Z → to_String (Num z) = Z_to_jsstring z.
Proof.
  intros Hz. unfold to_String, to_Number.
  assert (Z.log2 (Z.abs z) - 52 <= 0)%Z as Hshift.
  { destruct (decide (Z.abs z = 0)%Z) as [->|Hne]; [done|].
    assert (Z.log2 (Z.abs z) < 53)%Z; [|lia].
    apply Z.log2_lt_pow2; lia. }
  rewrite (proj2 (Z.leb_le _ _) Hshift).
  assert (∀ v, 0 <= v < 2 ^ 53 → Number_toString v = Z_to_jsstring v)%Z as Hplain.
  { intros v [Hv0 Hv]. unfold Number_toString.
    assert (2 ^ 53 < 2 ^ 1024)%Z as Hpow by (apply Z.pow_lt_mono_r; lia).
    rewrite (proj2 (Z.leb_gt _ _)) by (by etrans).
    by rewrite (proj2 (Z.ltb_lt _ _)). }
  destruct (Z.ltb_spec z 0) as [Hneg|Hpos].
  - rewrite Hplain by lia. destruct z as [|p|p]; [lia|lia|]. reflexivity.
  - apply Hplain. lia.
Qed.

(** Beyond 53 bits it is first rounded to a double and then printed with the
    fewest digits that read back as that double, in the exponent form from
    22 digits on. *)
Lemma to_String_rounded :
  to_String (Num (2 ^ 53 + 1)) = str "9007199254740992"
  ∧ to_String (Num (2 ^ 63 - 1)) = str "9223372036854776000"
  ∧ to_String (Num (2 ^ 63)) = str "9223372036854776000"
  ∧ to_String (Num (- 2 ^ 63)) = str "-9223372036854776000"
  ∧ to_String (Num (2 ^ 64)) = str "18446744073709552000"
  ∧ to_String (Num (10 ^ 21)) = str "1e+21"
  ∧ to_String (Num (2 ^ 70)) = str "1.1805916207174113e+21"
  ∧ to_String (Num (2 ^ 1024)) = str "Infinity".
Proof. split_and!; by vm_compute. Qed.

(** The largest [bigint], given as a number, differs as a text from what the
    catalogue reports, and is written as it is printed. *)
Lemma sequence_maximum_rounded :
  let desired : object :=
    [ (str "name", Str (str "ids")); (str "max", Num 9223372036854775807) ] in
  let observed : object := [ (str "max", Str (str "9223372036854775807")) ] in
  _getDifference desired observed = [ (str "max", Num 9223372036854775807) ]
  ∧ _getSqlChanges desired (Bool false) {[ str "public.ids" := observed ]}
      (inr (Bool true))
    = inr (Some [ create (str "alter sequence")
                    (str "alter sequence public.ids maxvalue 9223372036854776000;") ]).
Proof. split; by vm_compute. Qed.

End number_facts.

(** * The sequence differ *)

Section object_facts.

Context {V : Type}.
Implicit Types (m : entries V) (k : jsstring) (v : V).

Lemma set_absent m k v : k ∉ keys m → set k v m = m ++ [(k, v)].
Proof.
  induction m as [|[k0 v0] m IH]; simpl; intros Hin; [done|].
  unfold keys in *. simpl in *. apply not_elem_of_cons in Hin as [Hne Hin].
  rewrite bool_decide_eq_false_2 by done. by rewrite IH.
Qed.

Lemma set_all_absent (base over : entries V) :
  NoDup (keys over) →
  (∀ k, k ∈ keys over → k ∉ keys base) →
  foldl (λ acc e, set e.1 e.2 acc) base over = base ++ over.
Proof.
  revert base. induction over as [|[k v] over IH]; intros base Hnd Hd; simpl.
  - by rewrite app_nil_r.
  - unfold keys in Hnd. simpl in Hnd. apply NoDup_cons in Hnd as [Hk Hnd].
    rewrite set_absent by (apply Hd; by left).
    rewrite IH; [by rewrite <- app_assoc|done|].
    intros k' Hk'. unfold keys. rewrite fmap_app, elem_of_app. simpl.
    rewrite list_elem_of_singleton. intros [Hb| ->]; [|done].
    eapply Hd; [|exact Hb]. by right.
Qed.

Lemma lookup_app_absent (m1 m2 : entries V) k :
  k ∉ keys m1 → lookup k (m1 ++ m2) = lookup k m2.
Proof.
  induction m1 as [|[k0 v0] m1 IH]; simpl; intros Hin; [done|].
  unfold keys in *. simpl in *. apply not_elem_of_cons in Hin as [Hne Hin].
  unfold lookup in *. simpl. rewrite bool_decide_eq_false_2 by done. by apply IH.
Qed.

Lemma lookup_absent m k : k ∉ keys m → lookup k m = None.
Proof.
  intros Hk. rewrite <- (app_nil_r m). by rewrite lookup_app_absent.
Qed.

End object_facts.

Section sequence_facts.

Lemma without_absent (k : jsstring) (o : object) : k ∉ keys o → without k o = o.
Proof.
  unfold without. induction o as [|[k0 v0] o IH]; intros Hk; [done|].
  unfold keys in Hk. rewrite fmap_cons in Hk. apply not_elem_of_cons in Hk as [Hne Hk].
  cbn [List.filter fst]. rewrite bool_decide_eq_false_2 by done. simpl. by rewrite IH.
Qed.

Lemma without_cons_eq (k : jsstring) (v : prim) (o : object) :
  without k ((k, v) :: o) = without k o.
Proof. unfold without. cbn [List.filter fst]. by rewrite bool_decide_eq_true_2. Qed.

Lemma difference_fold (P : jsstring → bool) (g : jsstring → prim)
    (ks : list jsstring) (acc : object) :
  NoDup ks →
  (∀ k, k ∈ ks → k ∉ keys acc) →
  foldl (λ acc key, if P key then set key (g key) acc else acc) acc ks
  = acc ++ ((λ k, (k, g k)) <$> List.filter P ks).
Proof.
  revert acc. induction ks as [|k ks IH]; intros acc Hnd Hd; simpl.
  - by rewrite app_nil_r.
  - apply NoDup_cons in Hnd as [Hk Hnd].
    destruct (P k) eqn:HP.
    + rewrite set_absent by (apply Hd; by left).
      rewrite IH; [by rewrite <- app_assoc|done|].
      intros k' Hk'. unfold keys. rewrite fmap_app, elem_of_app. simpl.
      rewrite list_elem_of_singleton. intros [Hb| ->]; [|done].
      eapply Hd; [|exact Hb]. by right.
    + apply IH; [done|]. intros k' Hk'. apply Hd. by right.
Qed.

Lemma ATTRIBUTES_NoDup : NoDup ATTRIBUTES.
Proof. apply (bool_decide_unpack _). by vm_compute. Qed.

Lemma getDifference_changed (a b : object) :
  _getDifference a b = (λ k, (k, get a k)) <$> changed a b.
Proof.
  unfold _getDifference, changed.
  rewrite (difference_fold
             (λ key, bool_decide (to_String (get a key) ≠ to_String (get b key)))
             (get a)); [done|apply ATTRIBUTES_NoDup|].
  intros k _. apply not_elem_of_nil.
Qed.

Lemma changed_attributes (a b : object) (k : jsstring) :
  k ∈ changed a b → k ∈ ATTRIBUTES.
Proof.
  unfold changed. rewrite !list_elem_of_In. intros Hk.
  by apply List.filter_In in Hk as [? _].
Qed.

Lemma changed_NoDup (a b : object) : NoDup (changed a b).
Proof.
  unfold changed. apply NoDup_ListNoDup, List.NoDup_filter, NoDup_ListNoDup, ATTRIBUTES_NoDup.
Qed.

Lemma buildSql_chunk_attribute (k : jsstring) (v : prim) :
  k ∈ ATTRIBUTES → _buildSql_chunk k v = [attribute_clause k v].
Proof.
  unfold ATTRIBUTES. intros Hk.
  repeat (apply elem_of_cons in Hk as [->|Hk]);
    [destruct (truthy v) eqn:Hv; unfold _buildSql_chunk, attribute_clause;
       rewrite ?Hv; reflexivity..|].
  by apply elem_of_nil in Hk.
Qed.

End sequence_facts.

Section sequence_alter.

Variables (properties observed : object) (force : prim).

Lemma get_of_fmap (g : jsstring → prim) (ks : list jsstring) (k : jsstring) :
  get ((λ k, (k, g k)) <$> ks) k = if bool_decide (k ∈ ks) then g k else Undefined.
Proof.
  unfold get. induction ks as [|k0 ks IH]; [done|].
  rewrite fmap_cons. destruct (decide (k0 = k)) as [->|Hne].
  - rewrite lookup_cons_eq. rewrite bool_decide_eq_true_2; [done|by left].
  - rewrite lookup_cons_ne, IH by done.
    apply (f_equal (λ b : bool, if b then g k else Undefined)).
    apply bool_decide_ext. rewrite elem_of_cons. split; [by right|].
    intros [?|?]; [congruence|done].
Qed.

Lemma keys_of_changed (ks : list jsstring) :
  keys ((λ k, (k, get properties k)) <$> ks) = ks.
Proof.
  unfold keys. induction ks as [|k ks IH]; [done|].
  rewrite !fmap_cons. simpl. by rewrite IH.
Qed.

(** What [_buildSql] makes of [{ action: 'alter', ...diff }] when [diff] holds
    changed attributes and possibly [current]. *)
Lemma buildSql_alter (ks : list jsstring) (current : list prim) :
  NoDup ks → (∀ k, k ∈ ks → k ∈ ATTRIBUTES) → (length current ≤ 1)%nat →
  _buildSql properties
    (spread [(str "action", Str (str "alter"))]
       (((λ k, (k, get properties k)) <$> ks) ++ ((λ v, (str "current", v)) <$> current)))
  = let chunks :=
      ((λ k, attribute_clause k (get properties k)) <$> ks)
        ++ (current ≫= (λ v, if isExist v then [str "restart with " ++ to_String v] else [])) in
    if bool_decide (chunks = []) then None
    else Some [ create (str "alter sequence")
                  (join (str " ") ((str "alter sequence " ++ _fullName properties) :: chunks)
                   ++ str ";") ].
Proof.
  intros Hnd Hattr Hcur.
  set (diff := ((λ k, (k, get properties k)) <$> ks) ++ ((λ v, (str "current", v)) <$> current)).
  assert (Hkeys : keys diff = ks ++ ((λ _, str "current") <$> current)).
  { unfold diff, keys. rewrite fmap_app. f_equal; [apply keys_of_changed|].
    clear. induction current as [|v vs IH]; [done|].
    rewrite !fmap_cons. simpl. by rewrite IH. }
  assert (Hnocur : str "current" ∉ ATTRIBUTES) by (apply (bool_decide_unpack _); by vm_compute).
  assert (Hnoact : str "action" ∉ ATTRIBUTES) by (apply (bool_decide_unpack _); by vm_compute).
  assert (Hact : str "action" ∉ keys diff).
  { rewrite Hkeys, elem_of_app. intros [Hin|Hin]; [by apply Hnoact, Hattr|].
    apply list_elem_of_fmap in Hin as (? & Hin & _). by vm_compute in Hin. }
  assert (Hnd' : NoDup (keys diff)).
  { rewrite Hkeys. apply NoDup_app. split_and!; [done| |].
    - intros k Hk Hk'. apply list_elem_of_fmap in Hk' as (? & -> & _).
      by apply Hnocur, Hattr.
    - destruct current as [|v [|]]; simpl in *; [apply NoDup_nil_2|apply NoDup_singleton|lia]. }
  unfold spread. rewrite set_all_absent; [|done|].
  2:{ intros k Hk Hk'. simpl in Hk'. apply list_elem_of_singleton in Hk' as ->. done. }
  unfold _buildSql.
  assert (get ([(str "action", Str (str "alter"))] ++ diff) (str "action") = Str (str "alter")) as ->.
  { reflexivity. }
  assert (without (str "action") ([(str "action", Str (str "alter"))] ++ diff) = diff) as ->.
  { change ([(str "action", Str (str "alter"))] ++ diff)
      with ((str "action", Str (str "alter")) :: diff).
    rewrite without_cons_eq. by apply without_absent. }
  match goal with
  | |- context [bool_decide (?chunks = [])] =>
      assert (chunks
              = ((λ k, attribute_clause k (get properties k)) <$> ks)
                  ++ (current ≫= (λ v, if isExist v
                                       then [str "restart with " ++ to_String v]
                                       else []))) as ->
  end.
  { unfold diff. rewrite bind_app. f_equal.
    - clear -Hattr. induction ks as [|k ks IH]; [done|].
      rewrite fmap_cons, bind_cons, fmap_cons. simpl.
      rewrite buildSql_chunk_attribute by (apply Hattr; by left). simpl. f_equal.
      apply IH. intros k' Hk'. apply Hattr. by right.
    - clear. induction current as [|v vs IH]; [done|].
      rewrite fmap_cons, !bind_cons, IH. f_equal. }
  reflexivity.
Qed.

End sequence_alter.

(** C5. For a desired sequence that is present in the snapshot, with force
    unset, the [alter sequence] statement holds exactly one clause per
    attribute among start, min, max, increment, cycle whose desired value
    differs from the observed one as a string (followed only by the
    [restart with] clause when the bounds check asks for it); when only
    [increment] differs and the desired increment is 5 the statement is
    [alter sequence <name> increment 5;]; when no attribute differs nothing
    is emitted. *)
Theorem sequence_alter_minimal
    (properties observed : object) (force : prim)
    (structures : gmap jsstring object) (correct : prim) :
  truthy (_forceCreate properties force) = false →
  structures !! _fullName properties = Some observed →
  _getSqlChanges properties force structures (inr correct)
  = inr (expected_alter (_fullName properties) properties observed correct)
  ∧ (needs_check properties observed = false →
     ∀ check, _getSqlChanges properties force structures check
              = inr (expected_alter (_fullName properties) properties observed correct))
  ∧ (needs_check properties observed = false →
     ∀ statement,
       expected_alter (_fullName properties) properties observed correct
       = Some statement →
       ∃ text,
         statement = [create (str "alter sequence") (text ++ str ";")]
         ∧ text = join (str " ")
                    ((str "alter sequence " ++ _fullName properties)
                       :: ((λ key, attribute_clause key (get properties key))
                             <$> changed properties observed)))
  ∧ (changed properties observed = [] →
     _getSqlChanges properties force structures (inr correct) = inr None)
  ∧ (changed properties observed = [str "increment"] →
     get properties (str "increment") = Num 5 →
     _getSqlChanges properties force structures (inr correct)
     = inr (Some [create (str "alter sequence")
                    (str "alter sequence " ++ _fullName properties
                       ++ str " increment 5;")])).
Proof.
  intros Hforce Hsnap.
  assert (Hcheck : isExist (get (_getDifference properties observed) (str "min"))
                   || isExist (get (_getDifference properties observed) (str "max"))
                   = needs_check properties observed).
  { rewrite getDifference_changed, !get_of_fmap. unfold needs_check.
    by repeat case_bool_decide. }
  assert (Hplain : _buildSql properties
                     (spread [(str "action", Str (str "alter"))]
                        (_getDifference properties observed))
                   = if bool_decide (changed properties observed = []) then None
                     else Some [create (str "alter sequence")
                                  (join (str " ")
                                     ((str "alter sequence " ++ _fullName properties)
                                        :: ((λ key, attribute_clause key (get properties key))
                                              <$> changed properties observed))
                                   ++ str ";")]).
  { rewrite getDifference_changed.
    pose proof (buildSql_alter properties (changed properties observed) []
                  (changed_NoDup _ _) (changed_attributes _ _)) as Hb.
    simpl in Hb. rewrite !app_nil_r in Hb. rewrite Hb by lia.
    destruct (changed properties observed); [done|].
    by rewrite !bool_decide_eq_false_2. }
  assert (Hrestart : _buildSql properties
                       (spread [(str "action", Str (str "alter"))]
                          (set (str "current") (get properties (str "min"))
                             (_getDifference properties observed)))
                     = if bool_decide (changed properties observed = []) then
                         (if isExist (get properties (str "min")) then
                            Some [create (str "alter sequence")
                                    (join (str " ")
                                       [str "alter sequence " ++ _fullName properties;
                                        str "restart with "
                                          ++ to_String (get properties (str "min"))]
                                     ++ str ";")]
                          else None)
                       else Some [create (str "alter sequence")
                                    (join (str " ")
                                       ((str "alter sequence " ++ _fullName properties)
                                          :: ((λ key, attribute_clause key (get properties key))
                                                <$> changed properties observed)
                                          ++ (if isExist (get properties (str "min"))
                                              then [str "restart with "
                                                      ++ to_String (get properties (str "min"))]
                                              else []))
                                     ++ str ";")]).
  { rewrite getDifference_changed. rewrite set_absent.
    - pose proof (buildSql_alter properties (changed properties observed)
                    [get properties (str "min")]
                    (changed_NoDup _ _) (changed_attributes _ _)) as Hb.
      simpl in Hb. rewrite Hb by lia. rewrite app_nil_r.
      destruct (changed properties observed); simpl.
      + by destruct (isExist (get properties (str "min"))).
      + by rewrite ?bool_decide_eq_false_2.
    - rewrite keys_of_changed. intros Hin%changed_attributes.
      revert Hin. apply (bool_decide_unpack _). by vm_compute. }
  assert (Hmain : ∀ check,
            (needs_check properties observed = true → check = inr correct) →
            _getSqlChanges properties force structures check
            = inr (expected_alter (_fullName properties) properties observed correct)).
  { intros check Hchk. unfold _getSqlChanges. rewrite Hforce, Hsnap, Hcheck.
    unfold expected_alter, restart_clause.
    destruct (needs_check properties observed) eqn:Hneed.
    - rewrite Hchk by done. simpl.
      destruct (truthy correct); simpl.
      + rewrite Hplain. by rewrite app_nil_r.
      + rewrite Hrestart. case_bool_decide as Hnil; [|done].
        exfalso. unfold needs_check in Hneed. rewrite Hnil in Hneed.
        by rewrite !bool_decide_eq_false_2 in Hneed by apply not_elem_of_nil.
    - simpl. rewrite Hplain. by rewrite app_nil_r. }
  split_and!.
  - by apply Hmain.
  - intros Hneed check. apply Hmain. by rewrite Hneed.
  - intros Hneed statement. unfold expected_alter, restart_clause.
    rewrite Hneed. simpl. rewrite app_nil_r.
    case_bool_decide; [done|]. intros [= <-]. by eexists.
  - intros Hnil. rewrite Hmain by done. unfold expected_alter. by rewrite Hnil.
  - intros Hinc Hfive. rewrite Hmain by done.
    unfold expected_alter, restart_clause, needs_check. rewrite Hinc.
    rewrite (bool_decide_eq_false_2 ([str "increment"] = [])) by done.
    rewrite (bool_decide_eq_false_2 (str "min" ∈ [str "increment"]))
      by (apply (bool_decide_unpack _); by vm_compute).
    rewrite (bool_decide_eq_false_2 (str "max" ∈ [str "increment"]))
      by (apply (bool_decide_unpack _); by vm_compute).
    cbn [andb orb].
    change ((λ key, attribute_clause key (get properties key)) <$> [str "increment"])
      with [attribute_clause (str "increment") (get properties (str "increment"))].
    rewrite Hfive.
    change (attribute_clause (str "increment") (Num 5)) with (str "increment 5").
    cbn [join app]. rewrite <- !app_assoc. reflexivity.
Qed.

(** * Regular expressions: the matcher against the language *)

Section regex_facts.

Implicit Types (r : re) (s : jsstring) (c : N).

Lemma lang_eps_inv s : lang Eps s → s = [].
Proof. by inversion 1. Qed.

Lemma lang_cls_inv p s : lang (Cls p) s → ∃ c, s = [c] ∧ p c = true.
Proof. inversion 1; subst. by eexists. Qed.

Lemma lang_cat_inv r1 r2 s :
  lang (Cat r1 r2) s → ∃ s1 s2, s = s1 ++ s2 ∧ lang r1 s1 ∧ lang r2 s2.
Proof. inversion 1; subst. by do 2 eexists. Qed.

Lemma lang_alt_inv r1 r2 s : lang (Alt r1 r2) s → lang r1 s ∨ lang r2 s.
Proof. inversion 1; subst; tauto. Qed.

Lemma lang_void_inv s : ¬ lang Void s.
Proof. inversion 1. Qed.

(** A non-empty word of a star starts with a non-empty word of its body. *)
Lemma lang_star_cons_inv r c s :
  lang (Star r) (c :: s) →
  ∃ s1 s2, s = s1 ++ s2 ∧ lang r (c :: s1) ∧ lang (Star r) s2.
Proof.
  intros H. remember (Star r) as r' eqn:Hr. remember (c :: s) as w eqn:Hw.
  revert s Hw. induction H as [| | | | | |r0 s1 s2 H1 _ H2 IH2]; intros t Hw; try done.
  injection Hr as ->. destruct s1 as [|c1 s1].
  - simpl in Hw. by apply IH2.
  - simpl in Hw. injection Hw as -> <-. by exists s1, s2.
Qed.

Lemma nullable_lang r : nullable r = true ↔ lang r [].
Proof.
  induction r as [| |p|r1 IH1 r2 IH2|r1 IH1 r2 IH2|r IH]; simpl.
  - split; [done|]. by intros ?%lang_void_inv.
  - split; [constructor|done].
  - split; [done|]. by intros (c & ? & _)%lang_cls_inv.
  - rewrite andb_true_iff, IH1, IH2. split.
    + intros [H1 H2]. by apply (lang_cat r1 r2 [] []).
    + intros (s1 & s2 & Hs & H1 & H2)%lang_cat_inv.
      symmetry in Hs. apply app_eq_nil in Hs as [-> ->]. done.
  - rewrite orb_true_iff, IH1, IH2. split.
    + intros [?|?]; [by apply lang_alt_l|by apply lang_alt_r].
    + apply lang_alt_inv.
  - split; [constructor|done].
Qed.

Lemma deriv_lang r c s : lang (deriv c r) s ↔ lang r (c :: s).
Proof.
  revert s. induction r as [| |p|r1 IH1 r2 IH2|r1 IH1 r2 IH2|r IH]; intros s; simpl.
  - split; by intros ?%lang_void_inv.
  - split; [by intros ?%lang_void_inv|by intros ?%lang_eps_inv].
  - destruct (p c) eqn:Hp; split.
    + intros ->%lang_eps_inv. by constructor.
    + intros (c' & [= <- ->] & _)%lang_cls_inv. constructor.
    + by intros ?%lang_void_inv.
    + intros (c' & [= <- ->] & ?)%lang_cls_inv. congruence.
  - assert (Hcat : lang (Cat (deriv c r1) r2) s → lang (Cat r1 r2) (c :: s)).
    { intros (s1 & s2 & -> & H1 & H2)%lang_cat_inv.
      apply IH1 in H1. by apply (lang_cat r1 r2 (c :: s1) s2). }
    assert (Hinv : lang (Cat r1 r2) (c :: s) →
                   lang (Cat (deriv c r1) r2) s ∨ (lang r1 [] ∧ lang (deriv c r2) s)).
    { intros (s1 & s2 & Hs & H1 & H2)%lang_cat_inv. destruct s1 as [|c1 s1].
      - simpl in Hs. subst s2. right. split; [done|]. by apply IH2.
      - simpl in Hs. injection Hs as <- ->. left.
        apply lang_cat; [by apply IH1|done]. }
    destruct (nullable r1) eqn:Hn; split.
    + intros [H|H]%lang_alt_inv; [by apply Hcat|].
      apply IH2 in H. apply nullable_lang in Hn. by apply (lang_cat r1 r2 [] (c :: s)).
    + intros [H|[_ H]]%Hinv; [by apply lang_alt_l|by apply lang_alt_r].
    + apply Hcat.
    + intros [H|[H _]]%Hinv; [done|]. apply nullable_lang in H. congruence.
  - split.
    + intros [H|H]%lang_alt_inv; [apply lang_alt_l, IH1|apply lang_alt_r, IH2]; done.
    + intros [H|H]%lang_alt_inv; [apply lang_alt_l, IH1|apply lang_alt_r, IH2]; done.
  - split.
    + intros (s1 & s2 & -> & H1 & H2)%lang_cat_inv.
      apply IH in H1. by apply (lang_star_cons r (c :: s1) s2).
    + intros (s1 & s2 & -> & H1 & H2)%lang_star_cons_inv.
      apply lang_cat; [by apply IH|done].
Qed.

(** The matcher decides the language. *)
Lemma matches_lang r s : matches r s = true ↔ lang r s.
Proof.
  revert r. induction s as [|c s IH]; intros r; simpl.
  - apply nullable_lang.
  - rewrite IH. apply deriv_lang.
Qed.

Lemma lang_Lit (lit s : jsstring) : lang (Lit lit) s ↔ s = lit.
Proof.
  revert s. induction lit as [|c lit IH]; intros s; simpl.
  - split; [apply lang_eps_inv|intros ->; constructor].
  - split.
    + intros (s1 & s2 & -> & H1 & H2)%lang_cat_inv.
      apply lang_cls_inv in H1 as (c' & -> & Hc). apply N.eqb_eq in Hc as ->.
      apply IH in H2 as ->. done.
    + intros ->. apply (lang_cat _ _ [c] lit); [|by apply IH].
      constructor. apply N.eqb_refl.
Qed.

Lemma lang_star_cls (p : N → bool) s : lang (Star (Cls p)) s ↔ Forall (λ c, p c = true) s.
Proof.
  split.
  - induction s as [|c s IH]; [constructor|].
    intros (s1 & s2 & -> & H1 & H2)%lang_star_cons_inv.
    apply lang_cls_inv in H1 as (c' & [= <- ->] & Hc). constructor; [done|].
    by apply IH.
  - induction 1 as [|c s Hc _ IH]; [constructor|].
    apply (lang_star_cons _ [c] s); [by constructor|done].
Qed.

(** The last character of a word is one the expression can end with. *)
Lemma lang_can_end r s c : lang r (s ++ [c]) → can_end r c = true.
Proof.
  intros H. remember (s ++ [c]) as w eqn:Hw. revert s Hw.
  induction H as [|p c0 Hp|r1 r2 s1 s2 H1 IH1 H2 IH2|r1 r2 s0 H0 IH0|r1 r2 s0 H0 IH0
                 | |r0 s1 s2 H1 IH1 H2 IH2]; intros t Hw; simpl.
  - by destruct t.
  - destruct t as [|? [|]]; try done. by injection Hw as ->.
  - destruct (decide (s2 = [])) as [->|Hne].
    + rewrite app_nil_r in Hw. subst s1.
      rewrite (IH1 t eq_refl). apply nullable_lang in H2. rewrite H2.
      by rewrite orb_true_r.
    + destruct (exists_last Hne) as (s2' & c2 & ->).
      rewrite app_assoc in Hw. apply app_inj_tail in Hw as [_ ->].
      by rewrite (IH2 s2' eq_refl).
  - by rewrite (IH0 t Hw).
  - rewrite (IH0 t Hw). by rewrite orb_true_r.
  - by destruct t.
  - destruct (decide (s2 = [])) as [->|Hne].
    + rewrite app_nil_r in Hw. by apply (IH1 t).
    + destruct (exists_last Hne) as (s2' & c2 & ->).
      rewrite app_assoc in Hw. apply app_inj_tail in Hw as [_ ->].
      by apply (IH2 s2').
Qed.

End regex_facts.

(** * Searching with a pattern *)

Section exec_facts.

Implicit Types (p : pattern) (s m rest pre suf : jsstring).

Lemma match_end_Some p m rest m' rest' :
  match_end p m rest = Some (m', rest') →
  ∃ ext, m' = m ++ ext ∧ rest = ext ++ rest'
         ∧ matches (body p) m' = true ∧ ahead p rest' = true.
Proof.
  revert m. induction rest as [|c rest IH]; intros m; simpl.
  - destruct (matches (body p) m && ahead p []) eqn:Hok; [|done].
    intros [= <- <-]. apply andb_true_iff in Hok as [? ?].
    exists []. by rewrite app_nil_r.
  - destruct (match_end p (m ++ [c]) rest) as [[m1 rest1]|] eqn:Hlong.
    + intros [= <- <-]. apply IH in Hlong as (ext & Hm1 & Hr & ? & ?).
      exists (c :: ext). split_and!; try done.
      * by rewrite Hm1, <- app_assoc.
      * by rewrite Hr.
    + destruct (matches (body p) m && ahead p (c :: rest)) eqn:Hok; [|done].
      intros [= <- <-]. apply andb_true_iff in Hok as [? ?].
      exists []. by rewrite app_nil_r.
Qed.

Lemma match_end_None p m rest :
  match_end p m rest = None →
  ∀ ext rest', rest = ext ++ rest' → matches (body p) (m ++ ext) && ahead p rest' = false.
Proof.
  revert m. induction rest as [|c rest IH]; intros m; simpl.
  - destruct (matches (body p) m && ahead p []) eqn:Hok; [done|].
    intros _ ext rest' Hs. symmetry in Hs. apply app_eq_nil in Hs as [-> ->].
    by rewrite app_nil_r.
  - destruct (match_end p (m ++ [c]) rest) as [[m1 rest1]|] eqn:Hlong; [done|].
    destruct (matches (body p) m && ahead p (c :: rest)) eqn:Hok; [done|].
    intros _ ext rest' Hs. destruct ext as [|c' ext].
    + simpl in Hs. subst rest'. by rewrite app_nil_r.
    + simpl in Hs. injection Hs as <- ->.
      specialize (IH _ Hlong ext rest' eq_refl). by rewrite <- app_assoc in IH.
Qed.

Lemma exec_from_Some p pre suf pre' m rest :
  exec_from p pre suf = Some (pre', m, rest) →
  ∃ skipped,
    pre' = pre ++ skipped ∧ suf = skipped ++ m ++ rest
    ∧ behind p pre' = true ∧ matches (body p) m = true ∧ ahead p rest = true
    ∧ ∀ s1 ext rest1,
        suf = s1 ++ ext ++ rest1 → (length s1 < length skipped)%nat →
        behind p (pre ++ s1) && (matches (body p) ext && ahead p rest1) = false.
Proof.
  revert pre. induction suf as [|c suf IH]; intros pre;
    cbn [exec_from];
    destruct (if behind p pre then match_end p [] _ else None)
      as [[m1 r1]|] eqn:Hhere; try done.
  - intros [= <- <- <-]. destruct (behind p pre) eqn:Hb; [|done].
    apply match_end_Some in Hhere as (ext & -> & Hs & ? & ?).
    exists []. rewrite app_nil_r. split_and!; try done.
    intros ? ? ? _ Hlen. simpl in Hlen. lia.
  - intros [= <- <- <-]. destruct (behind p pre) eqn:Hb; [|done].
    apply match_end_Some in Hhere as (ext & -> & Hs & ? & ?).
    exists []. rewrite app_nil_r. split_and!; try done.
    intros ? ? ? _ Hlen. simpl in Hlen. lia.
  - intros Hex. apply IH in Hex as (sk & Hpre & Hsuf & Hb & Hm & Ha & Hmin).
    exists (c :: sk). split_and!; try done.
    + by rewrite Hpre, <- app_assoc.
    + by rewrite Hsuf.
    + intros s1 ext rest1 Hs Hlen. destruct s1 as [|c1 s1].
      * rewrite app_nil_r. destruct (behind p pre); [|done]. simpl.
        by apply (match_end_None p [] _ Hhere ext rest1).
      * simpl in Hs. injection Hs as <- Hs.
        specialize (Hmin s1 ext rest1 Hs). rewrite <- app_assoc in Hmin.
        apply Hmin. simpl in Hlen. lia.
Qed.

Lemma exec_from_None p pre suf :
  exec_from p pre suf = None →
  ∀ s1 ext rest1,
    suf = s1 ++ ext ++ rest1 →
    behind p (pre ++ s1) && (matches (body p) ext && ahead p rest1) = false.
Proof.
  revert pre. induction suf as [|c suf IH]; intros pre;
    cbn [exec_from];
    destruct (if behind p pre then match_end p [] _ else None)
      as [[m1 r1]|] eqn:Hhere; try done.
  - intros _ s1 ext rest1 Hs. symmetry in Hs.
    apply app_eq_nil in Hs as [-> Hs]. rewrite app_nil_r.
    destruct (behind p pre); [|done]. simpl.
    by apply (match_end_None p [] _ Hhere ext rest1).
  - intros Hex s1 ext rest1 Hs. destruct s1 as [|c1 s1].
    + rewrite app_nil_r. destruct (behind p pre); [|done]. simpl.
      by apply (match_end_None p [] _ Hhere ext rest1).
    + simpl in Hs. injection Hs as <- Hs.
      specialize (IH _ Hex s1 ext rest1 Hs). by rewrite <- app_assoc in IH.
Qed.

End exec_facts.

Lemma exec_first (p : pattern) (s : jsstring) :
  match exec p s with
  | Some (pre, m, rest) =>
      s = pre ++ m ++ rest
      ∧ behind p pre = true ∧ matches (body p) m = true ∧ ahead p rest = true
      ∧ ∀ s1 ext rest1,
          s = s1 ++ ext ++ rest1 →
          behind p s1 && (matches (body p) ext && ahead p rest1) = true →
          (length pre ≤ length s1)%nat
  | None =>
      ∀ s1 ext rest1,
        s = s1 ++ ext ++ rest1 →
        behind p s1 && (matches (body p) ext && ahead p rest1) = false
  end.
Proof.
  unfold exec. destruct (exec_from p [] s) as [[[pre m] rest]|] eqn:Hex.
  - apply exec_from_Some in Hex as (sk & -> & -> & Hb & Hm & Ha & Hmin).
    simpl in *. split_and!; try done.
    intros s1 ext rest1 Hs Hok.
    destruct (decide (length s1 < length sk)%nat) as [Hlt|]; [|lia].
    rewrite (Hmin s1 ext rest1 Hs Hlt) in Hok. done.
  - apply (exec_from_None p [] s Hex).
Qed.

(** * [defaultValueInformationSchema] *)

Section default_value_facts.

Lemma ahead_no_dot (post : jsstring) :
  ahead nextvalWithoutSchema post = true ↔ dot ∉ post.
Proof.
  unfold nextvalWithoutSchema. simpl. rewrite matches_lang, lang_star_cls.
  rewrite Forall_forall. split.
  - intros Hall Hin. specialize (Hall _ Hin). by rewrite N.eqb_refl in Hall.
  - intros Hnot c Hc. apply negb_true_iff, N.eqb_neq. by intros ->.
Qed.

Lemma same_length_split (s1 s2 t1 t2 : jsstring) :
  s1 ++ s2 = t1 ++ t2 → length s1 = length t1 → s1 = t1 ∧ s2 = t2.
Proof. intros Hs Hl. by apply app_inj_1. Qed.

(** The first step: [public.] goes right after the first [nextval('] that no
    dot follows, and nowhere else. *)
Lemma schema_inserted (value : jsstring) :
  (∀ pre post,
      unqualified_at value pre post →
      (∀ pre' post', unqualified_at value pre' post' → (length pre ≤ length pre')%nat) →
      replace nextvalWithoutSchema (str "public.") value = pre ++ str "public." ++ post)
  ∧ ((∀ pre post, ¬ unqualified_at value pre post) →
     replace nextvalWithoutSchema (str "public.") value = value).
Proof.
  unfold replace. pose proof (exec_first nextvalWithoutSchema value) as Hex.
  destruct (exec nextvalWithoutSchema value) as [[[pre0 m] rest]|].
  - destruct Hex as (Hs & Hb & Hm & Ha & Hmin).
    apply matches_lang, lang_eps_inv in Hm as ->. simpl in Hs.
    assert (unqualified_at value pre0 rest) as Hu0.
    { split_and!; [done..|]. by apply ahead_no_dot. }
    split.
    + intros pre post (Hv & Hpre & Hpost) Hfirst.
      assert (length pre0 ≤ length pre)%nat as Hle.
      { apply (Hmin pre [] post); [done|].
        change (behind nextvalWithoutSchema pre) with (ends_with (str "nextval('") pre).
        rewrite Hpre. simpl. by apply ahead_no_dot. }
      specialize (Hfirst _ _ Hu0).
      destruct (same_length_split pre post pre0 rest) as [-> ->];
        [by rewrite <- Hv|lia|done].
    + intros Hnone. by destruct (Hnone _ _ Hu0).
  - split; [|done].
    intros pre post (Hv & Hpre & Hpost) _. exfalso.
    specialize (Hex pre [] post Hv).
    change (behind nextvalWithoutSchema pre) with (ends_with (str "nextval('") pre) in Hex.
    apply ahead_no_dot in Hpost. rewrite Hpre, Hpost in Hex. done.
Qed.

(** The second step: the shortest remainder that leaves a cast at the very
    end is kept; without such a cast the text stays. *)
Lemma cast_stripped (value : jsstring) :
  match match0 trailingCast value with
  | Some _ =>
      ∃ keep cast, cast_at value keep cast
                   ∧ (∀ keep' cast', cast_at value keep' cast' →
                                     (length keep ≤ length keep')%nat)
                   ∧ replace trailingCast [] value = keep
  | None => ∀ keep cast, ¬ cast_at value keep cast
  end.
Proof.
  unfold match0, replace. pose proof (exec_first trailingCast value) as Hex.
  destruct (exec trailingCast value) as [[[pre0 m] rest]|].
  - destruct Hex as (Hs & _ & Hm & Ha & Hmin).
    apply bool_decide_eq_true in Ha as ->. rewrite app_nil_r in Hs.
    apply matches_lang in Hm. exists pre0, m.
    split_and!; [done| |by rewrite !app_nil_r].
    intros keep' cast' [Hv Hc]. apply (Hmin keep' cast' []).
    + by rewrite app_nil_r.
    + apply matches_lang in Hc. simpl. by rewrite Hc.
  - intros keep cast [Hv Hc]. specialize (Hex keep cast []).
    rewrite app_nil_r in Hex. specialize (Hex Hv).
    apply matches_lang in Hc. simpl in Hex. by rewrite Hc in Hex.
Qed.

End default_value_facts.

(** What the two patterns do.  For every string default expression,
    [defaultValueInformationSchema] inserts [public.] right after the first
    [nextval('] that is followed by no dot up to the end of the expression
    (and leaves the text alone when there is none), and then strips a trailing
    [::typename] cast with up to two array-bracket suffixes only when it ends
    the whole expression: a text whose last character cannot end a cast, such
    as a closing parenthesis, is left untouched. It maps
    [nextval('seq'::regclass)] to [nextval('public.seq'::regclass)]. *)
Lemma default_value_schema_and_cast (object : Type) (value : jsstring) :
  let inserted := replace nextvalWithoutSchema (str "public.") value in
  (∀ pre post,
      unqualified_at value pre post →
      (∀ pre' post', unqualified_at value pre' post' → (length pre ≤ length pre')%nat) →
      inserted = pre ++ str "public." ++ post)
  ∧ ((∀ pre post, ¬ unqualified_at value pre post) → inserted = value)
  ∧ (∀ keep cast,
        cast_at inserted keep cast →
        (∀ keep' cast', cast_at inserted keep' cast' → (length keep ≤ length keep')%nat) →
        @defaultValueInformationSchema object (Prim (Str value)) = Prim (Str keep))
  ∧ ((∀ keep cast, ¬ cast_at inserted keep cast) →
     @defaultValueInformationSchema object (Prim (Str value)) = Prim (Str inserted))
  ∧ (∀ init c,
        inserted = init ++ [c] → can_end cast_re c = false →
        @defaultValueInformationSchema object (Prim (Str value)) = Prim (Str inserted))
  ∧ can_end cast_re 41 = false
  ∧ @defaultValueInformationSchema object (Prim (Str (str "nextval('seq'::regclass)")))
    = Prim (Str (str "nextval('public.seq'::regclass)")).
Proof.
  intros inserted.
  assert (Hnone : (∀ keep cast, ¬ cast_at inserted keep cast) →
                  @defaultValueInformationSchema object (Prim (Str value))
                  = Prim (Str inserted)).
  { intros Hno. unfold defaultValueInformationSchema. fold inserted.
    pose proof (cast_stripped inserted) as Hc.
    destruct (match0 trailingCast inserted); [|done].
    destruct Hc as (keep & cast & Hat & _). by destruct (Hno _ _ Hat). }
  split_and!.
  - apply schema_inserted.
  - apply schema_inserted.
  - intros keep cast Hat Hfirst. unfold defaultValueInformationSchema. fold inserted.
    pose proof (cast_stripped inserted) as Hc.
    destruct (match0 trailingCast inserted).
    + destruct Hc as (keep0 & cast0 & Hat0 & Hfirst0 & ->).
      specialize (Hfirst _ _ Hat0). specialize (Hfirst0 _ _ Hat).
      destruct Hat as [Hv _], Hat0 as [Hv0 _].
      destruct (same_length_split keep cast keep0 cast0) as [-> _];
        [by rewrite <- Hv|lia|done].
    + by destruct (Hc _ _ Hat).
  - exact Hnone.
  - intros init c Hlast Hend. apply Hnone. intros keep cast [Hv Hc].
    destruct (decide (cast = [])) as [->|Hne].
    + apply nullable_lang in Hc. by vm_compute in Hc.
    + destruct (exists_last Hne) as (cast' & c' & ->).
      rewrite Hlast, app_assoc in Hv. apply app_inj_tail in Hv as [_ ->].
      apply lang_can_end in Hc. congruence.
  - by vm_compute.
  - by vm_compute.
Qed.

(** C6. [defaultValueInformationSchema] should insert the schema [public.]
    into a [nextval('...')] name that has no schema qualifier; the comment at
    the replacement says so ("adding the public scheme in case of its
    absence").  The look-ahead of the pattern, [(?=[^.]*$)], tests the whole
    rest of the expression and not the name: in
    [(nextval('seq'::regclass) * 1.5)] the name [seq] has no qualifier, a dot
    occurs later, and the expression comes back unchanged, without the
    schema.  The same name alone, [nextval('seq'::regclass)], does get it. *)
Theorem unqualified_nextval_left_alone :
  let value := str "(nextval('seq'::regclass) * 1.5)" in
  value = str "(nextval('" ++ str "seq" ++ str "'::regclass) * 1.5)"
  ∧ (dot ∉ str "seq")
  ∧ @defaultValueInformationSchema unit (Prim (Str value)) = Prim (Str value)
  ∧ @defaultValueInformationSchema unit (Prim (Str value))
    ≠ Prim (Str (str "(nextval('public.seq'::regclass) * 1.5)"))
  ∧ @defaultValueInformationSchema unit (Prim (Str (str "nextval('seq'::regclass)")))
    = Prim (Str (str "nextval('public.seq'::regclass)"))
  ∧ @defaultValueInformationSchema unit (Prim (Str (str "(nextval('seq'::regclass) * 2)")))
    = Prim (Str (str "(nextval('public.seq'::regclass) * 2)")).
Proof.
  split_and!; try (by vm_compute).
  apply (bool_decide_unpack _). by vm_compute.
Qed.

(** * [encodeValue] and [decodeValue] *)

Section codec_facts.

Lemma ends_with_app (suffix pre : jsstring) : ends_with suffix (pre ++ suffix) = true.
Proof.
  unfold ends_with. apply bool_decide_eq_true.
  rewrite length_app, Nat.add_sub. by rewrite drop_app_length.
Qed.

Lemma rawSuffix_none (s : jsstring) :
  ends_with (str "::sql") s = false → match0 rawSuffix s = None.
Proof.
  intros Hends. unfold match0. pose proof (exec_first rawSuffix s) as Hex.
  destruct (exec rawSuffix s) as [[[pre m] rest]|]; [|done].
  destruct Hex as (Hs & _ & Hm & Ha & _).
  apply bool_decide_eq_true in Ha as ->. rewrite app_nil_r in Hs.
  apply matches_lang, lang_Lit in Hm as ->.
  subst s. by rewrite ends_with_app in Hends.
Qed.

Lemma doubled_plain (s : jsstring) :
  apostrophe ∉ s → backslash ∉ s → s ≫= doubled = s.
Proof.
  induction s as [|c s IH]; [done|].
  intros [Hq Hqs]%not_elem_of_cons [Hb Hbs]%not_elem_of_cons.
  rewrite bind_cons, IH by done. unfold doubled.
  rewrite bool_decide_eq_false_2; [done|]. intros [?|?]; congruence.
Qed.

Lemma quoteLiteral_plain (s : jsstring) :
  plain s → quoteLiteral s = [apostrophe] ++ s ++ [apostrophe].
Proof.
  intros (Hq & Hb & _). rewrite quoteLiteral_closed_form.
  unfold has_backslash. rewrite bool_decide_eq_false_2 by done.
  by rewrite doubled_plain.
Qed.

Lemma bracketsContent_quoted (s : jsstring) :
  Forall (λ c, is_line_terminator c = false) s →
  match0 bracketsContent ([apostrophe] ++ s ++ [apostrophe]) = Some s.
Proof.
  intros Hs. unfold match0.
  pose proof (exec_first bracketsContent ([apostrophe] ++ s ++ [apostrophe])) as Hex.
  destruct (exec bracketsContent _) as [[[pre m] rest]|].
  - destruct Hex as (Heq & Hb & _ & Ha & _).
    apply bool_decide_eq_true in Hb as ->. apply bool_decide_eq_true in Ha as ->.
    apply app_inv_head in Heq. apply app_inv_tail in Heq. by subst.
  - specialize (Hex [apostrophe] s [apostrophe] eq_refl).
    assert (matches (body bracketsContent) s = true) as Hm.
    { apply matches_lang, lang_star_cls.
      eapply Forall_impl; [exact Hs|]. intros c Hc. simpl. by rewrite Hc. }
    rewrite Hm in Hex. done.
Qed.

Context {object : Type}.
Variable JSON_stringify : object → jsstring.
Variable JSON_parse : jsstring → outcome (jsvalue object).
Variable GROUPS : list (group * list jsstring).

Lemma roundtrip_string (s : jsstring) (type : option jsstring) :
  getTypeGroup GROUPS type ∉ [Some JSON; Some INTEGER; Some BOOLEAN] →
  ends_with (str "::sql") s = false →
  plain s →
  decodeValue JSON_parse GROUPS (encodeValue JSON_stringify (Prim (Str s))) type
  = inr (Prim (Str s)).
Proof.
  intros Hgroup Hraw Hplain. unfold encodeValue.
  rewrite rawSuffix_none by done. rewrite quoteLiteral_plain by done.
  unfold decodeValue. rewrite bracketsContent_quoted by apply Hplain.
  destruct (getTypeGroup GROUPS type) as [[| | |n]|]; try done;
    exfalso; apply Hgroup; set_solver.
Qed.

Lemma roundtrip_object (o : object) (type : option jsstring) :
  getTypeGroup GROUPS type = Some JSON →
  plain (JSON_stringify o) →
  JSON_parse (JSON_stringify o) = inr (Obj o) →
  decodeValue JSON_parse GROUPS (encodeValue JSON_stringify (Obj o)) type
  = inr (Obj o).
Proof.
  intros Hgroup Hplain Hparse. unfold encodeValue.
  rewrite quoteLiteral_plain by done.
  unfold decodeValue. rewrite Hgroup.
  by rewrite bracketsContent_quoted by apply Hplain.
Qed.

End codec_facts.

(** C2, as the code has it. Decoding an encoded value returns the value:
    for every number and every boolean (whatever the type), for a JSON object
    under a type of the JSON group, and for a string under a type of the
    default group, provided the text that gets quoted (the string itself, the
    object's serialisation) holds no single quote, no backslash and no line
    terminator, and the string does not end in the raw-expression suffix. *)
Theorem encode_decode_inverse
    (object : Type) (JSON_stringify : object → jsstring)
    (JSON_parse : jsstring → outcome (jsvalue object))
    (GROUPS : list (group * list jsstring)) :
  (∀ (n : Z) type,
      decodeValue JSON_parse GROUPS (encodeValue JSON_stringify (Prim (Num n))) type
      = inr (Prim (Num n)))
  ∧ (∀ (b : bool) type,
        decodeValue JSON_parse GROUPS (encodeValue JSON_stringify (Prim (Bool b))) type
        = inr (Prim (Bool b)))
  ∧ (∀ (o : object) type,
        getTypeGroup GROUPS type = Some JSON →
        plain (JSON_stringify o) →
        JSON_parse (JSON_stringify o) = inr (Obj o) →
        decodeValue JSON_parse GROUPS (encodeValue JSON_stringify (Obj o)) type
        = inr (Obj o))
  ∧ (∀ (s : jsstring) type,
        getTypeGroup GROUPS type ∉ [Some JSON; Some INTEGER; Some BOOLEAN] →
        ends_with (str "::sql") s = false →
        plain s →
        decodeValue JSON_parse GROUPS (encodeValue JSON_stringify (Prim (Str s))) type
        = inr (Prim (Str s))).
Proof.
  split_and!; [done|done| |].
  - intros o type. apply roundtrip_object.
  - intros s type. apply roundtrip_string.
Qed.

(** * Computations on the connection *)

Section effects_facts.

Context `{Server}.

Lemma run_bind {A B : Type} (c : M A) (k : A → M B) (tr : list event) :
  (c ≫= k) tr
  = match c tr with
    | (tr', inr a) => k a tr'
    | (tr', inl e) => (tr', inl e)
    end.
Proof. reflexivity. Qed.

Lemma app_cons_split {X : Type} (l1 l2 pre post : list X) (x : X) :
  l1 ++ l2 = pre ++ x :: post →
  (∃ post1, l1 = pre ++ x :: post1 ∧ post = post1 ++ l2)
  ∨ (∃ pre2, pre = l1 ++ pre2 ∧ l2 = pre2 ++ x :: post).
Proof.
  intros Heq. apply app_eq_app in Heq as [l [[-> Hl]|[-> Hl]]].
  - destruct l as [|y l].
    + right. exists []. rewrite !app_nil_r. simpl in Hl. by subst.
    + injection Hl as -> ->. left. by exists l.
  - right. by exists l.
Qed.

Lemma failstop_ret {A : Type} (a : A) : failstop (ret a).
Proof.
  intros tr. exists []. split; [simpl; by rewrite app_nil_r|].
  intros pre r post e Hevs. by destruct pre.
Qed.

Lemma failstop_throw {A : Type} (e : exn) : failstop (@throw A e).
Proof.
  intros tr. exists []. split; [simpl; by rewrite app_nil_r|].
  intros pre r post e' Hevs. by destruct pre.
Qed.

Lemma failstop_logged (l : level) (m : message) : failstop (logged l m).
Proof.
  intros tr. exists [Logged l m]. split; [done|].
  intros pre r post e Hevs. by destruct pre as [|? [|]].
Qed.

Lemma failstop_pure {A : Type} (f : list event → outcome A) :
  failstop (λ tr, (tr, f tr)).
Proof.
  intros tr. exists []. split; [simpl; by rewrite app_nil_r|].
  intros pre r post e Hevs. by destruct pre.
Qed.

Lemma failstop_call (r : request) : failstop (call r).
Proof.
  intros tr. exists [Call r]. split; [done|].
  intros pre r' post e Hevs Hfail.
  destruct pre as [|? [|]]; try done. injection Hevs as <- <-.
  rewrite app_nil_r in Hfail. done.
Qed.

Lemma failstop_bind {A B : Type} (c : M A) (k : A → M B) :
  failstop c → (∀ a, failstop (k a)) → failstop (c ≫= k).
Proof.
  intros Hc Hk tr. rewrite run_bind.
  destruct (Hc tr) as (evs1 & Htr1 & Hstop1).
  destruct (c tr) as [tr1 [e1|a]] eqn:Hrun; simpl in *; subst tr1.
  - exists evs1. split; [done|]. intros pre r post e Hevs Hfail.
    destruct (Hstop1 _ _ _ _ Hevs Hfail) as [-> [= ->]]. done.
  - destruct (Hk a (tr ++ evs1)) as (evs2 & Htr2 & Hstop2).
    exists (evs1 ++ evs2). split; [by rewrite Htr2, app_assoc|].
    intros pre r post e Hevs Hfail.
    apply app_cons_split in Hevs as [(post1 & -> & ->)|(pre2 & -> & ->)].
    + by destruct (Hstop1 _ _ _ _ eq_refl Hfail) as [_ ?].
    + rewrite app_assoc in Hfail. by apply (Hstop2 pre2 r post e).
Qed.

Lemma failstop_when (cond : bool) (c : M unit) : failstop c → failstop (when cond c).
Proof. destruct cond; [done|]. intros _. apply failstop_ret. Qed.

Lemma failstop_discard {A : Type} (c : M A) : failstop c → failstop (discard c).
Proof.
  intros Hc. apply (failstop_bind c (λ _, ret tt)); [done|].
  intros _. apply failstop_ret.
Qed.

Lemma failstop_query (sql : jsstring) : failstop (query sql).
Proof. apply failstop_call. Qed.

Lemma failstop_for_each {A B : Type} (f : A → M B) (l : list A) :
  (∀ x, failstop (f x)) → failstop (for_each f l).
Proof.
  intros Hf. induction l as [|x l IH]; simpl; [apply failstop_ret|].
  apply (failstop_bind (f x)); [done|]. intros r.
  apply (failstop_bind (for_each f l)); [done|]. intros rs. apply failstop_ret.
Qed.

End effects_facts.

Section run_facts.

Context `{Server}.

Lemma run_logged (l : level) (m : message) (tr : list event) :
  logged l m tr = (tr ++ [Logged l m], inr tt).
Proof. reflexivity. Qed.

Lemma run_discard_call (r : request) (tr : list event) :
  answered tr r → discard (call r) tr = (tr ++ [Call r], inr tt).
Proof. intros [resp Hr]. unfold discard, call, bind. by rewrite Hr. Qed.

Lemma run_when_calls (cond : bool) (r : request) (tr : list event) :
  (cond = true → answered tr r) →
  when cond (discard (call r)) tr = (tr ++ (if cond then [Call r] else []), inr tt).
Proof.
  destruct cond; simpl; intros Hr.
  - by apply run_discard_call, Hr.
  - unfold ret. by rewrite app_nil_r.
Qed.

Lemma all_answered_nil (tr : list event) : all_answered tr [].
Proof. intros pre r post Hevs. by destruct pre. Qed.

Lemma all_answered_app (tr evs1 evs2 : list event) :
  all_answered tr (evs1 ++ evs2) ↔ all_answered tr evs1 ∧ all_answered (tr ++ evs1) evs2.
Proof.
  split.
  - intros Hall. split.
    + intros pre r post ->. apply (Hall pre r (post ++ evs2)).
      by rewrite <- app_assoc.
    + intros pre r post ->. rewrite <- app_assoc.
      apply (Hall (evs1 ++ pre) r post). by rewrite <- app_assoc.
  - intros [H1 H2] pre r post Hevs.
    apply app_cons_split in Hevs as [(post1 & -> & ->)|(pre2 & -> & ->)].
    + by apply (H1 pre r post1).
    + rewrite app_assoc. by apply (H2 pre2 r post).
Qed.

Lemma all_answered_call (tr : list event) (r : request) :
  all_answered tr [Call r] ↔ answered tr r.
Proof.
  split.
  - intros Hall. specialize (Hall [] r [] eq_refl). by rewrite app_nil_r in Hall.
  - intros Hr pre r' post Hevs. destruct pre as [|? [|]]; try done.
    injection Hevs as <- <-. by rewrite app_nil_r.
Qed.


Lemma all_answered_logged (tr : list event) (l : level) (m : message) :
  all_answered tr [Logged l m].
Proof. intros pre r post Hevs. by destruct pre as [|? [|]]. Qed.

Lemma all_answered_when (tr : list event) (cond : bool) (r : request) :
  all_answered tr (if cond then [Call r] else []) ↔ (cond = true → answered tr r).
Proof.
  destruct cond.
  - rewrite all_answered_call. tauto.
  - split; [done|]. intros _. apply all_answered_nil.
Qed.

End run_facts.

(** * The closure-based Differ: [sync] *)

Section legacy_sync_facts.

Import Legacy.
Context `{Getters}.

Lemma failstop_entitySync (e : entity) (order : option (list jsstring)) (logging : bool) :
  failstop (_entitySync e order logging).
Proof.
  unfold _entitySync. apply failstop_bind; [apply failstop_pure|]. intros result.
  case_bool_decide; [apply failstop_ret|].
  apply failstop_bind; [apply failstop_when, failstop_logged|]. intros _.
  apply failstop_bind; [apply failstop_for_each, failstop_query|]. intros rs.
  apply failstop_bind; [apply failstop_when, failstop_logged|]. intros _.
  apply failstop_ret.
Qed.

Lemma failstop_syncSeeds (v : dbversion) : failstop (syncSeeds v).
Proof.
  unfold syncSeeds. destruct (_supportSeeds v).
  - apply failstop_bind; [apply failstop_entitySync|]. intros [results|].
    + apply failstop_bind; [apply failstop_logged|]. intros _. apply failstop_ret.
    + apply failstop_ret.
  - apply failstop_bind; [apply failstop_logged|]. intros _. apply failstop_ret.
Qed.

Lemma failstop_syncBody (transaction : bool) (v : dbversion) :
  failstop (syncBody transaction v).
Proof.
  unfold syncBody.
  apply failstop_bind; [apply failstop_entitySync|]. intros q1.
  apply failstop_bind; [apply failstop_entitySync|]. intros q2.
  apply failstop_bind; [apply failstop_entitySync|]. intros q3.
  unfold syncRest.
  apply failstop_bind; [apply failstop_syncSeeds|]. intros seeds.
  apply failstop_bind; [apply failstop_entitySync|]. intros q5.
  unfold syncFinish.
  apply failstop_bind; [apply failstop_when, failstop_logged|]. intros _.
  apply failstop_bind; [apply failstop_when, failstop_discard, failstop_query|]. intros _.
  apply failstop_bind; [apply failstop_logged|]. intros _.
  apply failstop_discard, failstop_call.
Qed.

Lemma syncCatch_run (transaction : bool) (error : exn) (tr : list event) :
  all_answered tr (catchEvents transaction) →
  syncCatch transaction error tr = (tr ++ catchEvents transaction, inl error).
Proof.
  unfold catchEvents. rewrite all_answered_app, all_answered_when, all_answered_call.
  intros [Hrollback Hend]. unfold syncCatch.
  rewrite run_bind. unfold query. rewrite run_when_calls by done.
  rewrite run_bind, run_discard_call by done.
  by rewrite <- app_assoc.
Qed.

Lemma sync_prelude_run (options : object) (tr : list event) (resp : response) :
  reply tr (Query (str "select version()")) = inr resp →
  all_answered tr (syncPrelude (transactionOption options) (versionOf resp)) →
  sync options tr
  = try_catch (syncBody (transactionOption options) (versionOf resp))
      (syncCatch (transactionOption options))
      (tr ++ syncPrelude (transactionOption options) (versionOf resp)).
Proof.
  intros Hversion Hall. unfold syncPrelude in *.
  apply all_answered_app in Hall as [_ Hbegin].
  rewrite all_answered_when in Hbegin.
  unfold sync, _getDatabaseVersion.
  rewrite !run_bind. unfold query at 1, call at 1. rewrite Hversion.
  unfold ret at 1. rewrite run_bind, run_logged, run_bind, run_logged.
  rewrite run_bind. unfold query. rewrite <- !app_assoc in *. simpl app in *.
  rewrite run_when_calls by done. by rewrite <- app_assoc.
Qed.

End legacy_sync_facts.

(** * The class-based Differ: [sync] *)

Section differ_sync_facts.

Import Differ.
Context `{Server} `{Preparation}.


Lemma transaction_returns {A : Type} (callback : M A) (enable : bool)
    (tr tr' : list event) (a : A) :
  (enable = true → answered tr (Query (str "begin"))) →
  callback (tr ++ (if enable then [Call (Query (str "begin"))] else [])) = (tr', inr a) →
  (enable = true → answered tr' (Query (str "commit"))) →
  transaction callback enable tr
  = (tr' ++ (if enable then [Call (Query (str "commit"))] else []), inr a).
Proof.
  intros Hbegin Hrun Hcommit. unfold transaction.
  rewrite run_bind. unfold query. rewrite run_when_calls by done.
  unfold try_catch. rewrite run_bind, Hrun, run_bind.
  by rewrite run_when_calls by done.
Qed.


(** [sync] once the body of the [try] block has settled. *)
Lemma sync_settles (suppliedClient : bool) (options : object) (tr tr' : list event)
    (settled : outcome (list jsstring)) :
  (negb suppliedClient = true → answered (tr ++ [Logged Info SyncStarted]) Connect) →
  syncBody (syncOptions options)
    (tr ++ [Logged Info SyncStarted] ++ (if negb suppliedClient then [Call Connect] else []))
  = (tr', settled) →
  (negb suppliedClient = true → answered tr' End) →
  sync suppliedClient options tr
  = match settled with
    | inl error => (tr' ++ (if negb suppliedClient then [Call End] else []), inl error)
    | inr preparedChanges =>
        (tr' ++ (if negb suppliedClient then [Call End] else [])
           ++ [Logged Info SyncSuccessful], inr preparedChanges)
    end.
Proof.
  intros Hconnect Hbody Hend. unfold sync.
  rewrite run_bind, run_logged, run_bind.
  rewrite run_when_calls by done.
  rewrite run_bind. unfold attempt. rewrite <- app_assoc, Hbody.
  rewrite run_bind.
  rewrite run_when_calls by done.
  destruct settled as [error|preparedChanges]; [done|].
  rewrite run_bind, run_logged. unfold ret. by rewrite <- app_assoc.
Qed.

End differ_sync_facts.


(** * Nothing to do *)

Section legacy_quiet_facts.

Import Legacy.
Context `{Getters}.

Lemma entitySync_nothing (e : entity) (order : option (list jsstring)) (logging : bool)
    (tr : list event) (result : list (option Sql)) :
  changes e tr = inr result → concat (omap id result) = [] →
  _entitySync e order logging tr = (tr, inr None).
Proof.
  intros Hchanges Hflat. unfold _entitySync. rewrite run_bind, Hchanges.
  unfold _getFlatAndSortedSqlList. rewrite Hflat.
  by destruct order.
Qed.

Lemma syncFinish_quiet (transaction : bool) (tr : list event) :
  all_answered tr
    ([Logged Info NoUpdateNeeded]
       ++ (if transaction then [Call (Query (str "commit"))] else [])
       ++ [Logged Info SyncSuccessful; Call End]) →
  syncFinish transaction [false; false; false; false] tr
  = (tr ++ [Logged Info NoUpdateNeeded]
       ++ (if transaction then [Call (Query (str "commit"))] else [])
       ++ [Logged Info SyncSuccessful; Call End], inr tt).
Proof.
  rewrite !all_answered_app, all_answered_when.
  change [Logged Info SyncSuccessful; Call End]
    with ([Logged Info SyncSuccessful] ++ [Call End]).
  rewrite all_answered_app, all_answered_call.
  intros (_ & Hcommit & _ & Hend). unfold syncFinish.
  rewrite run_bind. simpl when. rewrite run_logged.
  rewrite run_bind. unfold query. rewrite run_when_calls by done.
  rewrite run_bind, run_logged.
  rewrite run_discard_call by (by rewrite <- !app_assoc in Hend |- *).
  by rewrite <- !app_assoc.
Qed.

Lemma syncBody_quiet (transaction : bool) (v : dbversion) (tr : list event) :
  nothing_changes →
  all_answered tr (quietEvents transaction v) →
  syncBody transaction v tr = (tr ++ quietEvents transaction v, inr tt).
Proof.
  intros Hnone Hall. unfold syncBody.
  assert (He : ∀ e order logging tr', _entitySync e order logging tr' = (tr', inr None)).
  { intros e order logging tr'. destruct (Hnone e tr') as (result & ? & ?).
    by eapply entitySync_nothing. }
  rewrite run_bind, He, run_bind, He, run_bind, He. unfold syncRest. rewrite run_bind.
  unfold quietEvents in *. apply all_answered_app in Hall as [_ Hall].
  unfold syncSeeds. destruct (_supportSeeds v).
  - rewrite run_bind, He. unfold ret at 1. rewrite run_bind, He.
    rewrite app_nil_r in Hall. by rewrite syncFinish_quiet.
  - rewrite run_bind, run_logged. unfold ret at 1. rewrite run_bind, He.
    rewrite syncFinish_quiet by done. by rewrite <- !app_assoc.
Qed.

End legacy_quiet_facts.

Section differ_quiet_facts.

Import Differ.
Context `{Server} `{Preparation}.

Lemma differ_sync_quiet (suppliedClient : bool) (options : object) (tr : list event) :
  all_answered tr (preparePrelude suppliedClient (syncOptions options)
                     ++ nothingToDoEvents suppliedClient (syncOptions options)) →
  _prepare (tr ++ preparePrelude suppliedClient (syncOptions options)) = inr [] →
  sync suppliedClient options tr
  = (tr ++ preparePrelude suppliedClient (syncOptions options)
       ++ nothingToDoEvents suppliedClient (syncOptions options), inr []).
Proof.
  set (t := syncOptions options). intros Hall Hprepare.
  unfold preparePrelude, nothingToDoEvents in *.
  rewrite !all_answered_app, !all_answered_when, all_answered_call in Hall.
  destruct Hall as ((_ & Hconnect & Hpath & Hbegin) & Hcommit & _ & Hend & _).
  set (connected := tr ++ [Logged Info SyncStarted]
                      ++ (if negb suppliedClient then [Call Connect] else [])) in *.
  set (prepared := tr ++ [Logged Info SyncStarted]
                     ++ (if negb suppliedClient then [Call Connect] else [])
                     ++ [Call (Query (str "set search_path to public"))]
                     ++ (if t then [Call (Query (str "begin"))] else [])) in *.
  assert (Hprep : prepared
                  = (connected ++ [Call (Query (str "set search_path to public"))])
                      ++ (if t then [Call (Query (str "begin"))] else [])).
  { unfold prepared, connected. by rewrite <- !app_assoc. }
  assert (Hrun : syncBody t connected
                 = ((prepared ++ (if t then [Call (Query (str "commit"))] else []))
                      ++ [Logged Info NoUpdateNeeded], inr [])).
  { unfold syncBody. rewrite run_bind. unfold query at 1, call at 1.
    destruct Hpath as [resp Hpath].
    unfold connected in *. rewrite <- app_assoc in Hpath. rewrite Hpath.
    rewrite run_bind.
    rewrite (transaction_returns _ t _ prepared []).
    - rewrite bool_decide_eq_true_2 by done. by rewrite run_bind, run_logged.
    - intros Ht. rewrite <- !app_assoc in Hbegin |- *. by apply Hbegin.
    - by rewrite <- Hprep, Hprepare.
    - intros Ht. unfold prepared. rewrite <- ?app_assoc in Hcommit. by apply Hcommit. }
  rewrite (sync_settles suppliedClient options tr _ (inr []) Hconnect Hrun).
  - unfold prepared. by rewrite <- !app_assoc.
  - intros Hs. unfold prepared. rewrite <- ?app_assoc in Hend |- *. by apply Hend.
Qed.

End differ_quiet_facts.

(** C7, as the code has it. When the diff phase yields no statement, [sync]
    executes none: besides the version or search-path query the only requests
    are BEGIN and COMMIT, issued when transaction wrapping is enabled (the
    transaction is opened before the statements are computed), and the
    release of the connection; the run logs that the database does not need
    updating and returns normally. *)
Theorem nothing_to_execute :
  (∀ (S : Server) (G : Legacy.Getters) (options : object) (tr : list event)
     (resp : response),
      reply tr (Query (str "select version()")) = inr resp →
      let t := Legacy.transactionOption options in
      let v := Legacy.versionOf resp in
      let events := Legacy.syncPrelude t v ++ Legacy.quietEvents t v in
      Legacy.nothing_changes →
      all_answered tr events →
      Legacy.sync options tr = (tr ++ events, inr tt)
      ∧ calls events
        = [Query (str "select version()")]
            ++ (if t then [Query (str "begin"); Query (str "commit")] else [])
            ++ [End]
      ∧ logs events
        = [(Info, SyncStarted); (Info, CurrentVersion v)]
            ++ (if Legacy._supportSeeds v then [] else [(Warn, SeedsNeedNewerServer)])
            ++ [(Info, NoUpdateNeeded); (Info, SyncSuccessful)])
  ∧ (∀ (S : Server) (P : Differ.Preparation) (suppliedClient : bool)
       (options : object) (tr : list event),
        let t := Differ.syncOptions options in
        let events := Differ.preparePrelude suppliedClient t
                        ++ Differ.nothingToDoEvents suppliedClient t in
        all_answered tr events →
        Differ._prepare (tr ++ Differ.preparePrelude suppliedClient t) = inr [] →
        Differ.sync suppliedClient options tr = (tr ++ events, inr [])
        ∧ calls events
          = (if negb suppliedClient then [Connect] else [])
              ++ [Query (str "set search_path to public")]
              ++ (if t then [Query (str "begin"); Query (str "commit")] else [])
              ++ (if negb suppliedClient then [End] else [])
        ∧ logs events
          = [(Info, SyncStarted); (Info, NoUpdateNeeded); (Info, SyncSuccessful)]).
Proof.
  split.
  - intros S G options tr resp Hversion t v events Hnone Hall. split_and!.
    + unfold events in *. apply all_answered_app in Hall as [Hprelude Hquiet].
      rewrite (sync_prelude_run options tr resp) by done. fold t v.
      unfold try_catch. rewrite syncBody_quiet by done. by rewrite <- app_assoc.
    + unfold events, Legacy.syncPrelude, Legacy.quietEvents.
      by destruct t, (Legacy._supportSeeds v).
    + unfold events, Legacy.syncPrelude, Legacy.quietEvents.
      by destruct t, (Legacy._supportSeeds v).
  - intros S P supplied options tr t events Hall Hprepare. split_and!.
    + by apply differ_sync_quiet.
    + unfold events, Differ.preparePrelude, Differ.nothingToDoEvents.
      by destruct t, supplied.
    + unfold events, Differ.preparePrelude, Differ.nothingToDoEvents.
      by destruct t, supplied.
Qed.

(** * The requests of a trace *)

Section ran_facts.

Lemma calls_app (evs1 evs2 : list event) : calls (evs1 ++ evs2) = calls evs1 ++ calls evs2.
Proof. unfold calls. by rewrite omap_app. Qed.


Lemma calls_queries (l : list jsstring) :
  calls ((λ q, Call (Query q)) <$> l) = Query <$> l.
Proof.
  induction l as [|q l IH]; [done|]. rewrite !fmap_cons.
  change (Query q :: calls ((λ q, Call (Query q)) <$> l) = Query q :: (Query <$> l)).
  by rewrite IH.
Qed.

End ran_facts.

(** * The seeds step *)

Section seeds_facts.

Import Legacy.
Context `{Getters}.

Lemma for_each_query_answered (l : list jsstring) (tr : list event) :
  all_answered tr ((λ q, Call (Query q)) <$> l) →
  ∃ rs, for_each query l tr = (tr ++ ((λ q, Call (Query q)) <$> l), inr rs)
        ∧ length rs = length l.
Proof.
  revert tr. induction l as [|q l IH]; intros tr Hall.
  - exists []. simpl. unfold ret. by rewrite app_nil_r.
  - rewrite fmap_cons in Hall.
    change (Call (Query q) :: ((λ q, Call (Query q)) <$> l))
      with ([Call (Query q)] ++ ((λ q, Call (Query q)) <$> l)) in Hall.
    apply all_answered_app in Hall as [[r Hq]%all_answered_call Hrest].
    destruct (IH _ Hrest) as (rs & Hrun & Hlen).
    exists (r :: rs). split; [|simpl; by rewrite Hlen].
    cbn [for_each]. unfold bind at 1. unfold query at 1, call at 1. rewrite Hq.
    unfold bind at 1. rewrite Hrun. unfold ret. by rewrite <- app_assoc.
Qed.

Lemma entitySync_runs (e : entity) (order : option (list jsstring)) (logging : bool)
    (tr : list event) (result : list (option Sql)) :
  changes e tr = inr result →
  _getFlatAndSortedSqlList order result ≠ [] →
  let sql := uniq (_getFlatAndSortedSqlList order result) in
  let before := if logging then [Logged Info (Updating e sql)] else [] in
  let after := if logging then [Logged Info (Updated e)] else [] in
  all_answered (tr ++ before) ((λ q, Call (Query q)) <$> sql) →
  ∃ rs, _entitySync e order logging tr
        = (tr ++ before ++ ((λ q, Call (Query q)) <$> sql) ++ after, inr (Some rs))
        ∧ length rs = length sql.
Proof.
  intros Hchanges Hne sql before after Hall.
  destruct (for_each_query_answered sql (tr ++ before) Hall) as (rs & Hrun & Hlen).
  exists rs. split; [|done].
  unfold _entitySync. rewrite run_bind, Hchanges.
  rewrite bool_decide_eq_false_2 by done. fold sql.
  rewrite run_bind.
  assert (when logging (logged Info (Updating e sql)) tr = (tr ++ before, inr tt)) as ->.
  { unfold before. destruct logging; simpl; [done|]. unfold ret. by rewrite app_nil_r. }
  rewrite run_bind, Hrun, run_bind.
  assert (∀ tr', when logging (logged Info (Updated e)) tr' = (tr' ++ after, inr tt)) as ->.
  { intros tr'. unfold after. destruct logging; simpl; [done|].
    unfold ret. by rewrite app_nil_r. }
  unfold ret. by rewrite <- !app_assoc.
Qed.

Lemma supportSeeds_iff (v : dbversion) :
  _supportSeeds v = true ↔ ∃ q, v = Version q ∧ (95 # 10 <= q)%Q.
Proof.
  destruct v as [| |q]; simpl.
  - split; [done|]. by intros (q & ? & _).
  - split; [done|]. by intros (q & ? & _).
  - rewrite Qle_bool_iff. split; [intros Hq; by exists q|].
    by intros (q' & [= ->] & Hq).
Qed.

Lemma uniq_eq_nil (l : list jsstring) : uniq l = [] ↔ l = [].
Proof.
  split; [|by intros ->].
  destruct l as [|q l]; [done|]. intros Hnil.
  assert (q ∈ uniq (q :: l)) as Hin by (apply elem_of_uniq, elem_of_cons; by left).
  rewrite Hnil in Hin. by apply elem_of_nil in Hin.
Qed.

(** A category on a server that answers its statements: the events are
    those of the category, and the result is truthy exactly when there was
    a statement. *)
Lemma entitySync_events (e : entity) (order : option (list jsstring)) (logging : bool)
    (tr : list event) (result : list (option Sql)) :
  changes e tr = inr result →
  let sql := uniq (_getFlatAndSortedSqlList order result) in
  all_answered tr (categoryEvents e logging sql) →
  ∃ x, _entitySync e order logging tr = (tr ++ categoryEvents e logging sql, inr x)
       ∧ bool_decide (is_Some x) = negb (bool_decide (sql = [])).
Proof.
  intros Hchanges sql Hall. unfold categoryEvents in *.
  destruct (decide (_getFlatAndSortedSqlList order result = [])) as [Hempty|Hsome].
  - exists None. unfold _entitySync. rewrite run_bind, Hchanges.
    rewrite bool_decide_eq_true_2 by done.
    assert (sql = []) as -> by (by apply uniq_eq_nil).
    rewrite bool_decide_eq_true_2 by done. rewrite app_nil_r. split; [done|].
    rewrite bool_decide_eq_false_2; [done|]. by intros [? ?].
  - assert (sql ≠ []) as Hsql by (unfold sql; by rewrite uniq_eq_nil).
    rewrite bool_decide_eq_false_2 in Hall |- * by done.
    apply all_answered_app in Hall as [_ Hall].
    apply all_answered_app in Hall as [Hall _].
    destruct (entitySync_runs e order logging tr result Hchanges Hsome Hall)
      as (rs & Hrun & _).
    exists (Some rs). split; [exact Hrun|].
    by rewrite bool_decide_eq_true_2.
Qed.

Lemma syncFinish_events (transaction : bool) (queries : list bool) (tr : list event) :
  let idle := bool_decide (List.filter id queries = []) in
  all_answered tr (finishEvents transaction idle) →
  syncFinish transaction queries tr = (tr ++ finishEvents transaction idle, inr tt).
Proof.
  intros idle. unfold finishEvents. rewrite !all_answered_app, all_answered_when.
  change [Logged Info SyncSuccessful; Call End]
    with ([Logged Info SyncSuccessful] ++ [Call End]).
  rewrite all_answered_app, all_answered_call.
  intros (_ & Hcommit & _ & Hend). unfold syncFinish. fold idle.
  rewrite run_bind.
  assert (when idle (logged Info NoUpdateNeeded) tr
          = (tr ++ (if idle then [Logged Info NoUpdateNeeded] else []), inr tt)) as ->.
  { destruct idle; [done|]. unfold when, ret. by rewrite app_nil_r. }
  rewrite run_bind. unfold query. rewrite run_when_calls by done.
  rewrite run_bind, run_logged.
  rewrite run_discard_call by (by rewrite <- !app_assoc in Hend |- *).
  by rewrite <- !app_assoc.
Qed.

(** The [try] block below the gate: the four other categories in their
    order, the warning in the place of the seeds, and the end; whatever the
    seed getters would produce. *)
Lemma syncBody_without_seeds (per : entity → list (option Sql)) (transaction : bool)
    (v : dbversion) (tr : list event) :
  (∀ e tr', e ≠ Seeds → changes e tr' = inr (per e)) →
  _supportSeeds v = false →
  let sql e order := uniq (_getFlatAndSortedSqlList order (per e)) in
  let events :=
    categoryEvents Sequences true (sql Sequences None)
    ++ categoryEvents Tables true (sql Tables None)
    ++ categoryEvents Extensions true (sql Extensions (Some extensionsOrder))
    ++ [Logged Warn SeedsNeedNewerServer]
    ++ categoryEvents SequenceValues true (sql SequenceValues None)
    ++ finishEvents transaction
         (bool_decide (sql Sequences None ++ sql Tables None
                       ++ sql Extensions (Some extensionsOrder)
                       ++ sql SequenceValues None = [])) in
  all_answered tr events →
  syncBody transaction v tr = (tr ++ events, inr tt).
Proof.
  intros Hper Hv sql events Hall. unfold events in *. clear events.
  apply all_answered_app in Hall as [H1 Hall].
  apply all_answered_app in Hall as [H2 Hall].
  apply all_answered_app in Hall as [H3 Hall].
  apply all_answered_app in Hall as [_ Hall].
  apply all_answered_app in Hall as [H5 H6].
  assert (∀ e order tr', e ≠ Seeds →
            all_answered tr' (categoryEvents e true (sql e order)) →
            ∃ x, _entitySync e order true tr'
                 = (tr' ++ categoryEvents e true (sql e order), inr x)
                 ∧ bool_decide (is_Some x) = negb (bool_decide (sql e order = [])))
    as Hplain.
  { intros e order tr' He. by apply entitySync_events, Hper. }
  unfold syncBody.
  destruct (Hplain Sequences None tr) as (x1 & Hrun1 & Hx1); [done|done|].
  rewrite run_bind, Hrun1. clear Hrun1. rewrite run_bind.
  destruct (Hplain Tables None _ ltac:(done) H2) as (x2 & Hrun2 & Hx2).
  rewrite Hrun2. clear Hrun2. rewrite run_bind.
  destruct (Hplain Extensions (Some extensionsOrder) _ ltac:(done) H3)
    as (x3 & Hrun3 & Hx3).
  rewrite Hrun3. clear Hrun3.
  unfold syncRest, syncSeeds. rewrite Hv.
  rewrite run_bind, run_bind, run_logged. unfold ret at 1. rewrite run_bind.
  destruct (Hplain SequenceValues None _ ltac:(done) H5) as (x5 & Hrun5 & Hx5).
  rewrite Hrun5. clear Hrun5.
  rewrite app_nil_r, Hx1, Hx2, Hx3, Hx5.
  assert (bool_decide
            (List.filter id
               ([negb (bool_decide (sql Sequences None = []));
                 negb (bool_decide (sql Tables None = []));
                 negb (bool_decide (sql Extensions (Some extensionsOrder) = []))]
                  ++ [negb (bool_decide (sql SequenceValues None = []))]) = [])
          = bool_decide (sql Sequences None ++ sql Tables None
                         ++ sql Extensions (Some extensionsOrder)
                         ++ sql SequenceValues None = [])) as Hidle.
  { destruct (sql Sequences None), (sql Tables None),
      (sql Extensions (Some extensionsOrder)), (sql SequenceValues None); done. }
  pose proof (syncFinish_events transaction
                ([negb (bool_decide (sql Sequences None = []));
                  negb (bool_decide (sql Tables None = []));
                  negb (bool_decide (sql Extensions (Some extensionsOrder) = []))]
                   ++ [negb (bool_decide (sql SequenceValues None = []))])) as Hfinish.
  cbv zeta in Hfinish. rewrite Hidle in Hfinish.
  rewrite Hfinish by done. by rewrite <- !app_assoc.
Qed.

Lemma calls_categoryEvents (e : entity) (logging : bool) (sql : list jsstring) :
  calls (categoryEvents e logging sql) = Query <$> sql.
Proof.
  unfold categoryEvents. case_bool_decide as Hsql; [by subst|].
  rewrite !calls_app, calls_queries. destruct logging; simpl; by rewrite app_nil_r.
Qed.

End seeds_facts.

(** C8. Seeds are synchronised only when the version number read off the
    server report is at least 9.5: then the seed statements are executed. For
    every other report ([null], [NaN], a number below 9.5) the seeds step only
    logs a warning, consults no seed getter and executes nothing, and the run
    goes on: the first three categories were synchronised before the gate and
    the sequence values are synchronised after the warning.  On a server that
    answers what is sent, a run below the gate consists of the version
    query, [begin], the statements of the sequences, of the tables and of the
    extensions, the warning, the statements of the sequence values, [commit]
    and the end of the connection, whatever the seed getters hold (they may
    even fail): every statement of the four other categories is sent, and no
    seed statement. *)
Theorem seeds_version_gate (S : Server) (G : Legacy.Getters) :
  (∀ v, Legacy._supportSeeds v = true ↔ ∃ q, v = Version q ∧ (95 # 10 <= q)%Q)
  ∧ (∀ v tr, Legacy._supportSeeds v = false →
       Legacy.syncSeeds v tr = (tr ++ [Logged Warn SeedsNeedNewerServer], inr []))
  ∧ (∀ v t queries tr, Legacy._supportSeeds v = false →
       Legacy.syncRest t v queries tr
       = match Legacy._entitySync SequenceValues None true
                 (tr ++ [Logged Warn SeedsNeedNewerServer]) with
         | (tr', inr q5) =>
             Legacy.syncFinish t (queries ++ [bool_decide (is_Some q5)]) tr'
         | (tr', inl error) => (tr', inl error)
         end)
  ∧ (∀ v t tr,
       Legacy.syncBody t v tr
       = match Legacy._entitySync Sequences None true tr with
         | (tr1, inr q1) =>
             match Legacy._entitySync Tables None true tr1 with
             | (tr2, inr q2) =>
                 match Legacy._entitySync Extensions (Some extensionsOrder) true tr2 with
                 | (tr3, inr q3) =>
                     Legacy.syncRest t v
                       [bool_decide (is_Some q1); bool_decide (is_Some q2);
                        bool_decide (is_Some q3)] tr3
                 | (tr3, inl error) => (tr3, inl error)
                 end
             | (tr2, inl error) => (tr2, inl error)
             end
         | (tr1, inl error) => (tr1, inl error)
         end)
  ∧ (∀ v tr result,
       Legacy._supportSeeds v = true →
       Legacy.changes Seeds tr = inr result →
       _getFlatAndSortedSqlList None result ≠ [] →
       let sql := uniq (_getFlatAndSortedSqlList None result) in
       all_answered tr ((λ q, Call (Query q)) <$> sql) →
       ∃ rs, Legacy.syncSeeds v tr
             = (tr ++ ((λ q, Call (Query q)) <$> sql)
                  ++ [Logged Info (InsertedSeeds (Legacy._calculateSuccessfulInsets rs))],
                inr [negb (Legacy._calculateSuccessfulInsets rs =? 0)%Z])
             ∧ length rs = length sql)
  ∧ (∀ (per : entity → list (option Sql)) options tr resp,
       (∀ e tr', e ≠ Seeds → Legacy.changes e tr' = inr (per e)) →
       reply tr (Query (str "select version()")) = inr resp →
       Legacy._supportSeeds (Legacy.versionOf resp) = false →
       let t := Legacy.transactionOption options in
       let sql e order := uniq (_getFlatAndSortedSqlList order (per e)) in
       let others :=
         sql Sequences None ++ sql Tables None
         ++ sql Extensions (Some extensionsOrder) ++ sql SequenceValues None in
       let events :=
         Legacy.syncPrelude t (Legacy.versionOf resp)
         ++ Legacy.categoryEvents Sequences true (sql Sequences None)
         ++ Legacy.categoryEvents Tables true (sql Tables None)
         ++ Legacy.categoryEvents Extensions true (sql Extensions (Some extensionsOrder))
         ++ [Logged Warn SeedsNeedNewerServer]
         ++ Legacy.categoryEvents SequenceValues true (sql SequenceValues None)
         ++ Legacy.finishEvents t (bool_decide (others = [])) in
       all_answered tr events →
       Legacy.sync options tr = (tr ++ events, inr tt)
       ∧ calls events
         = [Query (str "select version()")]
             ++ (if t then [Query (str "begin")] else [])
             ++ (Query <$> others)
             ++ (if t then [Query (str "commit")] else []) ++ [End]
       ∧ (Warn, SeedsNeedNewerServer) ∈ logs events).
Proof.
  split_and!.
  - apply supportSeeds_iff.
  - intros v tr Hv. unfold Legacy.syncSeeds. by rewrite Hv.
  - intros v t queries tr Hv. unfold Legacy.syncRest, Legacy.syncSeeds. rewrite Hv.
    rewrite run_bind, run_bind, run_logged. unfold ret at 1. rewrite run_bind.
    by rewrite app_nil_r.
  - intros v t tr. unfold Legacy.syncBody. by rewrite !run_bind.
  - intros v tr result Hv Hchanges Hne sql Hall.
    destruct (entitySync_runs Seeds None false tr result Hchanges Hne) as (rs & Hrun & Hlen).
    { by rewrite app_nil_r. }
    exists rs. split; [|done]. unfold Legacy.syncSeeds. rewrite Hv.
    rewrite run_bind, Hrun, run_bind, run_logged. unfold ret.
    rewrite !app_nil_r. simpl. by rewrite <- !app_assoc.
  - intros per options tr resp Hper Hversion Hv t sql others events Hall.
    unfold events in *. clear events.
    apply all_answered_app in Hall as [Hprelude Hbody].
    split_and!.
    + rewrite (sync_prelude_run options tr resp Hversion Hprelude). fold t.
      unfold try_catch.
      rewrite (syncBody_without_seeds per t _ _ Hper Hv Hbody).
      by rewrite <- !app_assoc.
    + unfold Legacy.syncPrelude, Legacy.finishEvents.
      rewrite !calls_app, !calls_categoryEvents. unfold others.
      rewrite !fmap_app, <- !app_assoc.
      destruct t, (bool_decide (_ ++ _ = [])); reflexivity.
    + unfold logs. rewrite !omap_app. rewrite !elem_of_app.
      right. right. right. right. left. by apply list_elem_of_singleton.
Qed.

(** * The theorems at concrete inputs *)

Section scenario_facts.

Import Scenario.

(** The scenario's server answers whatever is not the failing statement. *)
Lemma server_all_answered (reported : dbversion) (failing : jsstring)
    (tr evs : list event) :
  Call (Query failing) ∉ evs →
  @all_answered (server reported failing) tr evs.
Proof.
  intros Hnot pre r post ->. unfold answered. simpl.
  destruct r as [|sql|]; [by eexists| |by eexists].
  case_bool_decide as Hsql; [|by eexists].
  subst sql. exfalso. apply Hnot. apply elem_of_app. right. by left.
Qed.

End scenario_facts.

(** C2 does not hold as written: ["O'Brien"] is a plain string without a
    backslash and without the raw-expression suffix, the type [text] belongs
    to the default group, and decoding the encoded value yields
    ["O''Brien"]. *)
Lemma quoted_string_not_restored :
  let codec v t :=
    decodeValue Scenario.parse Scenario.groups (encodeValue Scenario.stringify v) t in
  getTypeGroup Scenario.groups (Some (str "text")) = None
  ∧ ends_with (str "::sql") (str "O'Brien") = false
  ∧ (backslash ∉ str "O'Brien")
  ∧ codec (Prim (Str (str "O'Brien"))) (Some (str "text"))
    = inr (Prim (Str (str "O''Brien")))
  ∧ codec (Prim (Str (str "O'Brien"))) (Some (str "text"))
    ≠ inr (Prim (Str (str "O'Brien"))).
Proof.
  split_and!; try (by vm_compute).
  apply (bool_decide_unpack _). by vm_compute.
Qed.

(** The codec theorem at the string [plain text] under the type [text] and at
    the object [{"a":1}] under the type [jsonb]. *)
Lemma encode_decode_inverse_witness :
  decodeValue Scenario.parse Scenario.groups
    (encodeValue Scenario.stringify (Prim (Str (str "plain text")))) (Some (str "text"))
  = inr (Prim (Str (str "plain text")))
  ∧ decodeValue Scenario.parse Scenario.groups
      (encodeValue Scenario.stringify (Obj [(str "a", 1%Z)])) (Some (str "jsonb"))
    = inr (Obj [(str "a", 1%Z)]).
Proof.
  pose proof (encode_decode_inverse Scenario.flat Scenario.stringify Scenario.parse
                Scenario.groups) as (_ & _ & Hobject & Hstring).
  split.
  - apply Hstring.
    + apply (bool_decide_unpack _). by vm_compute.
    + by vm_compute.
    + apply (bool_decide_unpack _). by vm_compute.
  - apply Hobject.
    + by vm_compute.
    + apply (bool_decide_unpack _). by vm_compute.
    + by vm_compute.
Defined.


(** The sequence theorem at a sequence whose increment changes from 1 to 5. *)
Lemma sequence_alter_minimal_witness :
  let desired : object :=
    [ (str "name", Str (str "users_id_seq")); (str "start", Num 1);
      (str "increment", Num 5); (str "min", Num 1); (str "max", Num 100);
      (str "cycle", Bool false) ] in
  let observed : object :=
    [ (str "start", Str (str "1")); (str "increment", Str (str "1"));
      (str "min", Str (str "1")); (str "max", Str (str "100"));
      (str "cycle", Bool false) ] in
  _getSqlChanges desired (Bool false) {[ str "public.users_id_seq" := observed ]}
    (inr (Bool true))
  = inr (Some [ create (str "alter sequence")
                  (str "alter sequence public.users_id_seq increment 5;") ]).
Proof.
  intros desired observed.
  pose proof (sequence_alter_minimal desired observed (Bool false)
                {[ str "public.users_id_seq" := observed ]} (Bool true))
    as Hspec.
  destruct Hspec as (_ & _ & _ & _ & Hincrement).
  - by vm_compute.
  - by vm_compute.
  - rewrite Hincrement; [by vm_compute|by vm_compute|by vm_compute].
Defined.

(** The default-value lemma at the sequence default of the catalogue. *)
Lemma default_value_schema_and_cast_witness :
  @defaultValueInformationSchema unit (Prim (Str (str "nextval('seq'::regclass)")))
  = Prim (Str (str "nextval('public.seq'::regclass)")).
Proof.
  pose proof (default_value_schema_and_cast unit (str "nextval('seq'::regclass)"))
    as (_ & _ & _ & _ & Hparen & _ & _).
  rewrite (Hparen (str "nextval('public.seq'::regclass") 41); by vm_compute.
Defined.



(** C7 does not hold as written: a closure-based Differ without any
    change, called with the default options, issues BEGIN (and COMMIT) before
    it logs that the database does not need updating. *)
Lemma begin_issued_with_nothing_to_do :
  let run :=
    @Legacy.sync _ (Scenario.getters (Version (10 # 1)) (str "bad") (λ _, [])) [] [] in
  run.2 = inr tt
  ∧ calls run.1
    = [ Query (str "select version()"); Query (str "begin"); Query (str "commit"); End ]
  ∧ (Info, NoUpdateNeeded) ∈ logs run.1
  ∧ Query (str "begin") ∈ calls run.1.
Proof.
  split_and!; try (by vm_compute);
    apply (bool_decide_unpack _); by vm_compute.
Qed.

(** The nothing-to-execute theorem at a closure-based Differ without any
    change, transaction wrapping disabled. *)
Lemma nothing_to_execute_witness :
  @Legacy.sync _ (Scenario.getters (Version (10 # 1)) (str "bad") (λ _, []))
    [(str "transaction", Bool false)] []
  = ([ Call (Query (str "select version()")); Logged Info SyncStarted;
       Logged Info (CurrentVersion (Version (10 # 1)));
       Logged Info NoUpdateNeeded; Logged Info SyncSuccessful; Call End ], inr tt).
Proof.
  destruct nothing_to_execute as [Hlegacy _].
  destruct (Hlegacy (Scenario.server (Version (10 # 1)) (str "bad"))
              (Scenario.getters (Version (10 # 1)) (str "bad") (λ _, []))
              [(str "transaction", Bool false)] [] (Version (10 # 1), 1%Z))
    as [Hrun _].
  - reflexivity.
  - intros e tr. by exists [].
  - apply server_all_answered, (bool_decide_unpack _). by vm_compute.
  - rewrite Hrun. by vm_compute.
Defined.

(** The version gate at a server that reports 9.4. *)
Lemma seeds_version_gate_witness :
  @Legacy.syncSeeds _
    (Scenario.getters (Version (94 # 10)) (str "bad") Examples.some_changes)
    (Version (94 # 10)) []
  = ([Logged Warn SeedsNeedNewerServer], inr [])
  ∧ calls (@Legacy.sync _
             (Scenario.getters (Version (94 # 10)) (str "bad") Examples.some_changes)
             [] []).1
    = [ Query (str "select version()"); Query (str "begin");
        Query (str "create sequence s"); Query (str "create table t");
        Query (str "drop fk"); Query (str "add unique u");
        Query (str "commit"); End ].
Proof.
  destruct (seeds_version_gate (Scenario.server (Version (94 # 10)) (str "bad"))
              (Scenario.getters (Version (94 # 10)) (str "bad") Examples.some_changes))
    as (_ & Hskip & _ & _ & _ & Hrun).
  split.
  - apply (Hskip (Version (94 # 10)) []). by vm_compute.
  - destruct (Hrun Examples.some_changes [] [] (Version (94 # 10), 1%Z))
      as (Hsync & _ & _).
    + intros e tr' _. reflexivity.
    + reflexivity.
    + by vm_compute.
    + apply server_all_answered, (bool_decide_unpack _). by vm_compute.
    + rewrite Hsync. by vm_compute.
Defined.

(** The registry theorem at a table defined twice under one name. *)
Lemma registry_one_object_per_name_witness :
  lookup (str "users")
    (@Differ.defined Scenario.controllers
       [ (str "table", (str "users", 1%nat)); (str "sequence", (str "ids", 2%nat));
         (str "table", (str "users", 3%nat)) ])
  = Some 3%nat
  ∧ @LegacyRegistry.synced_sequences Examples.named_objects
      (@LegacyRegistry.defined Examples.named_objects
         [ (str "table", (str "users", [str "users_id_seq"]));
           (str "sequence", (str "ids", []));
           (str "table", (str "users", [str "users_id_seq"; str "ids"])) ])
    = [str "users_id_seq"; str "ids"].
Proof.
  destruct registry_one_object_per_name as (Hdefined & _ & Hlegacy & _).
  split.
  - destruct (Hdefined Scenario.controllers
                [ (str "table", (str "users", 1%nat)); (str "sequence", (str "ids", 2%nat));
                  (str "table", (str "users", 3%nat)) ])
      as (_ & _ & Hlatest & _).
    rewrite Hlatest. by vm_compute.
  - destruct (Hlegacy Examples.named_objects
                [ (str "table", (str "users", [str "users_id_seq"]));
                  (str "sequence", (str "ids", []));
                  (str "table", (str "users", [str "users_id_seq"; str "ids"])) ])
      as (_ & _ & _ & _ & _ & Hsequences & _).
    apply (inj (fmap Some)). rewrite Hsequences. by vm_compute.
Defined.

(** * Further properties of the sources *)

(** ** [quoteLiteral] *)

Section quote_more.

Lemma doubled_head (c : N) : ∃ tl, doubled c = c :: tl.
Proof. unfold doubled. case_bool_decide; eauto. Qed.

Lemma doubled_bind_inj (s t : jsstring) : s ≫= doubled = t ≫= doubled → s = t.
Proof.
  revert t. induction s as [|c s IH]; intros [|d t] Heq.
  - done.
  - simpl in Heq. destruct (doubled_head d) as [tl Hd]. rewrite Hd in Heq. done.
  - simpl in Heq. destruct (doubled_head c) as [tl Hc]. rewrite Hc in Heq. done.
  - simpl in Heq.
    assert (c = d) as ->.
    { destruct (doubled_head c) as [tl Hc], (doubled_head d) as [tl' Hd].
      rewrite Hc, Hd in Heq. by injection Heq. }
    apply app_inv_head in Heq. f_equal. by apply IH.
Qed.

End quote_more.

(** X1. [quoteLiteral] is injective: two different texts never give the same
    literal. *)
Theorem quoteLiteral_injective (s t : jsstring) :
  s ≠ t → quoteLiteral s ≠ quoteLiteral t.
Proof.
  intros Hne Heq. apply Hne.
  rewrite !quoteLiteral_closed_form in Heq.
  destruct (has_backslash s), (has_backslash t); simpl in Heq.
  - injection Heq as Heq. apply app_inj_tail in Heq as [Heq _]. by apply doubled_bind_inj.
  - by injection Heq.
  - by injection Heq.
  - injection Heq as Heq. apply app_inj_tail in Heq as [Heq _]. by apply doubled_bind_inj.
Qed.

Lemma quoteLiteral_injective_witness :
  quoteLiteral (str "it's") ≠ quoteLiteral (str "its").
Proof. apply quoteLiteral_injective. by vm_compute. Defined.

(** ** The value codec, from the database side *)

Section codec_more.

Lemma exec_rawSuffix (v : jsstring) :
  exec rawSuffix (v ++ str "::sql") = Some (v, str "::sql", []).
Proof.
  pose proof (exec_first rawSuffix (v ++ str "::sql")) as Hfirst.
  destruct (exec rawSuffix (v ++ str "::sql")) as [[[pre m] rest]|].
  - destruct Hfirst as (Hs & _ & Hm & Hrest & _).
    apply matches_lang, lang_Lit in Hm as ->.
    apply bool_decide_eq_true in Hrest as ->.
    rewrite app_nil_r in Hs. apply app_inj_2 in Hs as [-> _]; done.
  - specialize (Hfirst v (str "::sql") []).
    rewrite app_nil_r in Hfirst. specialize (Hfirst eq_refl). done.
Qed.

Lemma exec_bracketsContent_unquoted (v : jsstring) :
  head v ≠ Some apostrophe → exec bracketsContent v = None.
Proof.
  intros Hhead.
  pose proof (exec_first bracketsContent v) as Hfirst.
  destruct (exec bracketsContent v) as [[[pre m] rest]|]; [|done].
  destruct Hfirst as (Hs & Hpre & _).
  apply bool_decide_eq_true in Hpre as ->. by rewrite Hs in Hhead.
Qed.

Lemma forallb_Forall_true (p : N → bool) (l : jsstring) :
  forallb p l = true ↔ Forall (λ c, p c = true) l.
Proof.
  induction l as [|c l IH]; simpl.
  - split; [by constructor|done].
  - rewrite andb_true_iff, Forall_cons. by rewrite IH.
Qed.

Lemma exec_allDigits (v : jsstring) :
  match0 allDigits v = if forallb is_digit v then Some v else None.
Proof.
  unfold match0.
  pose proof (exec_first allDigits v) as Hfirst.
  destruct (exec allDigits v) as [[[pre m] rest]|].
  - destruct Hfirst as (Hs & Hpre & Hm & Hrest & _).
    apply bool_decide_eq_true in Hpre as ->.
    apply bool_decide_eq_true in Hrest as ->.
    rewrite app_nil_r in Hs. simpl in Hs. subst m.
    apply matches_lang, lang_star_cls in Hm.
    apply forallb_Forall_true in Hm. by rewrite Hm.
  - destruct (forallb is_digit v) eqn:Hall; [|done].
    specialize (Hfirst [] v []). rewrite app_nil_r in Hfirst.
    specialize (Hfirst eq_refl).
    assert (matches (body allDigits) v = true) as Hm.
    { by apply matches_lang, lang_star_cls, forallb_Forall_true. }
    simpl in Hfirst. simpl in Hm. by rewrite Hm in Hfirst.
Qed.

Context {object : Type}.
Variable JSON_stringify : object → jsstring.
Variable JSON_parse : jsstring → outcome (jsvalue object).
Variable GROUPS : list (group * list jsstring).

Lemma encodeValue_raw (v : jsstring) :
  encodeValue JSON_stringify (Prim (Str (v ++ str "::sql"))) = Prim (Str v).
Proof.
  unfold encodeValue, match0, replace. rewrite exec_rawSuffix.
  by rewrite app_nil_r.
Qed.

End codec_more.

(** X2. An expression read from the database that is not a quoted literal
    comes back unchanged: [decodeValue] marks it with the suffix [::sql]
    (for a type outside the integer and boolean groups, when the text does
    not start with a quote), and [encodeValue] removes exactly that suffix
    again, whatever the expression is. *)
Theorem opaque_default_restored
    (object : Type) (JSON_stringify : object → jsstring)
    (JSON_parse : jsstring → outcome (jsvalue object))
    (GROUPS : list (group * list jsstring)) :
  (∀ v : jsstring,
      encodeValue JSON_stringify (Prim (Str (v ++ str "::sql"))) = Prim (Str v))
  ∧ (∀ (v : jsstring) type,
        getTypeGroup GROUPS type ∉ [Some INTEGER; Some BOOLEAN] →
        head v ≠ Some apostrophe →
        decodeValue JSON_parse GROUPS (Prim (Str v)) type
        = inr (Prim (Str (v ++ str "::sql")))
        ∧ match decodeValue JSON_parse GROUPS (Prim (Str v)) type with
          | inr decoded => encodeValue JSON_stringify decoded = Prim (Str v)
          | inl _ => False
          end).
Proof.
  split; [apply encodeValue_raw|].
  intros v type Hgroup Hhead.
  assert (decodeValue JSON_parse GROUPS (Prim (Str v)) type
          = inr (Prim (Str (v ++ str "::sql")))) as Hdecode.
  { unfold decodeValue, match0. rewrite exec_bracketsContent_unquoted by done.
    destruct (getTypeGroup GROUPS type) as [[]|]; try done.
    - exfalso. apply Hgroup. set_solver.
    - exfalso. apply Hgroup. set_solver. }
  split; [done|]. rewrite Hdecode. apply encodeValue_raw.
Qed.

Lemma opaque_default_restored_witness :
  decodeValue Scenario.parse Scenario.groups (Prim (Str (str "now()")))
    (Some (str "timestamp"))
  = inr (Prim (Str (str "now()::sql")))
  ∧ match decodeValue Scenario.parse Scenario.groups (Prim (Str (str "now()")))
            (Some (str "timestamp")) with
    | inr decoded => encodeValue Scenario.stringify decoded = Prim (Str (str "now()"))
    | inl _ => False
    end.
Proof.
  apply (proj2 (opaque_default_restored Scenario.flat Scenario.stringify Scenario.parse
                  Scenario.groups)).
  - apply (bool_decide_unpack _). by vm_compute.
  - by vm_compute.
Defined.

(** X3. For a type of the integer group [decodeValue] keeps a text made of
    digits only (the empty text included) as that text, never as a number,
    and returns every other text, a negative number for one, as the opaque
    expression [text::sql]. *)
Theorem decodeValue_integer_group
    (object : Type) (JSON_parse : jsstring → outcome (jsvalue object))
    (GROUPS : list (group * list jsstring)) (v : jsstring) type :
  getTypeGroup GROUPS type = Some INTEGER →
  decodeValue JSON_parse GROUPS (Prim (Str v)) type
  = inr (Prim (Str (if forallb is_digit v then v else v ++ str "::sql"))).
Proof.
  intros Hgroup. unfold decodeValue. rewrite Hgroup, exec_allDigits.
  by destruct (forallb is_digit v).
Qed.

Lemma decodeValue_integer_group_witness :
  decodeValue Scenario.parse Scenario.groups (Prim (Str (str "-1"))) (Some (str "integer"))
  = inr (Prim (Str (str "-1::sql"))).
Proof.
  exact (decodeValue_integer_group Scenario.flat Scenario.parse Scenario.groups
           (str "-1") (Some (str "integer")) eq_refl).
Defined.

(** X4. [decodeValue] throws only what [JSON.parse] throws: for a text under
    a type of the JSON group whose quoted content does not parse.  Every
    other call returns. *)
Theorem decodeValue_throws_only_json
    (object : Type) (JSON_parse : jsstring → outcome (jsvalue object))
    (GROUPS : list (group * list jsstring)) (value : jsvalue object) type (e : exn) :
  decodeValue JSON_parse GROUPS value type = inl e →
  getTypeGroup GROUPS type = Some JSON
  ∧ ∃ v m, value = Prim (Str v) ∧ match0 bracketsContent v = Some m ∧ JSON_parse m = inl e.
Proof.
  unfold decodeValue. intros Hthrow.
  destruct value as [[| | | |v]|o]; try done.
  destruct (getTypeGroup GROUPS type) as [[]|] eqn:Hgroup.
  - split; [done|]. destruct (match0 bracketsContent v) as [m|] eqn:Hm; [|done].
    by exists v, m.
  - by destruct (match0 allDigits v).
  - by repeat case_bool_decide.
  - by destruct (match0 bracketsContent v).
  - by destruct (match0 bracketsContent v).
Qed.

Lemma decodeValue_throws_only_json_witness :
  getTypeGroup Scenario.groups (Some (str "jsonb")) = Some JSON
  ∧ ∃ v m, Prim (Str (str "'{oops'")) = @Prim Scenario.flat (Str v)
           ∧ match0 bracketsContent v = Some m ∧ Scenario.parse m = inl SyntaxError.
Proof.
  apply (decodeValue_throws_only_json Scenario.flat Scenario.parse Scenario.groups
           (Prim (Str (str "'{oops'"))) (Some (str "jsonb")) SyntaxError).
  vm_compute. reflexivity.
Defined.

(** ** Check constraints *)

Section longest_match.

Implicit Types (p : pattern) (m rest pre suf : jsstring).

Lemma match_end_longest p m rest m' rest' :
  match_end p m rest = Some (m', rest') →
  ∀ ext rest2, rest = ext ++ rest2 →
    matches (body p) (m ++ ext) && ahead p rest2 = true →
    (length (m ++ ext) ≤ length m')%nat.
Proof.
  revert m. induction rest as [|c rest1 IH]; intros m Hend ext rest2 Hsplit Hok.
  - destruct ext; [|done]. rewrite app_nil_r.
    apply match_end_Some in Hend as (ext' & -> & _). rewrite length_app. lia.
  - cbn [match_end] in Hend.
    destruct (match_end p (m ++ [c]) rest1) as [[m1 r1]|] eqn:Hmore.
    + injection Hend as -> ->.
      destruct ext as [|c' ext1].
      * rewrite app_nil_r.
        apply match_end_Some in Hmore as (ext' & -> & _). rewrite !length_app. lia.
      * injection Hsplit as <- ->.
        replace (m ++ c :: ext1) with ((m ++ [c]) ++ ext1) in * by by rewrite <- app_assoc.
        by eapply IH.
    + destruct ext as [|c' ext1].
      * rewrite app_nil_r.
        destruct (matches (body p) m && ahead p (c :: rest1)); [|done].
        by injection Hend as <- <-.
      * injection Hsplit as <- ->.
        pose proof (match_end_None _ _ _ Hmore ext1 rest2 eq_refl) as Hnone.
        rewrite <- app_assoc in Hnone. simpl in Hnone. congruence.
Qed.

Lemma exec_from_match_end p pre suf pre' m rest :
  exec_from p pre suf = Some (pre', m, rest) →
  match_end p [] (m ++ rest) = Some (m, rest).
Proof.
  revert pre. induction suf as [|c suf IH]; intros pre; cbn [exec_from].
  - destruct (if behind p pre then match_end p [] [] else None) as [[m0 r0]|] eqn:Hhere;
      [|done].
    intros [= <- <- <-]. destruct (behind p pre); [|done].
    pose proof (match_end_Some _ _ _ _ _ Hhere) as (ext & -> & Hsuf & _).
    simpl in *. by rewrite <- Hsuf.
  - destruct (if behind p pre then match_end p [] (c :: suf) else None)
      as [[m0 r0]|] eqn:Hhere.
    + intros [= <- <- <-]. destruct (behind p pre); [|done].
      pose proof (match_end_Some _ _ _ _ _ Hhere) as (ext & -> & Hsuf & _).
      simpl in *. by rewrite <- Hsuf.
    + apply IH.
Qed.

Lemma exec_longest p s pre m rest :
  exec p s = Some (pre, m, rest) →
  ∀ ext rest2, m ++ rest = ext ++ rest2 →
    matches (body p) ext && ahead p rest2 = true →
    (length ext ≤ length m)%nat.
Proof.
  intros Hexec ext rest2 Hsplit Hok.
  apply exec_from_match_end in Hexec.
  by apply (match_end_longest _ _ _ _ _ Hexec ext rest2 Hsplit).
Qed.

End longest_match.

Section check_facts.

Lemma lang_plus_cls (p : N → bool) (s : jsstring) :
  lang (Plus (Cls p)) s ↔ s ≠ [] ∧ Forall (λ c, p c = true) s.
Proof.
  split.
  - intros (s1 & s2 & -> & H1 & H2)%lang_cat_inv.
    apply lang_cls_inv in H1 as (c & -> & Hc). apply lang_star_cls in H2.
    split; [done|]. by constructor.
  - intros [Hne Hall]. destruct s as [|c s]; [done|].
    apply Forall_cons in Hall as [Hc Hall].
    change (c :: s) with ([c] ++ s). apply lang_cat; [by apply lang_cls|].
    by apply lang_star_cls.
Qed.

Lemma condition_body (m : jsstring) :
  matches (body conditionPattern) m = true ↔ m ≠ [] ∧ lparen ∉ m.
Proof.
  rewrite matches_lang. unfold conditionPattern. cbn [body].
  rewrite lang_plus_cls. apply and_iff_compat_l.
  rewrite Forall_forall. split.
  - intros Hall Hin. specialize (Hall _ Hin). by rewrite N.eqb_refl in Hall.
  - intros Hnot c Hc. apply negb_true_iff, N.eqb_neq. by intros ->.
Qed.

Lemma condition_ahead (rest : jsstring) :
  ahead conditionPattern rest = true ↔ ∃ rest', rest = rparen :: rest'.
Proof.
  unfold conditionPattern. cbn [ahead]. rewrite bool_decide_eq_true.
  destruct rest as [|c rest]; simpl.
  - split; [done|]. by intros [? ?].
  - split.
    + intros [= ->]. by eexists.
    + by intros [? [= -> _]].
Qed.

(** A match cannot start in a text without [)] that an opening parenthesis
    ends. *)
Lemma condition_not_before (pre tail s1 m rest : jsstring) :
  rparen ∉ pre →
  pre ++ lparen :: tail = s1 ++ m ++ rest →
  matches (body conditionPattern) m = true →
  ahead conditionPattern rest = true →
  (length pre < length s1)%nat.
Proof.
  intros Hpre Hs [Hne Hm]%condition_body [rest' ->]%condition_ahead.
  destruct (decide (length pre < length s1)%nat) as [|Hle]; [done|]. exfalso.
  (* the character at the place of the opening parenthesis *)
  assert ((s1 ++ m ++ rparen :: rest') !! length pre = Some lparen) as Hat.
  { rewrite <- Hs. by rewrite list_lookup_middle. }
  destruct (decide (length pre < length s1 + length m)%nat) as [Hin|Hout].
  - rewrite lookup_app_r in Hat by lia. rewrite lookup_app_l in Hat by lia.
    apply Hm. by eapply list_elem_of_lookup_2.
  - assert ((pre ++ lparen :: tail) !! (length s1 + length m)%nat = Some rparen) as Hclose.
    { rewrite Hs. rewrite lookup_app_r by lia. rewrite lookup_app_r by lia.
      by replace (length s1 + length m - length s1 - length m)%nat with 0%nat by lia. }
    destruct (decide (length s1 + length m = length pre)%nat) as [Heq|Hneq].
    + rewrite Heq in Hclose. by rewrite list_lookup_middle in Hclose.
    + rewrite lookup_app_l in Hclose by lia.
      apply Hpre. by eapply list_elem_of_lookup_2.
Qed.

Lemma exec_condition (pre cond : jsstring) :
  rparen ∉ pre → cond ≠ [] → lparen ∉ cond →
  exec conditionPattern (pre ++ [lparen] ++ cond ++ [rparen])
  = Some (pre ++ [lparen], cond, [rparen]).
Proof.
  intros Hpre Hne Hcond.
  assert (matches (body conditionPattern) cond && ahead conditionPattern [rparen] = true)
    as Hok.
  { apply andb_true_iff. split; [by apply condition_body|by apply condition_ahead; eexists]. }
  pose proof (exec_first conditionPattern (pre ++ [lparen] ++ cond ++ [rparen])) as Hfirst.
  destruct (exec conditionPattern (pre ++ [lparen] ++ cond ++ [rparen]))
    as [[[pre' m] rest]|] eqn:Hexec.
  - destruct Hfirst as (Hs & _ & Hm & Hrest & Hmin).
    pose proof (condition_not_before pre (cond ++ [rparen]) pre' m rest Hpre Hs Hm Hrest)
      as Hlt.
    specialize (Hmin (pre ++ [lparen]) cond [rparen]).
    rewrite <- app_assoc in Hmin. specialize (Hmin eq_refl Hok).
    rewrite length_app in Hmin. simpl in Hmin.
    assert (pre' = pre ++ [lparen] ∧ m ++ rest = cond ++ [rparen]) as [-> Hrest'].
    { assert (length (pre ++ [lparen]) = length pre') as Hlen.
      { rewrite length_app. simpl. lia. }
      rewrite (app_assoc pre [lparen]) in Hs.
      destruct (same_length_split _ _ _ _ Hs Hlen) as [<- <-]. done. }
    pose proof (exec_longest _ _ _ _ _ Hexec cond [rparen] Hrest' Hok) as Hlong.
    apply condition_ahead in Hrest as [rest' ->].
    assert (length m = length cond) as Hlen.
    { apply (f_equal length) in Hrest'. rewrite !length_app in Hrest'. simpl in Hrest'. lia. }
    apply same_length_split in Hrest' as [-> ->]; done.
  - specialize (Hfirst (pre ++ [lparen]) cond [rparen]).
    rewrite <- app_assoc in Hfirst. specialize (Hfirst eq_refl).
    simpl in Hfirst. simpl in Hok. by rewrite Hok in Hfirst.
Qed.

Lemma exec_condition_none (definition : jsstring) :
  (∀ s1 c rest, definition = s1 ++ c :: rparen :: rest → c = lparen) →
  exec conditionPattern definition = None.
Proof.
  intros Hall.
  pose proof (exec_first conditionPattern definition) as Hfirst.
  destruct (exec conditionPattern definition) as [[[pre m] rest]|]; [|done].
  destruct Hfirst as (Hs & _ & [Hne Hm]%condition_body & [rest' ->]%condition_ahead & _).
  exfalso. destruct (exists_last Hne) as (init & c & ->).
  apply Hm. rewrite (Hall (pre ++ init) c rest').
  - set_solver.
  - rewrite Hs. by rewrite <- !app_assoc.
Qed.

End check_facts.

(** X5. [checkCondition] takes, from a definition [... ( cond )] whose text
    before the parenthesis holds no [)], the text between that parenthesis
    and the last [)] (for a [cond] without [(]).  A definition with nested
    parentheses therefore keeps the inner closing ones. *)
Theorem checkCondition_parenthesised (pre cond : jsstring) :
  rparen ∉ pre → cond ≠ [] → lparen ∉ cond →
  checkCondition (pre ++ [lparen] ++ cond ++ [rparen]) = inr cond.
Proof.
  intros Hpre Hne Hcond. unfold checkCondition, match0.
  by rewrite exec_condition.
Qed.

Lemma checkCondition_parenthesised_witness :
  checkCondition (str "CHECK ((price > 0))") = inr (str "price > 0)").
Proof.
  apply (checkCondition_parenthesised (str "CHECK (") (str "price > 0)")).
  - apply (bool_decide_unpack _). by vm_compute.
  - done.
  - apply (bool_decide_unpack _). by vm_compute.
Defined.

(** X6. [checkCondition] throws a [TypeError] when the definition has no
    [)] that follows a character other than [(]: a definition without
    parentheses, or the empty pair [()]. *)
Theorem checkCondition_throws (definition : jsstring) :
  (∀ s1 c rest, definition = s1 ++ c :: rparen :: rest → c = lparen) →
  checkCondition definition = inl TypeError.
Proof.
  intros Hall. unfold checkCondition, match0. by rewrite exec_condition_none.
Qed.

Lemma checkCondition_throws_witness :
  checkCondition (str "CHECK ()") = inl TypeError.
Proof.
  apply checkCondition_throws. intros s1 c rest Hsplit.
  assert (c :: rparen :: rest = drop (length s1) (str "CHECK ()")) as Hdrop.
  { rewrite Hsplit. by rewrite drop_app_length. }
  assert (length s1 ≤ 8)%nat as Hlen.
  { apply (f_equal length) in Hsplit. rewrite length_app in Hsplit.
    change (length (str "CHECK ()")) with 8%nat in Hsplit. lia. }
  unfold lparen.
  do 9 (destruct s1 as [|? s1]; [vm_compute in Hdrop; congruence|]; simpl in Hlen).
  lia.
Defined.

Section get_checks_facts.

Lemma map_throwing_fmap {A B C : Type} (f : B → outcome C) (h : A → B) (g : A → C)
    (l : list A) :
  (∀ x, x ∈ l → f (h x) = inr (g x)) → map_throwing f (h <$> l) = inr (g <$> l).
Proof.
  induction l as [|x l IH]; intros Hall; [done|].
  rewrite !fmap_cons. cbn [map_throwing].
  rewrite Hall by set_solver. rewrite IH; [done|].
  intros y Hy. apply Hall. set_solver.
Qed.

Lemma map_throwing_some {A B : Type} (f : A → outcome B) (e : exn) (l : list A) (x : A) :
  (∀ y e', f y = inl e' → e' = e) → x ∈ l → f x = inl e → map_throwing f l = inl e.
Proof.
  intros Hsame Hin Hx. induction l as [|y l IH]; [by apply elem_of_nil in Hin|].
  cbn [map_throwing]. destruct (f y) as [e'|b] eqn:Hy.
  - by rewrite (Hsame _ _ Hy).
  - apply elem_of_cons in Hin as [->|Hin]; [congruence|].
    by rewrite IH.
Qed.

End get_checks_facts.

(** X7. [getChecks] sends one query, for the table given or else for the
    table of the object.  When every definition in the answer has the shape
    [... ( cond )] the result has one entry per row, in the order of the
    rows, with the row's name and its condition; when some definition has no
    condition to take the call throws a [TypeError] and no entry is
    returned; when the query fails the call throws the query's error. *)
Theorem getChecks_conditions (S : Server) (C : Catalogue) (name : jsstring)
    (table : option jsstring) (tr : list event) :
  let q := Query (getChecks_query (default name table)) in
  (∀ r (checks : list (jsstring * jsstring * jsstring)),
      reply tr q = inr r →
      rows r = (λ c, (c.1.1, c.1.2 ++ [lparen] ++ c.2 ++ [rparen])) <$> checks →
      Forall (λ c, (rparen ∉ c.1.2) ∧ c.2 ≠ [] ∧ (lparen ∉ c.2)) checks →
      getChecks name table tr = (tr ++ [Call q], inr ((λ c, (c.1.1, c.2)) <$> checks)))
  ∧ (∀ r row,
        reply tr q = inr r →
        row ∈ rows r →
        (∀ s1 c rest, row.2 = s1 ++ c :: rparen :: rest → c = lparen) →
        getChecks name table tr = (tr ++ [Call q], inl TypeError))
  ∧ (∀ e, reply tr q = inl e → getChecks name table tr = (tr ++ [Call q], inl e)).
Proof.
  intros q. unfold getChecks. split_and!.
  - intros r checks Hr Hrows Hall.
    rewrite run_bind. unfold query, call. fold q. rewrite Hr.
    unfold settle. f_equal. rewrite Hrows.
    apply map_throwing_fmap. intros [[n pre] cond] Hin. cbn [fst snd].
    rewrite Forall_forall in Hall. destruct (Hall _ Hin) as (Hpre & Hne & Hcond).
    cbn [fst snd] in *.
    unfold checkCondition, match0. by rewrite exec_condition.
  - intros r row Hr Hin Hbad.
    rewrite run_bind. unfold query, call. fold q. rewrite Hr.
    unfold settle. f_equal.
    apply (map_throwing_some _ _ _ row); [|done|].
    + intros y e'. cbv beta. unfold checkCondition.
      destruct (match0 _ _); intros Heq; by simplify_eq.
    + unfold checkCondition, match0. by rewrite exec_condition_none.
  - intros e He. rewrite run_bind. unfold query, call. fold q. by rewrite He.
Qed.

Lemma getChecks_conditions_witness :
  @getChecks _ (Examples.catalogue
                  [ (str "positive", str "CHECK (price > 0)");
                    (str "named", str "CHECK (name <> '')") ])
    (str "items") None []
  = ([Call (Query (str "select checks of items"))],
     inr [ (str "positive", str "price > 0"); (str "named", str "name <> ''") ]).
Proof.
  apply (proj1 (getChecks_conditions _
                  (Examples.catalogue
                     [ (str "positive", str "CHECK (price > 0)");
                       (str "named", str "CHECK (name <> '')") ])
                  (str "items") None [])
           [ (str "positive", str "CHECK (price > 0)");
             (str "named", str "CHECK (name <> '')") ]
           [ (str "positive", str "CHECK ", str "price > 0");
               (str "named", str "CHECK ", str "name <> ''") ]).
  - reflexivity.
  - reflexivity.
  - repeat constructor;
      try (apply (bool_decide_unpack _); by vm_compute); done.
Defined.

(** ** Qualified names *)

Section names_facts.

Lemma split_on_plain (sep : N) (cur s : jsstring) :
  sep ∉ s → split_on sep cur s = [cur ++ s].
Proof.
  revert cur. induction s as [|c s IH]; intros cur Hs; simpl.
  - by rewrite app_nil_r.
  - apply not_elem_of_cons in Hs as [Hc Hs].
    destruct (c =? sep) eqn:Heq; [by apply N.eqb_eq in Heq|].
    rewrite IH by done. by rewrite <- app_assoc.
Qed.

Lemma split_on_sep (sep : N) (cur a b : jsstring) :
  sep ∉ a → split_on sep cur (a ++ sep :: b) = (cur ++ a) :: split_on sep [] b.
Proof.
  revert cur. induction a as [|c a IH]; intros cur Ha; simpl.
  - by rewrite N.eqb_refl, app_nil_r.
  - apply not_elem_of_cons in Ha as [Hc Ha].
    destruct (c =? sep) eqn:Heq; [by apply N.eqb_eq in Heq|].
    rewrite IH by done. by rewrite <- app_assoc.
Qed.

(** The chunk that follows a separator, when the text after it has no
    further separator or continues with one. *)
Lemma split_on_second (sep : N) (n more : jsstring) :
  sep ∉ n → more = [] ∨ head more = Some sep →
  ∃ chunks, split_on sep [] (n ++ more) = n :: chunks.
Proof.
  intros Hn [->|Hmore].
  - rewrite app_nil_r, split_on_plain by done. by eexists.
  - destruct more as [|c more]; [done|]. injection Hmore as ->.
    rewrite split_on_sep by done. by eexists.
Qed.

Lemma separateSchema_plain (name : jsstring) :
  dot ∉ name → separateSchema name = (None, name).
Proof.
  intros Hname. unfold separateSchema. by rewrite split_on_plain.
Qed.

Lemma separateSchema_qualified (s n more : jsstring) :
  dot ∉ s → dot ∉ n → n ≠ [] → more = [] ∨ head more = Some dot →
  separateSchema (s ++ [dot] ++ n ++ more) = (Some s, n).
Proof.
  intros Hs Hn Hne Hmore. unfold separateSchema.
  change (s ++ [dot] ++ n ++ more) with (s ++ dot :: (n ++ more)).
  rewrite split_on_sep by done.
  destruct (split_on_second dot n more Hn Hmore) as [chunks ->].
  simpl. by destruct n.
Qed.

Lemma separateSchema_empty_second (s more : jsstring) :
  dot ∉ s → more = [] ∨ head more = Some dot →
  separateSchema (s ++ [dot] ++ more) = (None, s).
Proof.
  intros Hs Hmore. unfold separateSchema.
  change (s ++ [dot] ++ more) with (s ++ dot :: ([] ++ more)).
  rewrite split_on_sep by done.
  destruct (split_on_second dot [] more) as [chunks ->]; [apply not_elem_of_nil|done|].
  done.
Qed.

End names_facts.

(** X8. [separateSchema] splits a name at its dots and looks at the first
    two chunks only: a name without a dot has no schema; [schema.name] gives
    both parts, and whatever follows a second dot is dropped; when nothing
    stands between the first dot and the end or the next dot, the first
    chunk is the name and there is no schema. *)
Theorem separateSchema_chunks :
  (∀ name, dot ∉ name → separateSchema name = (None, name))
  ∧ (∀ s n more,
        dot ∉ s → dot ∉ n → n ≠ [] → more = [] ∨ head more = Some dot →
        separateSchema (s ++ [dot] ++ n ++ more) = (Some s, n))
  ∧ (∀ s more,
        dot ∉ s → more = [] ∨ head more = Some dot →
        separateSchema (s ++ [dot] ++ more) = (None, s)).
Proof.
  split_and!.
  - apply separateSchema_plain.
  - apply separateSchema_qualified.
  - apply separateSchema_empty_second.
Qed.

Lemma separateSchema_chunks_witness :
  separateSchema (str "app.users.id") = (Some (str "app"), str "users").
Proof.
  apply (proj1 (proj2 separateSchema_chunks) (str "app") (str "users") (str ".id")).
  - apply (bool_decide_unpack _). by vm_compute.
  - apply (bool_decide_unpack _). by vm_compute.
  - done.
  - by right.
Defined.

(** X9. The full name of a sequence is its name when that is [schema.name],
    and [public.] followed by its name when the name has no dot; a sequence
    that is named by the full name of another has the same full name. *)
Theorem fullName_qualifies_once (p q : object) (name : jsstring) :
  get p (str "name") = Str name →
  ((dot ∉ name) ∧ name ≠ [])
  ∨ (∃ s n, name = s ++ [dot] ++ n ∧ (dot ∉ s) ∧ (dot ∉ n) ∧ n ≠ []) →
  get q (str "name") = Str (_fullName p) →
  _fullName p = (if bool_decide (dot ∈ name) then name else str "public." ++ name)
  ∧ _fullName q = _fullName p.
Proof.
  intros Hp Hshape Hq.
  assert (∃ s n, _fullName p = s ++ [dot] ++ n ∧ (dot ∉ s) ∧ (dot ∉ n) ∧ n ≠ []
                 ∧ _fullName p
                   = (if bool_decide (dot ∈ name) then name else str "public." ++ name))
    as (s & n & Hfull & Hs & Hn & Hne & Hname).
  { unfold _fullName. rewrite Hp. cbn [to_String].
    destruct Hshape as [[Hplain Hne]|(s & n & -> & Hs & Hn & Hne)].
    - rewrite separateSchema_plain by done. cbn [default].
      exists (str "public"), name. split_and!; try done.
      + apply (bool_decide_unpack _). by vm_compute.
      + by rewrite bool_decide_eq_false_2.
    - pose proof (separateSchema_qualified s n [] Hs Hn Hne (or_introl eq_refl)) as Hsep.
      rewrite app_nil_r in Hsep. rewrite Hsep. cbn [default].
      exists s, n. split_and!; try done.
      rewrite bool_decide_eq_true_2; [done|]. set_solver. }
  split; [done|].
  unfold _fullName at 1. rewrite Hq. cbn [to_String]. rewrite Hfull.
  pose proof (separateSchema_qualified s n [] Hs Hn Hne (or_introl eq_refl)) as Hsep.
  rewrite app_nil_r in Hsep. by rewrite Hsep.
Qed.

Lemma fullName_qualifies_once_witness :
  _fullName [(str "name", Str (str "users_id_seq"))] = str "public.users_id_seq"
  ∧ _fullName [(str "name", Str (str "public.users_id_seq"))]
    = _fullName [(str "name", Str (str "users_id_seq"))].
Proof.
  apply (fullName_qualifies_once
           [(str "name", Str (str "users_id_seq"))]
           [(str "name", Str (str "public.users_id_seq"))]
           (str "users_id_seq")).
  - reflexivity.
  - left. split; [|done]. apply (bool_decide_unpack _). by vm_compute.
  - reflexivity.
Defined.

(** ** Type names *)

Section type_facts.

Lemma lang_Chr (c : N) (s : jsstring) : lang (Chr c) s ↔ s = [c].
Proof.
  split.
  - intros (c' & -> & Hc)%lang_cls_inv. by apply N.eqb_eq in Hc as ->.
  - intros ->. apply lang_cls. apply N.eqb_refl.
Qed.

Lemma option_opens (m : jsstring) :
  lang (body regExpTypeOptions) m → ∃ c m', m = c :: m' ∧ opens_option c = true.
Proof.
  unfold regExpTypeOptions. cbn [body]. intros Hm.
  apply lang_alt_inv in Hm as [Hm|Hm].
  { apply lang_Lit in Hm as ->. by eexists _, _. }
  apply lang_alt_inv in Hm as [Hm|Hm].
  { apply lang_cat_inv in Hm as (s1 & s2 & -> & ->%lang_Chr & _). by eexists _, _. }
  apply lang_alt_inv in Hm as [Hm|Hm].
  { apply lang_cat_inv in Hm as (s1 & s2 & -> & ->%lang_Chr & _). by eexists _, _. }
  apply lang_cat_inv in Hm as (s1 & s2 & -> & ->%lang_Chr & _). by eexists _, _.
Qed.

Lemma exec_no_option (type : jsstring) :
  Forall (λ c, opens_option c = false) type → exec regExpTypeOptions type = None.
Proof.
  intros Hall.
  pose proof (exec_first regExpTypeOptions type) as Hfirst.
  destruct (exec regExpTypeOptions type) as [[[pre m] rest]|]; [|done].
  destruct Hfirst as (Hs & _ & Hm & _).
  apply matches_lang, option_opens in Hm as (c & m' & -> & Hc).
  rewrite Forall_forall in Hall. rewrite Hall in Hc; [done|]. rewrite Hs. set_solver.
Qed.

Lemma exec_trailing_option (base opt : jsstring) :
  Forall (λ c, opens_option c = false) base →
  matches (body regExpTypeOptions) opt = true →
  exec regExpTypeOptions (base ++ opt) = Some (base, opt, []).
Proof.
  intros Hbase Hopt.
  pose proof (exec_first regExpTypeOptions (base ++ opt)) as Hfirst.
  destruct (exec regExpTypeOptions (base ++ opt)) as [[[pre m] rest]|] eqn:Hexec.
  - destruct Hfirst as (Hs & _ & Hm & _ & Hmin).
    specialize (Hmin base opt []). rewrite app_nil_r in Hmin.
    specialize (Hmin eq_refl). cbn [behind ahead regExpTypeOptions anywhere] in Hmin.
    rewrite Hopt in Hmin. specialize (Hmin eq_refl).
    assert (length base ≤ length pre)%nat as Hge.
    { destruct (decide (length base ≤ length pre)%nat) as [|Hlt]; [done|]. exfalso.
      apply matches_lang, option_opens in Hm as (c & m' & -> & Hc).
      assert (base !! length pre = Some c) as Hat.
      { rewrite <- (lookup_app_l base opt) by lia. rewrite Hs.
        change ((c :: m') ++ rest) with (c :: m' ++ rest). by rewrite list_lookup_middle. }
      rewrite Forall_forall in Hbase. rewrite Hbase in Hc; [done|].
      by eapply list_elem_of_lookup_2. }
    assert (pre = base ∧ m ++ rest = opt) as [-> Hrest].
    { symmetry in Hs. destruct (same_length_split _ _ _ _ Hs) as [-> ->]; [lia|done]. }
    assert (matches (body regExpTypeOptions) opt && ahead regExpTypeOptions [] = true) as Hok.
    { by rewrite Hopt. }
    pose proof (exec_longest _ _ _ _ _ Hexec opt [] ltac:(by rewrite app_nil_r) Hok) as Hlong.
    assert (rest = []) as ->.
    { apply (f_equal length) in Hrest. rewrite length_app in Hrest.
      destruct rest; [done|]. simpl in Hrest. lia. }
    rewrite app_nil_r in Hrest. by subst.
  - specialize (Hfirst base opt []). rewrite app_nil_r in Hfirst.
    specialize (Hfirst eq_refl). cbn [behind ahead regExpTypeOptions anywhere] in Hfirst.
    by rewrite Hopt in Hfirst.
Qed.

Lemma exec_option_nil : exec regExpTypeOptions [] = None.
Proof. by vm_compute. Qed.

End type_facts.

(** X10. The options of a type name ([(n)], [[]], [[n]], ['n']) do not count
    for its group and survive normalisation: for a base name without an
    option, [trimType] of the name with one option after it is the trimmed
    base name, [normalizeType] is the alias of the trimmed base name (or the
    trimmed base name itself, when it has no alias) followed by the option,
    and [getTypeGroup] is the group of the base name; a name without an
    option is only trimmed. *)
Theorem type_options_set_aside
    (ALIASES : jsstring → option jsstring) (GROUPS : list (group * list jsstring))
    (base : jsstring) :
  Forall (λ c, opens_option c = false) base →
  (trimType base = trim base
   ∧ normalizeType ALIASES base = default (trim base) (ALIASES (trim base)))
  ∧ (∀ opt, matches (body regExpTypeOptions) opt = true →
       trimType (base ++ opt) = trim base
       ∧ normalizeType ALIASES (base ++ opt)
         = default (trim base) (ALIASES (trim base)) ++ opt
       ∧ (base ≠ [] →
          getTypeGroup GROUPS (Some (base ++ opt)) = getTypeGroup GROUPS (Some base))).
Proof.
  intros Hbase.
  assert (trimType base = trim base) as Hplain.
  { unfold trimType, replace_all. cbn [replace_all_fuel]. by rewrite exec_no_option. }
  split.
  - split; [done|]. unfold normalizeType, match_all. cbn [match_all_fuel].
    rewrite exec_no_option by done. rewrite Hplain. simpl. rewrite app_nil_r.
    by destruct (ALIASES (trim base)).
  - intros opt Hopt.
    assert (opt ≠ []) as Hne.
    { intros ->. by vm_compute in Hopt. }
    assert (trimType (base ++ opt) = trim base) as Htrim.
    { unfold trimType, replace_all.
      rewrite length_app. destruct (length opt) as [|n] eqn:Hlen.
      { by destruct opt. }
      replace (S (length base + S n)) with (S (S (length base + n))) by lia.
      cbn [replace_all_fuel]. rewrite exec_trailing_option by done.
      rewrite exec_option_nil. by rewrite app_nil_r. }
    split_and!; [done| |].
    + unfold normalizeType, match_all.
      rewrite length_app. destruct (length opt) as [|n] eqn:Hlen.
      { by destruct opt. }
      replace (S (length base + S n)) with (S (S (length base + n))) by lia.
      cbn [match_all_fuel]. rewrite exec_trailing_option by done.
      rewrite exec_option_nil. rewrite Htrim. simpl. rewrite app_nil_r.
      by destruct (ALIASES (trim base)).
    + intros Hbase_ne. unfold getTypeGroup. rewrite Htrim, Hplain.
      destruct base; [done|]. done.
Qed.

Lemma type_options_set_aside_witness :
  trimType (str "varchar(255)") = str "varchar"
  ∧ normalizeType (λ t, if bool_decide (t = str "varchar")
                         then Some (str "character varying") else None)
      (str "varchar(255)")
    = str "character varying(255)"
  ∧ (str "varchar" ≠ [] →
     getTypeGroup Scenario.groups (Some (str "varchar(255)"))
     = getTypeGroup Scenario.groups (Some (str "varchar"))).
Proof.
  apply (proj2 (type_options_set_aside
                  (λ t, if bool_decide (t = str "varchar")
                        then Some (str "character varying") else None)
                  Scenario.groups (str "varchar")
                  ltac:(by repeat constructor))
           (str "(255)")).
  by vm_compute.
Defined.

(** ** Object spread *)

Section spread_facts.

Context {V : Type}.
Implicit Types (m base over : entries V) (k : jsstring) (v : V).

Lemma lookup_app m1 m2 k :
  lookup k (m1 ++ m2) = match lookup k m1 with Some v => Some v | None => lookup k m2 end.
Proof.
  induction m1 as [|[k0 v0] m1 IH]; [done|].
  destruct (decide (k0 = k)) as [->|Hne].
  - change (((k, v0) :: m1) ++ m2) with ((k, v0) :: (m1 ++ m2)).
    by rewrite !lookup_cons_eq.
  - change (((k0, v0) :: m1) ++ m2) with ((k0, v0) :: (m1 ++ m2)).
    by rewrite !lookup_cons_ne.
Qed.

Lemma lookup_None_keys m k : lookup k m = None ↔ k ∉ keys m.
Proof.
  induction m as [|[k0 v0] m IH].
  - split; [intros _; apply not_elem_of_nil|done].
  - destruct (decide (k0 = k)) as [->|Hne].
    + rewrite lookup_cons_eq. split; [done|]. intros Hnot. exfalso. apply Hnot.
      unfold keys. simpl. apply elem_of_cons. by left.
    + rewrite lookup_cons_ne by done. rewrite IH. unfold keys. simpl.
      rewrite not_elem_of_cons. split; [by split; [intros ->|]|by intros [_ ?]].
Qed.

Lemma spread_snoc (base over : entries V) k v :
  foldl (λ acc e, set e.1 e.2 acc) base (over ++ [(k, v)])
  = set k v (foldl (λ acc e, set e.1 e.2 acc) base over).
Proof. by rewrite foldl_app. Qed.

Lemma lookup_fold_set (base over : entries V) k :
  NoDup (keys over) →
  lookup k (foldl (λ acc e, set e.1 e.2 acc) base over)
  = match lookup k over with Some v => Some v | None => lookup k base end.
Proof.
  induction over as [|[k0 v0] over IH] using rev_ind; intros Hnd; [done|].
  unfold keys in Hnd. rewrite fmap_app in Hnd. apply NoDup_app in Hnd as (Hnd & Hfresh & _).
  rewrite spread_snoc, lookup_app.
  destruct (decide (k0 = k)) as [->|Hne].
  - rewrite lookup_set_eq.
    assert (lookup k over = None) as ->.
    { apply lookup_None_keys. intros Hin. apply (Hfresh k Hin). simpl.
      apply elem_of_cons. by left. }
    by rewrite lookup_cons_eq.
  - rewrite lookup_set_ne by done. rewrite IH by done.
    rewrite lookup_cons_ne by done. by destruct (lookup k over).
Qed.

Lemma keys_fold_set_prefix (base over : entries V) :
  keys base `prefix_of` keys (foldl (λ acc e, set e.1 e.2 acc) base over).
Proof.
  induction over as [|[k0 v0] over IH] using rev_ind; [done|].
  rewrite spread_snoc.
  destruct (decide (k0 ∈ keys (foldl (λ acc e, set e.1 e.2 acc) base over))) as [Hin|Hout].
  - by rewrite keys_set_present.
  - rewrite keys_set_absent by done. by apply prefix_app_r.
Qed.

End spread_facts.

(** X11. [normalizeAutoIncrement] leaves a falsy value ([false], [0], the
    empty text, [null], [undefined]) as it is, turns any other primitive
    into the defaults of a sequence, and completes an object with the
    defaults: a property the object has keeps its value, every other one is
    the default, and the defaults come first in the order of the
    properties. *)
Theorem normalizeAutoIncrement_defaults (DEFAULTS : object) :
  (∀ p, truthy p = false → normalizeAutoIncrement DEFAULTS (Prim p) = Prim p)
  ∧ (∀ p, truthy p = true → normalizeAutoIncrement DEFAULTS (Prim p) = Obj DEFAULTS)
  ∧ (∀ o, NoDup (keys o) →
       ∃ result, normalizeAutoIncrement DEFAULTS (Obj o) = Obj result
         ∧ (∀ k, get result k = if bool_decide (k ∈ keys o) then get o k else get DEFAULTS k)
         ∧ keys DEFAULTS `prefix_of` keys result).
Proof.
  split_and!.
  - intros p Hp. unfold normalizeAutoIncrement. by rewrite Hp.
  - intros p Hp. unfold normalizeAutoIncrement. by rewrite Hp.
  - intros o Hnd. exists (spread DEFAULTS o). split_and!; [done| |].
    + intros k. unfold get, spread. rewrite lookup_fold_set by done.
      case_bool_decide as Hin.
      * destruct (lookup k o) eqn:Hk; [done|]. by apply lookup_None_keys in Hk.
      * apply lookup_None_keys in Hin. by rewrite Hin.
    + apply keys_fold_set_prefix.
Qed.

Lemma normalizeAutoIncrement_defaults_witness :
  ∃ result,
    normalizeAutoIncrement [(str "start", Num 1); (str "increment", Num 1)]
      (Obj [(str "increment", Num 10)]) = Obj result
    ∧ (∀ k, get result k
            = if bool_decide (k ∈ keys [(str "increment", Num 10)])
              then get [(str "increment", Num 10)] k
              else get [(str "start", Num 1); (str "increment", Num 1)] k)
    ∧ keys [(str "start", Num 1); (str "increment", Num 1)] `prefix_of` keys result.
Proof.
  apply (proj2 (proj2 (normalizeAutoIncrement_defaults
                         [(str "start", Num 1); (str "increment", Num 1)]))).
  unfold keys. simpl. apply NoDup_singleton.
Defined.

(** ** Sequences that are created *)

Section sequence_create.

Variables (properties : object) (force : prim).

Lemma buildSql_create :
  NoDup (keys properties) → str "action" ∉ keys properties →
  _buildSql properties (spread [(str "action", Str (str "create"))] properties)
  = let chunks := properties ≫= (λ e, _buildSql_chunk e.1 e.2) in
    if bool_decide (chunks = []) then None
    else Some [ create (str "create sequence")
                  (join (str " ") ((str "create sequence " ++ _fullName properties) :: chunks)
                   ++ str ";") ].
Proof.
  intros Hnd Haction. unfold _buildSql, spread.
  rewrite set_all_absent; [|done|].
  - change ([(str "action", Str (str "create"))] ++ properties)
      with ((str "action", Str (str "create")) :: properties).
    rewrite without_cons_eq, without_absent by done.
    unfold get. rewrite lookup_cons_eq. done.
  - intros k Hk Hin. apply list_elem_of_singleton in Hin. by subst.
Qed.

End sequence_create.

(** X12. A sequence whose own [force] is given decides by it, whatever
    the [force] of the Differ; a sequence without one (undefined or null)
    goes by the Differ's.  A forced sequence is dropped (if it exists, with
    cascade) and created again, and an unforced sequence that the snapshot
    does not hold is created; neither looks at the snapshot's attributes or
    asks for the current value.  The create statement has the clauses of the
    definition's properties in their order. *)
Theorem sequence_created_without_reading
    (properties : object) (structures : gmap jsstring object) :
  NoDup (keys properties) → str "action" ∉ keys properties →
  properties ≫= (λ e, _buildSql_chunk e.1 e.2) ≠ [] →
  let created :=
    create (str "create sequence")
      (join (str " ")
         ((str "create sequence " ++ _fullName properties)
            :: (properties ≫= (λ e, _buildSql_chunk e.1 e.2)))
       ++ str ";") in
  let dropped :=
    create (str "drop sequence")
      (str "drop sequence if exists " ++ _fullName properties ++ str " cascade;") in
  (∀ own force check,
      get properties (str "force") = own → isExist own = true → truthy own = true →
      _getSqlChanges properties force structures check = inr (Some [dropped; created]))
  ∧ (∀ own force check,
       get properties (str "force") = own → isExist own = true → truthy own = false →
       structures !! _fullName properties = None →
       _getSqlChanges properties force structures check = inr (Some [created]))
  ∧ (∀ force check,
       isExist (get properties (str "force")) = false → truthy force = true →
       _getSqlChanges properties force structures check = inr (Some [dropped; created]))
  ∧ (∀ force check,
       isExist (get properties (str "force")) = false → truthy force = false →
       structures !! _fullName properties = None →
       _getSqlChanges properties force structures check = inr (Some [created])).
Proof.
  intros Hnd Haction Hchunks created dropped.
  pose proof (buildSql_create properties Hnd Haction) as Hbuild.
  cbv zeta in Hbuild. rewrite bool_decide_eq_false_2 in Hbuild by done.
  split_and!.
  - intros own force check Hown Hexists Hforce.
    unfold _getSqlChanges, _forceCreate. by rewrite Hown, Hexists, Hforce, Hbuild.
  - intros own force check Hown Hexists Hforce Habsent.
    unfold _getSqlChanges, _forceCreate. by rewrite Hown, Hexists, Hforce, Habsent, Hbuild.
  - intros force check Hexists Hforce.
    unfold _getSqlChanges, _forceCreate. by rewrite Hexists, Hforce, Hbuild.
  - intros force check Hexists Hforce Habsent.
    unfold _getSqlChanges, _forceCreate. by rewrite Hexists, Hforce, Habsent, Hbuild.
Qed.

Lemma sequence_created_without_reading_witness :
  _getSqlChanges
    [ (str "name", Str (str "ids")); (str "force", Bool false);
      (str "start", Num 1); (str "increment", Num 10);
      (str "max", Num (2 ^ 63 - 1)); (str "cycle", Bool false) ]
    (Bool true) ∅ (inl TypeError)
  = inr (Some [ create (str "create sequence")
                  (str "create sequence public.ids start 1 increment 10"
                     ++ str " maxvalue 9223372036854776000 no cycle;") ]).
Proof.
  apply (proj1 (proj2 (sequence_created_without_reading
           [ (str "name", Str (str "ids")); (str "force", Bool false);
             (str "start", Num 1); (str "increment", Num 10);
             (str "max", Num (2 ^ 63 - 1)); (str "cycle", Bool false) ]
           ∅
           ltac:(apply (bool_decide_unpack _); by vm_compute)
           ltac:(apply (bool_decide_unpack _); by vm_compute)
           ltac:(by vm_compute)))
         (Bool false) (Bool true) (inl TypeError)).
  - reflexivity.
  - reflexivity.
  - reflexivity.
  - reflexivity.
Defined.

(** ** What the difference of two sequences holds *)

(** X13. The difference of a definition and an observed sequence lists, in
    the order start, min, max, increment, cycle, the attributes whose values
    differ as texts, each with the value of the definition, and nothing
    else: a property that is not one of the five is never in it.  It is
    empty exactly when the five attributes agree as texts, so for a
    definition compared with itself; exchanging the two sides lists the same
    attributes. *)
Theorem getDifference_attributes (a b : object) :
  keys (_getDifference a b) = changed a b
  ∧ (∀ k, k ∈ keys (_getDifference a b) → k ∈ ATTRIBUTES)
  ∧ (∀ k, k ∈ changed a b → get (_getDifference a b) k = get a k)
  ∧ (_getDifference a b = []
     ↔ ∀ k, k ∈ ATTRIBUTES → to_String (get a k) = to_String (get b k))
  ∧ _getDifference a a = []
  ∧ keys (_getDifference a b) = keys (_getDifference b a).
Proof.
  assert (∀ x y : object, keys (_getDifference x y) = changed x y) as Hkeys.
  { intros x y. rewrite getDifference_changed. unfold keys.
    rewrite <- list_fmap_compose. by rewrite list_fmap_id. }
  assert (∀ x y : object, changed x y = changed y x) as Hsym.
  { intros x y. unfold changed. apply List.filter_ext. intros k.
    apply bool_decide_ext. split; intros Hne Heq; by apply Hne. }
  assert (∀ a b : object, changed a b = []
          ↔ ∀ k, k ∈ ATTRIBUTES → to_String (get a k) = to_String (get b k)) as Hempty.
  { clear a b Hkeys Hsym. intros a b. unfold changed. split.
    - intros Hnil k Hk.
      destruct (decide (to_String (get a k) = to_String (get b k))) as [|Hne]; [done|].
      assert (k ∈ List.filter
                    (λ key, bool_decide (to_String (get a key) ≠ to_String (get b key)))
                    ATTRIBUTES) as Hin.
      { apply list_elem_of_In, filter_In. split; [by apply list_elem_of_In|].
        by apply bool_decide_eq_true. }
      rewrite Hnil in Hin. by apply elem_of_nil in Hin.
    - intros Hall.
      destruct (List.filter _ ATTRIBUTES) as [|k l] eqn:Hfilter; [done|]. exfalso.
      assert (In k (List.filter
                      (λ key, bool_decide (to_String (get a key) ≠ to_String (get b key)))
                      ATTRIBUTES)) as Hin.
      { rewrite Hfilter. by left. }
      apply filter_In in Hin as [Hin Hne]. apply bool_decide_eq_true in Hne.
      apply Hne, Hall. by apply list_elem_of_In. }
  split_and!.
  - apply Hkeys.
  - intros k. rewrite Hkeys. apply changed_attributes.
  - intros k Hk. rewrite getDifference_changed, get_of_fmap.
    by rewrite bool_decide_eq_true_2.
  - rewrite <- Hempty. rewrite getDifference_changed. split.
    + intros Hnil. by apply fmap_nil_inv in Hnil.
    + by intros ->.
  - rewrite getDifference_changed.
    assert (changed a a = []) as ->; [|done]. by apply Hempty.
  - by rewrite !Hkeys.
Qed.

(** ** The servers of the examples *)

Section example_servers.

Lemma position_None (r : request) (l : list request) (n : N) :
  r ∉ l → Examples.position r l n = None.
Proof.
  revert n. induction l as [|r' l IH]; intros n Hr; [done|].
  apply not_elem_of_cons in Hr as [Hne Hr]. simpl.
  rewrite bool_decide_eq_false_2 by done. by apply IH.
Qed.

Lemma picky_all_answered (rejected : list request) (tr evs : list event) :
  (∀ r, r ∈ rejected → Call r ∉ evs) →
  @all_answered (Examples.picky_server rejected) tr evs.
Proof.
  intros Hnone pre r post ->. exists tt. simpl.
  rewrite position_None; [done|].
  intros Hr. apply (Hnone r Hr). apply elem_of_app. right. apply elem_of_cons. by left.
Qed.

End example_servers.

(** ** Failures around the transaction of the closure-based [sync] *)

(** X14. The closure-based [sync] reads the server version and sends
    [begin] before its [try] block: when either of the two requests fails,
    [sync] throws that error and sends nothing more: no [rollback], and the
    connection is not ended. *)
Theorem sync_fails_before_try (S : Server) (G : Legacy.Getters) (options : object)
    (tr : list event) :
  (∀ e, reply tr (Query (str "select version()")) = inl e →
        Legacy.sync options tr = (tr ++ [Call (Query (str "select version()"))], inl e))
  ∧ (∀ resp e,
        reply tr (Query (str "select version()")) = inr resp →
        Legacy.transactionOption options = true →
        let started :=
          tr ++ [ Call (Query (str "select version()")); Logged Info SyncStarted;
                  Logged Info (CurrentVersion (Legacy.versionOf resp)) ] in
        reply started (Query (str "begin")) = inl e →
        Legacy.sync options tr = (started ++ [Call (Query (str "begin"))], inl e)
        ∧ calls (Legacy.sync options tr).1
          = calls tr ++ [Query (str "select version()"); Query (str "begin")]).
Proof.
  split.
  - intros e Hversion. unfold Legacy.sync, Legacy._getDatabaseVersion.
    rewrite !run_bind. unfold query at 1, call at 1. by rewrite Hversion.
  - intros resp e Hversion Ht started Hbegin.
    assert (Legacy.sync options tr = (started ++ [Call (Query (str "begin"))], inl e))
      as Hrun.
    { unfold Legacy.sync, Legacy._getDatabaseVersion.
      rewrite !run_bind. unfold query at 1, call at 1. rewrite Hversion.
      unfold ret at 1. rewrite run_bind, run_logged, run_bind, run_logged.
      rewrite run_bind. rewrite Ht. unfold when, discard, query, call, bind.
      assert (((tr ++ [Call (Query (str "select version()"))])
                 ++ [Logged Info SyncStarted])
                ++ [Logged Info (CurrentVersion (Legacy.versionOf resp))] = started) as ->.
      { unfold started. by rewrite <- !app_assoc. }
      by rewrite Hbegin. }
    split; [done|]. rewrite Hrun. unfold started, calls. cbn [fst].
    rewrite <- !app_assoc. by rewrite !omap_app.
Qed.

Lemma sync_fails_before_try_witness :
  @Legacy.sync _ (Scenario.getters (Version (10 # 1)) (str "begin") (λ _, [])) [] []
  = ([ Call (Query (str "select version()")); Logged Info SyncStarted;
       Logged Info (CurrentVersion (Version (10 # 1)));
       Call (Query (str "begin")) ], inl (DatabaseError 23505)).
Proof.
  apply (proj2 (sync_fails_before_try _
                  (Scenario.getters (Version (10 # 1)) (str "begin") (λ _, [])) [] [])
           (Version (10 # 1), 1%Z) (DatabaseError 23505)); reflexivity.
Defined.

(** X15. When a statement fails and the [rollback] of the [catch] block
    fails too, the closure-based [sync] throws the error of the [rollback],
    not the error of the statement, and does not end the connection. *)
Theorem rollback_failure_replaces_error (S : Server) (G : Legacy.Getters)
    (options : object) (tr : list event) (resp : response)
    (pre post : list event) (r : request) (e e' : exn) :
  reply tr (Query (str "select version()")) = inr resp →
  Legacy.transactionOption options = true →
  let v := Legacy.versionOf resp in
  let start := tr ++ Legacy.syncPrelude true v in
  all_answered tr (Legacy.syncPrelude true v) →
  (Legacy.syncBody true v start).1 = start ++ pre ++ Call r :: post →
  reply (start ++ pre) r = inl e →
  reply (start ++ pre ++ [Call r]) (Query (str "rollback")) = inl e' →
  Legacy.sync options tr
  = (start ++ pre ++ [Call r; Call (Query (str "rollback"))], inl e').
Proof.
  intros Hversion Ht v start Hprelude Hbody Hfail Hrollback.
  destruct (failstop_syncBody true v start) as (evs & Hevs & Hstop).
  rewrite Hevs in Hbody. apply app_inv_head in Hbody. subst evs.
  destruct (Hstop pre r post e eq_refl Hfail) as [-> Hout].
  rewrite (sync_prelude_run options tr resp); [|done|by rewrite Ht].
  rewrite Ht. fold v start. unfold try_catch.
  destruct (Legacy.syncBody true v start) as [tr' out]. simpl in *. subst tr' out.
  unfold Legacy.syncCatch. rewrite run_bind.
  unfold when, discard, query, call, bind. rewrite Hrollback.
  by rewrite <- !app_assoc.
Qed.

Lemma rollback_failure_replaces_error_witness :
  @Legacy.sync _
    (Examples.getters_of (Examples.picky_server [Query (str "bad"); Query (str "rollback")])
       (λ e, match e with
             | Tables => [Some [create (str "create table") (str "bad")]]
             | _ => []
             end))
    [] []
  = ([ Call (Query (str "select version()")); Logged Info SyncStarted;
       Logged Info (CurrentVersion (Version (10 # 1)));
       Call (Query (str "begin")) ]
     ++ [Logged Info (Updating Tables [str "bad"])]
     ++ [Call (Query (str "bad")); Call (Query (str "rollback"))],
     inl (DatabaseError 2)).
Proof.
  apply (rollback_failure_replaces_error _
           (Examples.getters_of
              (Examples.picky_server [Query (str "bad"); Query (str "rollback")])
              (λ e, match e with
                    | Tables => [Some [create (str "create table") (str "bad")]]
                    | _ => []
                    end))
           [] [] tt [Logged Info (Updating Tables [str "bad"])] []
           (Query (str "bad")) (DatabaseError 1) (DatabaseError 2)).
  - reflexivity.
  - reflexivity.
  - apply picky_all_answered. intros r Hr Hin.
    apply (bool_decide_pack _) in Hin.
    apply elem_of_cons in Hr as [->|Hr]; [by vm_compute in Hin|].
    apply elem_of_cons in Hr as [->|Hr]; [by vm_compute in Hin|].
    by apply elem_of_nil in Hr.
  - reflexivity.
  - reflexivity.
  - reflexivity.
Defined.

(** ** Failures around the [try] block of the class-based [sync] *)

(** X16. The class-based [sync], on a client it makes itself: when
    [connect] fails it throws that error and does nothing more; when the
    first query, [set search_path to public], fails it ends the connection
    and throws that error, and [_prepare] is not reached.  However the
    [try] block settled, when ending the connection fails [sync] throws that
    error: a successful run is then reported as failed, and the error of a
    failed run is replaced. *)
Theorem differ_sync_release (S : Server) (P : Differ.Preparation) (options : object)
    (tr : list event) :
  let started := tr ++ [Logged Info SyncStarted] in
  let connected := started ++ [Call Connect] in
  let path := Query (str "set search_path to public") in
  (∀ e, reply started Connect = inl e →
        Differ.sync false options tr = (connected, inl e))
  ∧ (∀ e, answered started Connect →
          reply connected path = inl e →
          answered (connected ++ [Call path]) End →
          Differ.sync false options tr = (connected ++ [Call path; Call End], inl e))
  ∧ (∀ tr' settled e',
        answered started Connect →
        Differ.syncBody (Differ.syncOptions options) connected = (tr', settled) →
        reply tr' End = inl e' →
        Differ.sync false options tr = (tr' ++ [Call End], inl e')).
Proof.
  intros started connected path. split_and!.
  - intros e Hconnect. unfold Differ.sync.
    rewrite run_bind, run_logged, run_bind. fold started.
    unfold when, negb, discard, call, bind. by rewrite Hconnect.
  - intros e Hconnect Hpath Hend.
    assert (Differ.syncBody (Differ.syncOptions options) connected
            = (connected ++ [Call path], inl e)) as Hbody.
    { unfold Differ.syncBody. rewrite run_bind. unfold query at 1, call at 1.
      fold path. by rewrite Hpath. }
    unfold Differ.sync.
    rewrite run_bind, run_logged, run_bind. fold started.
    rewrite run_when_calls by done. cbn [negb]. fold connected.
    rewrite run_bind. unfold attempt. rewrite Hbody.
    rewrite run_bind. rewrite run_when_calls by done. cbn [negb].
    by rewrite <- app_assoc.
  - intros tr' settled e' Hconnect Hbody Hend. unfold Differ.sync.
    rewrite run_bind, run_logged, run_bind. fold started.
    rewrite run_when_calls by done. cbn [negb]. fold connected.
    rewrite run_bind. unfold attempt. rewrite Hbody.
    rewrite run_bind.
    unfold when, negb, discard, call, bind. by rewrite Hend.
Qed.

Lemma differ_sync_release_witness :
  @Differ.sync (Examples.picky_server [End]) (Scenario.preparation []) false [] []
  = ([ Logged Info SyncStarted; Call Connect;
       Call (Query (str "set search_path to public")); Call (Query (str "begin"));
       Call (Query (str "commit")); Logged Info NoUpdateNeeded ] ++ [Call End],
     inl (DatabaseError 1)).
Proof.
  apply (proj2 (proj2 (differ_sync_release (Examples.picky_server [End])
                         (Scenario.preparation []) [] []))
           _ (inr []) (DatabaseError 1)).
  - by exists tt.
  - reflexivity.
  - reflexivity.
Defined.

(** ** Statements one after the other *)

Section for_each_facts.

Context `{Server}.


(** Statements sent one after the other: every statement before the one
    that fails was answered, the one that fails is the last one sent, and
    its error is what is thrown. *)
Lemma for_each_query_stops (l : list jsstring) (tr : list event) :
  let sent n := (λ q, Call (Query q)) <$> take n l in
  ∃ n, (n ≤ length l)%nat
       ∧ (for_each query l tr).1 = tr ++ sent n
       ∧ match (for_each query l tr).2 with
         | inr rs => n = length l ∧ length rs = length l ∧ all_answered tr (sent n)
         | inl e =>
             ∃ k q, n = S k ∧ l !! k = Some q
                    ∧ all_answered tr (sent k)
                    ∧ reply (tr ++ sent k) (Query q) = inl e
         end.
Proof.
  cbv zeta. revert tr. induction l as [|q l IH]; intros tr.
  - exists 0%nat. split_and!; [done|by rewrite app_nil_r|].
    simpl. split_and!; [done|done|apply all_answered_nil].
  - assert (for_each query (q :: l) tr
            = match reply tr (Query q) with
              | inl e => (tr ++ [Call (Query q)], inl e)
              | inr r =>
                  match for_each query l (tr ++ [Call (Query q)]) with
                  | (tr', inr rs) => (tr', inr (r :: rs))
                  | (tr', inl e) => (tr', inl e)
                  end
              end) as ->.
    { cbn [for_each]. unfold bind, query, call, ret.
      destruct (reply tr (Query q)); [done|].
      by destruct (for_each _ l (tr ++ [Call (Query q)])) as [? [?|?]]. }
    destruct (reply tr (Query q)) as [e|r] eqn:Hq.
    + exists 1%nat. split_and!; [simpl; lia|done|].
      exists 0%nat, q. split_and!; [done|done|apply all_answered_nil|].
      simpl. by rewrite app_nil_r.
    + destruct (IH (tr ++ [Call (Query q)])) as (n & Hn & Htr & Hout).
      assert (∀ m, all_answered (tr ++ [Call (Query q)])
                     ((λ q, Call (Query q)) <$> take m l) →
                   all_answered tr ((λ q, Call (Query q)) <$> take (S m) (q :: l)))
        as Hcons.
      { intros m Hall. rewrite firstn_cons, fmap_cons.
        change (Call (Query q) :: ((λ q, Call (Query q)) <$> take m l))
          with ([Call (Query q)] ++ ((λ q, Call (Query q)) <$> take m l)).
        apply all_answered_app. split; [|done].
        apply all_answered_call. by exists r. }
      destruct (for_each query l (tr ++ [Call (Query q)])) as [tr' [e|rs]];
        simpl in Htr, Hout.
      * exists (S n). split_and!; [simpl; lia| |].
        -- simpl. rewrite Htr, <- app_assoc. done.
        -- simpl. destruct Hout as (k & q' & -> & Hk & Hall & Hfail).
           exists (S k), q'. split_and!; [done|done|by apply Hcons|].
           rewrite firstn_cons, fmap_cons. rewrite <- Hfail. f_equal.
           by rewrite <- app_assoc.
      * exists (S n). split_and!; [simpl; lia| |].
        -- simpl. rewrite Htr, <- app_assoc. done.
        -- simpl. destruct Hout as (-> & Hlen & Hall).
           split_and!; [done|by rewrite Hlen|by apply Hcons].
Qed.

End for_each_facts.


(** X18. [_entitySync] of the closure-based Differ sends each statement text
    of a category at most once, in the order of first occurrence, and stops
    at the first one that fails: the statements before it were answered, it
    is the last event, and its error is what is thrown.  When every
    statement is answered it returns one result per statement, after the
    closing log line.  When the getters have no statement it sends nothing
    and returns [false]; when a getter throws it sends nothing and throws. *)
Theorem entitySync_no_repeat (Srv : Server) (G : Legacy.Getters) (e : entity)
    (order : option (list jsstring)) (logging : bool) (tr : list event) :
  match Legacy.changes e tr with
  | inr result =>
      let sql := uniq (_getFlatAndSortedSqlList order result) in
      let before := if logging then [Logged Info (Updating e sql)] else [] in
      let after := if logging then [Logged Info (Updated e)] else [] in
      let sent n := (λ q, Call (Query q)) <$> take n sql in
      NoDup sql
      ∧ (∀ q, q ∈ sql ↔ q ∈ _getFlatAndSortedSqlList order result)
      ∧ (sql = [] → Legacy._entitySync e order logging tr = (tr, inr None))
      ∧ (sql ≠ [] →
         ∃ n, (n ≤ length sql)%nat
              ∧ match (Legacy._entitySync e order logging tr).2 with
                | inr x =>
                    n = length sql
                    ∧ (∃ rs, x = Some rs ∧ length rs = length sql)
                    ∧ (Legacy._entitySync e order logging tr).1
                      = tr ++ before ++ sent n ++ after
                    ∧ all_answered (tr ++ before) (sent n)
                | inl error =>
                    ∃ k q, n = S k ∧ sql !! k = Some q
                           ∧ (Legacy._entitySync e order logging tr).1
                             = tr ++ before ++ sent k ++ [Call (Query q)]
                           ∧ all_answered (tr ++ before) (sent k)
                           ∧ reply (tr ++ before ++ sent k) (Query q) = inl error
                end)
  | inl error => Legacy._entitySync e order logging tr = (tr, inl error)
  end.
Proof.
  destruct (Legacy.changes e tr) as [error|result] eqn:Hchanges.
  { unfold Legacy._entitySync. rewrite run_bind. by rewrite Hchanges. }
  intros sql before after sent.
  split_and!.
  - apply NoDup_uniq.
  - intros q. apply elem_of_uniq.
  - intros Hnil. unfold sql in Hnil. apply (proj1 (uniq_eq_nil _)) in Hnil.
    unfold Legacy._entitySync. rewrite run_bind, Hchanges.
    rewrite bool_decide_eq_true_2 by done. reflexivity.
  - intros Hsql.
    assert (_getFlatAndSortedSqlList order result ≠ []) as Hempty.
    { intros Hnil. apply Hsql. unfold sql. by rewrite Hnil. }
    unfold Legacy._entitySync. rewrite run_bind, Hchanges.
    rewrite bool_decide_eq_false_2 by done. fold sql.
    rewrite run_bind.
    assert (when logging (logged Info (Updating e sql)) tr = (tr ++ before, inr tt)) as ->.
    { unfold before. destruct logging; [done|]. unfold when, ret. by rewrite app_nil_r. }
    rewrite run_bind.
    destruct (for_each_query_stops sql (tr ++ before)) as (n & Hn & Htr & Hout).
    fold sent in Htr, Hout.
    exists n. split; [done|].
    destruct (for_each query sql (tr ++ before)) as [tr' [error|rs]]; simpl in Htr, Hout.
    + simpl. destruct Hout as (k & q & -> & Hk & Hall & Hfail).
      exists k, q. split_and!; [done|done| |done|by rewrite app_assoc].
      rewrite Htr, <- app_assoc. do 2 f_equal. unfold sent.
      by rewrite (take_S_r _ _ _ Hk), fmap_app.
    + destruct Hout as (-> & Hlen & Hall). rewrite run_bind.
      assert (when logging (logged Info (Updated e)) tr' = (tr' ++ after, inr tt)) as ->.
      { unfold after. destruct logging; [done|]. unfold when, ret. by rewrite app_nil_r. }
      simpl. split_and!; [done|by exists rs| |done].
      by rewrite Htr, <- !app_assoc.
Qed.

(** ** The categories of the closure-based [sync], one after the other *)

Section legacy_order_facts.

Import Legacy.
Context `{Getters}.

Variable per : entity → list (option Sql).
Hypothesis Hanswered : ∀ tr r, answered tr r.
Hypothesis Hper : ∀ e tr, changes e tr = inr (per e).

Lemma always_all_answered (tr evs : list event) : all_answered tr evs.
Proof using Hanswered. intros pre r post _. apply Hanswered. Qed.

Lemma entitySync_calls (e : entity) (order : option (list jsstring)) (logging : bool)
    (tr : list event) :
  ∃ evs x, _entitySync e order logging tr = (tr ++ evs, inr x)
           ∧ calls evs = Query <$> uniq (_getFlatAndSortedSqlList order (per e)).
Proof using Hanswered Hper.
  destruct (decide (_getFlatAndSortedSqlList order (per e) = [])) as [Hempty|Hsome].
  - exists [], None. unfold _entitySync. rewrite run_bind, Hper.
    rewrite bool_decide_eq_true_2 by done. rewrite Hempty, app_nil_r. done.
  - destruct (entitySync_runs e order logging tr (per e) (Hper e tr) Hsome)
      as (rs & Hrun & _); [apply always_all_answered|].
    eexists _, _. split; [exact Hrun|].
    rewrite !calls_app.
    assert (calls ((λ q, Call (Query q)) <$> uniq (_getFlatAndSortedSqlList order (per e)))
            = Query <$> uniq (_getFlatAndSortedSqlList order (per e))) as ->.
    { apply calls_queries. }
    destruct logging; simpl; by rewrite ?app_nil_r.
Qed.

Lemma syncSeeds_calls (v : dbversion) (tr : list event) :
  ∃ evs x, syncSeeds v tr = (tr ++ evs, inr x)
           ∧ calls evs
             = Query <$> (if _supportSeeds v
                          then uniq (_getFlatAndSortedSqlList None (per Seeds)) else []).
Proof using Hanswered Hper.
  unfold syncSeeds. destruct (_supportSeeds v).
  - destruct (entitySync_calls Seeds None false tr) as (evs & x & Hrun & Hcalls).
    rewrite run_bind, Hrun. destruct x as [results|].
    + rewrite run_bind, run_logged. eexists _, _. rewrite <- app_assoc. split; [done|].
      rewrite calls_app, Hcalls. simpl. by rewrite app_nil_r.
    + by eexists _, _.
  - rewrite run_bind, run_logged. by eexists _, _.
Qed.

Lemma syncFinish_calls (transaction : bool) (queries : list bool) (tr : list event) :
  ∃ evs, syncFinish transaction queries tr = (tr ++ evs, inr tt)
         ∧ calls evs = (if transaction then [Query (str "commit")] else []) ++ [End].
Proof using Hanswered.
  unfold syncFinish. rewrite run_bind.
  set (note := if bool_decide (List.filter id queries = [])
               then [Logged Info NoUpdateNeeded] else []).
  assert (when (bool_decide (List.filter id queries = [])) (logged Info NoUpdateNeeded) tr
          = (tr ++ note, inr tt)) as ->.
  { unfold note. case_bool_decide; [done|]. unfold when, ret. by rewrite app_nil_r. }
  rewrite run_bind. unfold query. rewrite run_when_calls by (intros _; apply Hanswered).
  rewrite run_bind, run_logged. rewrite run_discard_call by apply Hanswered.
  eexists. rewrite <- !app_assoc. split; [done|].
  rewrite !calls_app. unfold note. case_bool_decide; destruct transaction; done.
Qed.

Lemma syncBody_calls (transaction : bool) (v : dbversion) (tr : list event) :
  ∃ evs, syncBody transaction v tr = (tr ++ evs, inr tt)
         ∧ calls evs
           = (Query <$> (uniq (_getFlatAndSortedSqlList None (per Sequences))
                         ++ uniq (_getFlatAndSortedSqlList None (per Tables))
                         ++ uniq (_getFlatAndSortedSqlList (Some extensionsOrder)
                                    (per Extensions))
                         ++ (if _supportSeeds v
                             then uniq (_getFlatAndSortedSqlList None (per Seeds)) else [])
                         ++ uniq (_getFlatAndSortedSqlList None (per SequenceValues))))
             ++ (if transaction then [Query (str "commit")] else []) ++ [End].
Proof using Hanswered Hper.
  unfold syncBody.
  destruct (entitySync_calls Sequences None true tr) as (evs1 & x1 & Hrun1 & Hcalls1).
  rewrite run_bind, Hrun1.
  destruct (entitySync_calls Tables None true (tr ++ evs1))
    as (evs2 & x2 & Hrun2 & Hcalls2).
  rewrite run_bind, Hrun2.
  destruct (entitySync_calls Extensions (Some extensionsOrder) true ((tr ++ evs1) ++ evs2))
    as (evs3 & x3 & Hrun3 & Hcalls3).
  rewrite run_bind, Hrun3. unfold syncRest.
  destruct (syncSeeds_calls v (((tr ++ evs1) ++ evs2) ++ evs3))
    as (evs4 & x4 & Hrun4 & Hcalls4).
  rewrite run_bind, Hrun4.
  destruct (entitySync_calls SequenceValues None true
              ((((tr ++ evs1) ++ evs2) ++ evs3) ++ evs4))
    as (evs5 & x5 & Hrun5 & Hcalls5).
  rewrite run_bind, Hrun5.
  destruct (syncFinish_calls transaction
              (([bool_decide (is_Some x1); bool_decide (is_Some x2);
                 bool_decide (is_Some x3)] ++ x4) ++ [bool_decide (is_Some x5)])
              (((((tr ++ evs1) ++ evs2) ++ evs3) ++ evs4) ++ evs5))
    as (evs6 & Hrun6 & Hcalls6).
  rewrite Hrun6.
  exists (evs1 ++ evs2 ++ evs3 ++ evs4 ++ evs5 ++ evs6).
  split; [by rewrite <- !app_assoc|].
  rewrite !calls_app, Hcalls1, Hcalls2, Hcalls3, Hcalls4, Hcalls5, Hcalls6.
  rewrite !fmap_app. by rewrite <- !app_assoc.
Qed.

End legacy_order_facts.

(** X19. On a server that answers every request, with getters that do not
    fail, the closure-based [sync] returns, and what it sends is, in this
    order: the version query, [begin] (unless the transaction is off), the
    statements of the sequences, of the tables, of the extensions (in their
    priority order), of the seeds (when the version supports them) and of
    the sequence values, each category without repeated texts, then [commit]
    (unless the transaction is off), and last the end of the connection. *)
Theorem sync_categories_in_order (Srv : Server) (G : Legacy.Getters) (options : object)
    (tr : list event) (resp : response) (per : entity → list (option Sql)) :
  (∀ tr r, answered tr r) →
  (∀ e tr, Legacy.changes e tr = inr (per e)) →
  reply tr (Query (str "select version()")) = inr resp →
  let t := Legacy.transactionOption options in
  let statements e order := uniq (_getFlatAndSortedSqlList order (per e)) in
  (Legacy.sync options tr).2 = inr tt
  ∧ calls (Legacy.sync options tr).1
    = calls tr ++ [Query (str "select version()")]
        ++ (if t then [Query (str "begin")] else [])
        ++ (Query <$> (statements Sequences None
                       ++ statements Tables None
                       ++ statements Extensions (Some extensionsOrder)
                       ++ (if Legacy._supportSeeds (Legacy.versionOf resp)
                           then statements Seeds None else [])
                       ++ statements SequenceValues None))
        ++ (if t then [Query (str "commit")] else []) ++ [End].
Proof.
  intros Hanswered Hper Hversion t statements.
  rewrite (sync_prelude_run options tr resp Hversion)
    by apply (always_all_answered Hanswered).
  fold t. unfold try_catch.
  destruct (syncBody_calls per Hanswered Hper t (Legacy.versionOf resp)
              (tr ++ Legacy.syncPrelude t (Legacy.versionOf resp)))
    as (evs & Hrun & Hcalls).
  rewrite Hrun. split; [done|]. cbn [fst].
  rewrite !calls_app, Hcalls. unfold Legacy.syncPrelude, statements.
  rewrite calls_app. destruct t; simpl; by rewrite <- ?app_assoc.
Qed.

Lemma sync_categories_in_order_witness :
  (@Legacy.sync _ (Examples.getters_of (Examples.picky_server []) Examples.some_changes)
     [] []).2 = inr tt
  ∧ calls (@Legacy.sync _
             (Examples.getters_of (Examples.picky_server []) Examples.some_changes)
             [] []).1
    = [ Query (str "select version()"); Query (str "begin");
        Query (str "create sequence s"); Query (str "create table t");
        Query (str "drop fk"); Query (str "add unique u"); Query (str "insert seed");
        Query (str "commit"); End ].
Proof.
  exact (sync_categories_in_order (Examples.picky_server [])
           (Examples.getters_of (Examples.picky_server []) Examples.some_changes)
           [] [] tt Examples.some_changes
           (λ _ _, ex_intro _ tt eq_refl) (λ _ _, eq_refl) eq_refl).
Defined.

(** ** Names stay registered *)

Section registry_order_facts.

Context {V : Type}.
Implicit Types (m : entries V) (k : jsstring) (v : V).

Lemma keys_set_prefix m k v : keys m `prefix_of` keys (set k v m).
Proof.
  destruct (decide (k ∈ keys m)) as [Hin|Hout].
  - by rewrite keys_set_present.
  - rewrite keys_set_absent by done. by apply prefix_app_r.
Qed.

Lemma elem_of_keys_set m k v : k ∈ keys (set k v m).
Proof.
  destruct (decide (k ∈ keys m)) as [Hin|Hout].
  - by rewrite keys_set_present.
  - rewrite keys_set_absent by done. apply elem_of_app. right. apply elem_of_cons. by left.
Qed.

Lemma keys_set_all_prefix {A : Type} (f : A → jsstring) (g : A → V) (l : list A) m :
  keys m `prefix_of` keys (foldl (λ acc a, set (f a) (g a) acc) m l).
Proof.
  induction l as [|a l IH] using rev_ind; [done|].
  rewrite foldl_app. simpl. etrans; [exact IH|]. apply keys_set_prefix.
Qed.

Lemma elem_of_keys_set_all {A : Type} (f : A → jsstring) (g : A → V) (l : list A) m (a : A) :
  a ∈ l → f a ∈ keys (foldl (λ acc a, set (f a) (g a) acc) m l).
Proof.
  induction l as [|b l IH] using rev_ind; intros Hin; [by apply elem_of_nil in Hin|].
  rewrite foldl_app. simpl.
  apply elem_of_app in Hin as [Hin|Hin].
  - eapply elem_of_prefix; [by apply IH|apply keys_set_prefix].
  - apply list_elem_of_singleton in Hin as ->. apply elem_of_keys_set.
Qed.

End registry_order_facts.

Section registry_kept_facts.

Lemma differ_define_prefix `{Differ.Controllers} (type : jsstring)
    (props : Differ.properties) (objects : entries Differ.controller) :
  keys objects `prefix_of` keys (Differ.define type props objects).1.
Proof.
  unfold Differ.define. destruct (Differ._createObject type props); [done|].
  apply keys_set_prefix.
Qed.

Lemma differ_defined_prefix `{Differ.Controllers}
    (calls more : list (jsstring * Differ.properties)) :
  keys (Differ.defined calls) `prefix_of` keys (Differ.defined (calls ++ more)).
Proof.
  induction more as [|c more IH] using rev_ind; [by rewrite app_nil_r|].
  rewrite app_assoc, defined_snoc. etrans; [exact IH|]. apply differ_define_prefix.
Qed.

Lemma legacy_define_prefix `{LegacyRegistry.Objects} (type : jsstring)
    (props : LegacyRegistry.schema) (r : LegacyRegistry.registries) :
  keys (LegacyRegistry._tables r)
    `prefix_of` keys (LegacyRegistry._tables (LegacyRegistry._define type props r).1.1)
  ∧ keys (LegacyRegistry._sequences r)
      `prefix_of` keys (LegacyRegistry._sequences (LegacyRegistry._define type props r).1.1).
Proof.
  unfold LegacyRegistry._define. repeat case_bool_decide.
  - destruct (LegacyRegistry.new_Table props); [done|]. simpl. split.
    + apply keys_set_prefix.
    + apply (keys_set_all_prefix LegacyRegistry.sequence_name id).
  - destruct (LegacyRegistry.new_Sequence props); [done|]. simpl. split; [done|].
    apply keys_set_prefix.
  - done.
Qed.

Lemma legacy_defined_prefix `{LegacyRegistry.Objects}
    (calls more : list (jsstring * LegacyRegistry.schema)) :
  keys (LegacyRegistry._tables (LegacyRegistry.defined calls))
    `prefix_of` keys (LegacyRegistry._tables (LegacyRegistry.defined (calls ++ more)))
  ∧ keys (LegacyRegistry._sequences (LegacyRegistry.defined calls))
      `prefix_of` keys (LegacyRegistry._sequences (LegacyRegistry.defined (calls ++ more))).
Proof.
  induction more as [|c more [IHt IHs]] using rev_ind; [by rewrite app_nil_r|].
  rewrite app_assoc, legacy_defined_snoc.
  destruct (legacy_define_prefix c.1 c.2 (LegacyRegistry.defined (calls ++ more)))
    as [Ht Hs].
  split; [by etrans|by etrans].
Qed.

End registry_kept_facts.

(** X20. No [define] removes a name from a registry or moves it: the names
    registered so far stay, in the order of their first definition, at the
    front of the names registered later (a [Map] keeps the place of a key
    that is set again).  In the closure-based Differ the sequences that a
    table definition brought along are registered under their own names,
    and they stay registered when the table is defined again without
    them. *)
Theorem registry_names_kept :
  (∀ (C : Differ.Controllers) (calls more : list (jsstring * Differ.properties)),
      keys (Differ.defined calls) `prefix_of` keys (Differ.defined (calls ++ more)))
  ∧ (∀ (O : LegacyRegistry.Objects) (calls more : list (jsstring * LegacyRegistry.schema)),
        keys (LegacyRegistry._tables (LegacyRegistry.defined calls))
          `prefix_of` keys (LegacyRegistry._tables (LegacyRegistry.defined (calls ++ more)))
        ∧ keys (LegacyRegistry._sequences (LegacyRegistry.defined calls))
            `prefix_of`
            keys (LegacyRegistry._sequences (LegacyRegistry.defined (calls ++ more))))
  ∧ (∀ (O : LegacyRegistry.Objects) (calls more : list (jsstring * LegacyRegistry.schema))
       (props : LegacyRegistry.schema) (table : LegacyRegistry.Table)
       (sequences : list LegacyRegistry.SequenceObject) (s : LegacyRegistry.SequenceObject),
        LegacyRegistry.new_Table props = inr table →
        LegacyRegistry._getSequences table = Some sequences →
        s ∈ sequences →
        LegacyRegistry.sequence_name s
        ∈ keys (LegacyRegistry._sequences
                  (LegacyRegistry.defined (calls ++ [(str "table", props)] ++ more)))).
Proof.
  split_and!.
  - intros C calls more. apply differ_defined_prefix.
  - intros O calls more. apply legacy_defined_prefix.
  - intros O calls more props table sequences s Htable Hseqs Hs.
    rewrite app_assoc.
    eapply elem_of_prefix; [|apply legacy_defined_prefix].
    rewrite legacy_defined_snoc. unfold LegacyRegistry._define. cbn [fst snd].
    rewrite bool_decide_eq_true_2 by done. rewrite Htable, Hseqs. cbn [fst snd default].
    cbn [LegacyRegistry._sequences].
    by apply (elem_of_keys_set_all LegacyRegistry.sequence_name id).
Qed.

Lemma registry_names_kept_witness :
  str "users_id_seq"
  ∈ keys (@LegacyRegistry._sequences Examples.named_objects
            (@LegacyRegistry.defined Examples.named_objects
               ([] ++ [(str "table", (str "users", [str "users_id_seq"]))]
                   ++ [(str "table", (str "users", []))]))).
Proof.
  apply (proj2 (proj2 registry_names_kept) Examples.named_objects []
           [(str "table", (str "users", []))] (str "users", [str "users_id_seq"])
           [str "users_id_seq"] [str "users_id_seq"] (str "users_id_seq")).
  - reflexivity.
  - reflexivity.
  - apply elem_of_cons. by left.
Defined.

(** ** The utilities *)

Section find_facts.

Context {A : Type} (p : A → bool).

Lemma find_first (l : list A) (x : A) :
  List.find p l = Some x
  ↔ ∃ l1 l2, l = l1 ++ x :: l2 ∧ p x = true ∧ Forall (λ y, p y = false) l1.
Proof.
  induction l as [|y l IH]; simpl.
  - split; [done|]. intros (l1 & l2 & Hl & _). by destruct l1.
  - destruct (p y) eqn:Hy.
    + split.
      * intros [= ->]. exists [], l. by split_and!.
      * intros (l1 & l2 & Hl & Hx & Hl1). destruct l1 as [|z l1].
        -- by injection Hl as ->.
        -- injection Hl as -> _. apply Forall_cons in Hl1 as [Hz _]. congruence.
    + rewrite IH. split.
      * intros (l1 & l2 & -> & Hx & Hl1). exists (y :: l1), l2.
        split_and!; [done|done|by constructor].
      * intros (l1 & l2 & Hl & Hx & Hl1). destruct l1 as [|z l1].
        -- injection Hl as -> _. congruence.
        -- injection Hl as -> ->. apply Forall_cons in Hl1 as [_ Hl1]. by exists l1, l2.
Qed.

Lemma find_nothing (l : list A) :
  List.find p l = None ↔ Forall (λ y, p y = false) l.
Proof.
  induction l as [|y l IH]; simpl.
  - split; [by constructor|done].
  - destruct (p y) eqn:Hy.
    + split; [done|]. intros [Hy' _]%Forall_cons. congruence.
    + rewrite IH. split; [by constructor|by intros [_ ?]%Forall_cons].
Qed.

Lemma find_ext_local (q : A → bool) (l : list A) :
  (∀ x, p x = q x) → List.find p l = List.find q l.
Proof.
  intros Hext. induction l as [|y l IH]; [done|]. simpl. by rewrite Hext, IH.
Qed.

End find_facts.

(** X21. [findByName] returns the first element of the array that has the
    name asked for or one of the former names; an element with the name
    itself that comes later does not take precedence.  It returns nothing
    exactly when no element has any of these names; former names that are
    absent count as none. *)
Theorem findByName_first {A : Type} (name_of : A → jsstring) (array : list A)
    (name : jsstring) (formerNames : option (list jsstring)) :
  let known el := name_of el = name ∨ name_of el ∈ default [] formerNames in
  (∀ el, findByName name_of array name formerNames = Some el
         ↔ ∃ l1 l2, array = l1 ++ el :: l2 ∧ known el ∧ Forall (λ y, ¬ known y) l1)
  ∧ (findByName name_of array name formerNames = None ↔ Forall (λ y, ¬ known y) array)
  ∧ findByName name_of array name None = findByName name_of array name (Some []).
Proof.
  intros known.
  assert (∀ el, named name_of name formerNames el = true ↔ known el) as Htrue.
  { intros el. unfold named, known. case_bool_decide as Hname.
    - split; [by left|done].
    - destruct formerNames as [names|]; simpl.
      + rewrite bool_decide_eq_true. split; [by right|by intros [?|?]].
      + split; [done|]. intros [?|Hin]; [done|]. by apply elem_of_nil in Hin. }
  assert (∀ el, named name_of name formerNames el = false ↔ ¬ known el) as Hfalse.
  { intros el. rewrite <- Htrue. by destruct (named name_of name formerNames el). }
  split_and!.
  - intros el. unfold findByName. rewrite find_first.
    split; intros (l1 & l2 & Hl & Hel & Hl1); exists l1, l2;
      (split_and!; [done|by apply Htrue|]);
      (eapply Forall_impl; [exact Hl1|]); intros y; by rewrite Hfalse.
  - unfold findByName. rewrite find_nothing.
    split; intros Hall; (eapply Forall_impl; [exact Hall|]); intros y; by rewrite Hfalse.
  - unfold findByName. apply find_ext_local. intros el. unfold named.
    case_bool_decide; [done|]. symmetry. apply bool_decide_eq_false_2, not_elem_of_nil.
Qed.

Lemma findByName_first_witness :
  findByName fst [(str "old", 1%nat); (str "new", 2%nat)] (str "new") (Some [str "old"])
  = Some (str "old", 1%nat).
Proof.
  apply (proj1 (findByName_first fst [(str "old", 1%nat); (str "new", 2%nat)]
                  (str "new") (Some [str "old"]))).
  exists [], [(str "new", 2%nat)]. split_and!; [done| |constructor].
  right. apply elem_of_cons. by left.
Defined.

(** ** Reading a definition back *)

Section read_facts.

Context `{Readers}.

Lemma run_discard_call_fails (r : request) (tr : list event) (e : exn) :
  reply tr r = inl e → discard (call r) tr = (tr ++ [Call r], inl e).
Proof. intros Hr. unfold discard, call, bind. by rewrite Hr. Qed.

Lemma run_settle {A : Type} (o : outcome A) (tr : list event) : settle o tr = (tr, o).
Proof. done. Qed.

Lemma read_run (type : jsstring) (options : reading) (tr : list event)
    (settled : outcome (option read_properties)) :
  answered tr (Query (str "begin")) →
  readByType type options (tr ++ [Call (Query (str "begin"))])
  = (tr ++ [Call (Query (str "begin"))], settled) →
  let began := tr ++ [Call (Query (str "begin"))] in
  match settled with
  | inr properties =>
      answered began (Query (str "commit")) →
      answered (began ++ [Call (Query (str "commit"))]) End →
      _read type options tr
      = (began ++ [Call (Query (str "commit")); Call End], inr properties)
  | inl error =>
      answered began (Query (str "rollback")) →
      answered (began ++ [Call (Query (str "rollback"))]) End →
      _read type options tr
      = (began ++ [Call (Query (str "rollback")); Call End], inl error)
  end.
Proof.
  intros Hbegin Hread began. unfold _read.
  rewrite run_bind. unfold query. rewrite run_discard_call by done. fold began.
  unfold try_catch. rewrite run_bind. fold began in Hread. rewrite Hread.
  destruct settled as [error|properties].
  - intros Hrollback Hend.
    rewrite run_bind, run_discard_call by done.
    rewrite run_bind, run_discard_call by done.
    unfold throw. by rewrite <- app_assoc.
  - intros Hcommit Hend.
    rewrite run_bind, run_discard_call by done.
    rewrite run_bind, run_discard_call by done.
    unfold ret. by rewrite <- app_assoc.
Qed.

End read_facts.

(** X22. [_read] of the closure-based Differ sends [begin] before it looks
    at the type or validates the options.  For a type other than ['table']
    and ['sequence'] it validates and reads nothing, commits, ends the
    connection and returns [undefined].  A validation that throws is rolled
    back, the connection is ended and the error thrown again.  When [begin]
    itself fails, nothing else is sent; when [commit] fails, [rollback] and
    the end of the connection follow. *)
Theorem read_in_transaction (Srv : Server) (R : Readers) (type : jsstring)
    (options : reading) (tr : list event) :
  let began := tr ++ [Call (Query (str "begin"))] in
  (∀ e, reply tr (Query (str "begin")) = inl e → _read type options tr = (began, inl e))
  ∧ (type ≠ str "table" → type ≠ str "sequence" →
     answered tr (Query (str "begin")) →
     answered began (Query (str "commit")) →
     answered (began ++ [Call (Query (str "commit"))]) End →
     _read type options tr = (began ++ [Call (Query (str "commit")); Call End], inr None))
  ∧ (∀ e, type = str "table" →
          validate_tableReading options = inl e →
          answered tr (Query (str "begin")) →
          answered began (Query (str "rollback")) →
          answered (began ++ [Call (Query (str "rollback"))]) End →
          _read type options tr
          = (began ++ [Call (Query (str "rollback")); Call End], inl e))
  ∧ (∀ properties, type = str "table" →
          validate_tableReading options = inr tt →
          Table_read options began = inr properties →
          answered tr (Query (str "begin")) →
          answered began (Query (str "commit")) →
          answered (began ++ [Call (Query (str "commit"))]) End →
          _read type options tr
          = (began ++ [Call (Query (str "commit")); Call End], inr (Some properties)))
  ∧ (∀ e settled, 
          readByType type options began = (began, inr settled) →
          answered tr (Query (str "begin")) →
          reply began (Query (str "commit")) = inl e →
          answered (began ++ [Call (Query (str "commit"))]) (Query (str "rollback")) →
          answered (began ++ [Call (Query (str "commit")); Call (Query (str "rollback"))])
            End →
          _read type options tr
          = (began ++ [ Call (Query (str "commit")); Call (Query (str "rollback"));
                        Call End ], inl e)).
Proof.
  intros began. split_and!.
  - intros e Hbegin. unfold _read. rewrite run_bind. unfold query.
    by rewrite (run_discard_call_fails _ _ e).
  - intros Htable Hsequence Hbegin Hcommit Hend.
    apply (read_run type options tr (inr None)); try done.
    unfold readByType. by rewrite !bool_decide_eq_false_2.
  - intros e -> Hvalidate Hbegin Hrollback Hend.
    apply (read_run (str "table") options tr (inl e)); try done.
    unfold readByType. rewrite bool_decide_eq_true_2 by done.
    rewrite run_bind, run_settle. by rewrite Hvalidate.
  - intros properties -> Hvalidate Hread Hbegin Hcommit Hend.
    apply (read_run (str "table") options tr (inr (Some properties))); try done.
    unfold readByType. rewrite bool_decide_eq_true_2 by done.
    rewrite run_bind, run_settle, Hvalidate. rewrite run_bind. fold began.
    by rewrite Hread.
  - intros e settled Hread Hbegin Hcommit Hrollback Hend. unfold _read.
    rewrite run_bind. unfold query. rewrite run_discard_call by done. fold began.
    unfold try_catch. rewrite run_bind, Hread.
    rewrite run_bind, (run_discard_call_fails _ _ e) by done.
    rewrite run_bind, run_discard_call by done.
    rewrite run_bind, run_discard_call by (by rewrite <- app_assoc).
    unfold throw. by rewrite <- !app_assoc.
Qed.

Lemma read_in_transaction_witness :
  @_read _ (Examples.readers (Examples.picky_server [])) (str "view") (str "v") []
  = ([] ++ [Call (Query (str "begin"))] ++ [Call (Query (str "commit")); Call End],
     inr None).
Proof.
  apply (proj1 (proj2 (read_in_transaction (Examples.picky_server [])
                         (Examples.readers (Examples.picky_server []))
                         (str "view") (str "v") []))).
  - by vm_compute.
  - by vm_compute.
  - by exists tt.
  - by exists tt.
  - by exists tt.
Defined.

(** ** The version text *)

Section version_facts.

Lemma version_body (m : jsstring) :
  matches (body versionPattern) m = true
  ↔ ∃ d1 x d2, m = d1 ++ x :: d2
               ∧ d1 ≠ [] ∧ Forall (λ c, is_digit c = true) d1
               ∧ is_any x = true
               ∧ d2 ≠ [] ∧ Forall (λ c, is_digit c = true) d2.
Proof.
  rewrite matches_lang. unfold versionPattern. cbn [body]. split.
  - intros (d1 & s2 & -> & [Hne1 Hd1]%lang_plus_cls & Hs2)%lang_cat_inv.
    apply lang_cat_inv in Hs2 as (s3 & d2 & -> & Hx & [Hne2 Hd2]%lang_plus_cls).
    apply lang_cls_inv in Hx as (x & -> & Hx). by exists d1, x, d2.
  - intros (d1 & x & d2 & -> & Hne1 & Hd1 & Hx & Hne2 & Hd2).
    apply lang_cat; [by apply lang_plus_cls|].
    change (x :: d2) with ([x] ++ d2). apply lang_cat; [by apply lang_cls|].
    by apply lang_plus_cls.
Qed.

Lemma digits_lookup (d : jsstring) (i : nat) (c : N) :
  Forall (λ c, is_digit c = true) d → d !! i = Some c → is_digit c = true.
Proof.
  intros Hd Hi. rewrite Forall_forall in Hd. apply Hd. by eapply list_elem_of_lookup_2.
Qed.

Lemma exec_version (pre major minor rest : jsstring) (sep : N) :
  Forall (λ c, is_digit c = false) pre →
  major ≠ [] → Forall (λ c, is_digit c = true) major →
  is_digit sep = false → is_any sep = true →
  minor ≠ [] → Forall (λ c, is_digit c = true) minor →
  (∀ c, head rest = Some c → is_digit c = false) →
  exec versionPattern (pre ++ (major ++ sep :: minor) ++ rest)
  = Some (pre, major ++ sep :: minor, rest).
Proof.
  intros Hpre Hne1 Hmajor Hsep Hany Hne2 Hminor Hrest.
  assert (matches (body versionPattern) (major ++ sep :: minor)
            && ahead versionPattern rest = true) as Hok.
  { apply andb_true_iff. split; [|done]. apply version_body. by exists major, sep, minor. }
  pose proof (exec_first versionPattern (pre ++ (major ++ sep :: minor) ++ rest)) as Hfirst.
  destruct (exec versionPattern (pre ++ (major ++ sep :: minor) ++ rest))
    as [[[pre' m] rest']|] eqn:Hexec.
  2: { specialize (Hfirst pre (major ++ sep :: minor) rest eq_refl). simpl in *. congruence. }
  destruct Hfirst as (Hs & _ & Hm & _ & Hmin).
  specialize (Hmin pre (major ++ sep :: minor) rest eq_refl Hok).
  apply version_body in Hm as (d1 & x & d2 & -> & Hd1ne & Hd1 & Hx & Hd2ne & Hd2).
  (* the match starts where the digits start *)
  assert (length pre' = length pre) as Hlen.
  { destruct (decide (length pre' = length pre)) as [|Hlt]; [done|]. exfalso.
    destruct d1 as [|c d1]; [done|]. apply Forall_cons in Hd1 as [Hc _].
    assert (pre !! length pre' = Some c) as Hat.
    { rewrite <- (lookup_app_l pre ((major ++ sep :: minor) ++ rest)) by lia.
      rewrite Hs. change (((c :: d1) ++ x :: d2) ++ rest') with (c :: (d1 ++ x :: d2) ++ rest').
      by rewrite list_lookup_middle. }
    rewrite Forall_forall in Hpre. rewrite (Hpre c) in Hc; [done|].
    by eapply list_elem_of_lookup_2. }
  symmetry in Hs. destruct (same_length_split _ _ _ _ Hs Hlen) as [-> Htail].
  pose proof (exec_longest _ _ _ _ _ Hexec (major ++ sep :: minor) rest Htail Hok)
    as Hlong.
  rewrite !length_app in Hlong. simpl in Hlong.
  (* the first character that is not a digit is the separator *)
  assert (length d1 = length major) as Hlen1.
  { assert (((d1 ++ x :: d2) ++ rest') !! length major = Some sep) as Hat.
    { rewrite Htail, <- app_assoc. cbn [app]. by rewrite list_lookup_middle. }
    rewrite lookup_app_l in Hat by (rewrite length_app; simpl; lia).
    destruct (decide (length major < length d1)%nat) as [Hlt|Hge].
    { rewrite lookup_app_l in Hat by lia.
      pose proof (digits_lookup _ _ _ Hd1 Hat). congruence. }
    destruct (decide (length major = length d1)) as [|Hne]; [done|]. exfalso.
    rewrite lookup_app_r in Hat by lia.
    destruct (length major - length d1)%nat as [|k] eqn:Hk; [lia|].
    simpl in Hat. pose proof (digits_lookup _ _ _ Hd2 Hat). congruence. }
  rewrite <- !app_assoc in Htail.
  destruct (same_length_split _ _ _ _ Htail Hlen1) as [-> Htail'].
  injection Htail' as -> Htail'.
  assert (length d2 = length minor) as Hlen2.
  { destruct (decide (length d2 = length minor)) as [|Hne]; [done|]. exfalso.
    assert (length minor < length d2)%nat as Hlt by lia.
    assert ((d2 ++ rest') !! length minor = head rest) as Hat.
    { rewrite Htail'. rewrite lookup_app_r by lia.
      replace (length minor - length minor)%nat with 0%nat by lia. by destruct rest. }
    rewrite lookup_app_l in Hat by lia.
    destruct (d2 !! length minor) as [c|] eqn:Hc.
    - pose proof (digits_lookup _ _ _ Hd2 Hc) as Hdigit.
      rewrite (Hrest c) in Hdigit; done.
    - apply lookup_ge_None in Hc. lia. }
  destruct (same_length_split _ _ _ _ Htail' Hlen2) as [-> ->]. done.
Qed.

Lemma exec_version_none (version : jsstring) :
  Forall (λ c, is_digit c = false) version → exec versionPattern version = None.
Proof.
  intros Hall.
  pose proof (exec_first versionPattern version) as Hfirst.
  destruct (exec versionPattern version) as [[[pre m] rest]|]; [|done].
  destruct Hfirst as (Hs & _ & Hm & _). exfalso.
  apply version_body in Hm as (d1 & x & d2 & -> & Hne & Hd1 & _).
  destruct d1 as [|c d1]; [done|]. apply Forall_cons in Hd1 as [Hc _].
  rewrite Forall_forall in Hall. rewrite (Hall c) in Hc; [done|].
  rewrite Hs. apply elem_of_app. right. apply elem_of_cons. by left.
Qed.

End version_facts.

(** X23. The version that [_getDatabaseVersion] hands to [Number] is the
    first run of digits of the version text that is followed by one more
    character and a second run of digits, with that character and the
    whole second run; the character between the two runs need not be a
    dot.  A text without a digit gives no match, and so the version
    [null]. *)
Theorem versionText_first_number (pre major minor rest : jsstring) (sep : N) :
  Forall (λ c, is_digit c = false) pre →
  major ≠ [] → Forall (λ c, is_digit c = true) major →
  is_digit sep = false → is_any sep = true →
  minor ≠ [] → Forall (λ c, is_digit c = true) minor →
  (∀ c, head rest = Some c → is_digit c = false) →
  versionText (pre ++ (major ++ sep :: minor) ++ rest) = Some (major ++ sep :: minor)
  ∧ (∀ version, Forall (λ c, is_digit c = false) version → versionText version = None).
Proof.
  intros Hpre Hne1 Hmajor Hsep Hany Hne2 Hminor Hrest. split.
  - unfold versionText, match0. by rewrite exec_version.
  - intros version Hall. unfold versionText, match0. by rewrite exec_version_none.
Qed.

Lemma versionText_first_number_witness :
  versionText (str "PostgreSQL 9.6.1 on x86_64") = Some (str "9.6")
  ∧ (∀ version, Forall (λ c, is_digit c = false) version → versionText version = None).
Proof.
  apply (versionText_first_number (str "PostgreSQL ") (str "9") (str "6")
           (str ".1 on x86_64") dot).
  - by repeat constructor.
  - done.
  - by repeat constructor.
  - done.
  - done.
  - done.
  - by repeat constructor.
  - by intros c [= <-].
Defined.

(** ** Logging *)

(** X24. The class-based Differ logs nothing when its options have no
    [logging] property or a falsy one other than [undefined]; with
    [logging: undefined] given explicitly the default of the logger takes
    over and lines go to [console.info]; with a function they go to that
    function, and with any other truthy value to [console.info].  A line of
    [info] is the message after ["Postgres Differ :: "], a line of [log] is
    the message itself. *)
Theorem differ_logging_option {function : Type} (message : jsstring) :
  let lines (logging : Logger.property function) :=
    (Logger.info (Logger.differ_logger logging) message,
     Logger.log (Logger.differ_logger logging) message) in
  lines None = ([], [])
  ∧ lines (Some (Logger.Plain Undefined))
    = ([(Logger.console_info, str "Postgres Differ :: " ++ message)],
       [(Logger.console_info, message)])
  ∧ (∀ p, p ≠ Undefined → truthy p = false → lines (Some (Logger.Plain p)) = ([], []))
  ∧ (∀ p, truthy p = true →
       lines (Some (Logger.Plain p))
       = ([(Logger.console_info, str "Postgres Differ :: " ++ message)],
          [(Logger.console_info, message)]))
  ∧ (∀ f, lines (Some (Logger.Function f))
          = ([(Logger.given (Logger.Function f), str "Postgres Differ :: " ++ message)],
             [(Logger.given (Logger.Function f), message)])).
Proof.
  intros lines. split_and!.
  - done.
  - done.
  - intros p Hp Hfalsy. unfold lines, Logger.info, Logger.log, Logger.differ_logger.
    destruct p; try done; simpl in *; by rewrite Hfalsy.
  - intros p Htruthy. unfold lines, Logger.info, Logger.log, Logger.differ_logger.
    destruct p; try done; simpl in *; by rewrite Htruthy.
  - done.
Qed.

(** ** The phases of [_prepare] *)

Section prepare_facts.

Import Prepare.
Context `{Changes}.

Lemma bind_fmap_list {A B C : Type} (f : A → B) (g : B → list C) (l : list A) :
  (f <$> l) ≫= g = l ≫= (λ x, g (f x)).
Proof. induction l as [|x l IH]; [done|]. by rewrite fmap_cons, !bind_cons, IH. Qed.

Lemma bind_bind_list {A B C : Type} (f : A → list B) (g : B → list C) (l : list A) :
  (l ≫= f) ≫= g = l ≫= (λ x, f x ≫= g).
Proof.
  induction l as [|x l IH]; [done|]. by rewrite !bind_cons, bind_app, IH.
Qed.

Lemma all_resolved_concat (settled : list (outcome (list jsstring)))
    (result : list (list jsstring)) :
  all_resolved settled = Some result → concat result = settled ≫= resolved.
Proof.
  unfold all_resolved. rewrite mapM_Some. intros Hall.
  induction Hall as [|o r settled result Ho _ IH]; [done|].
  rewrite bind_cons. simpl. rewrite IH. by destruct o; simplify_eq.
Qed.

Lemma all_resolved_None {A : Type} (settled : list (outcome A)) :
  all_resolved settled = None ↔ ∃ e, inl e ∈ settled.
Proof.
  unfold all_resolved. rewrite mapM_None, Exists_exists. split.
  - intros ([e|a] & Hin & Hx); [by exists e|done].
  - intros [e He]. by exists (inl e).
Qed.

Lemma tables_of_app (l1 l2 : list registered) :
  tables_of (l1 ++ l2) = tables_of l1 ++ tables_of l2.
Proof. unfold tables_of. by rewrite omap_app. Qed.

Lemma sequences_of_app (l1 l2 : list registered) :
  sequences_of (l1 ++ l2) = sequences_of l1 ++ sequences_of l2.
Proof. unfold sequences_of. by rewrite omap_app. Qed.

Lemma tables_of_sequences (ss : list SequenceC) : tables_of (inr <$> ss) = [].
Proof. induction ss as [|s ss IH]; [done|]. rewrite fmap_cons. exact IH. Qed.

Lemma tables_of_tables (ts : list TableC) : tables_of (inl <$> ts) = ts.
Proof.
  induction ts as [|t ts IH]; [done|]. rewrite fmap_cons.
  change (t :: tables_of (inl <$> ts) = t :: ts). by rewrite IH.
Qed.

Lemma sequences_of_tables (ts : list TableC) : sequences_of (inl <$> ts) = [].
Proof. induction ts as [|t ts IH]; [done|]. rewrite fmap_cons. exact IH. Qed.

Lemma sequences_of_sequences (ss : list SequenceC) : sequences_of (inr <$> ss) = ss.
Proof.
  induction ss as [|s ss IH]; [done|]. rewrite fmap_cons.
  change (s :: sequences_of (inr <$> ss) = s :: ss). by rewrite IH.
Qed.

Lemma tables_of_sorted (ss : list SequenceC) (ts : list TableC) :
  tables_of ((inr <$> ss) ++ (inl <$> ts)) = ts
  ∧ sequences_of ((inr <$> ss) ++ (inl <$> ts)) = ss.
Proof.
  rewrite tables_of_app, sequences_of_app.
  rewrite tables_of_sequences, tables_of_tables, sequences_of_tables, sequences_of_sequences.
  by rewrite app_nil_r.
Qed.

End prepare_facts.

(** X25. [_prepare] of the class-based Differ first reads the catalogue for
    the names of the registered tables and of the registered sequences, each
    list in registration order; when that read fails, [_prepare] rejects
    with its error.  Otherwise every controller is asked with the structure
    found under its name, and the statements returned are, in this order:
    those of all sequences; the removals of extensions, table after table
    and within a table foreign keys first, then primary keys, unique, checks
    and indexes; the creations and alterations of all tables; the additions
    of extensions, table after table and within a table in the opposite
    order, indexes first and foreign keys last; and the updates of
    identities.  After a successful read [_prepare] resolves exactly when
    no promise rejects, and else rejects with the error of one of the
    promises that reject.  Tables and sequences each keep the order of their
    registration, but how they are interleaved in the registry does not
    count. *)
Theorem prepare_phases (C : Prepare.Changes) (values : list Prepare.registered) :
  let names_of_tables := Prepare.table_getObjectName <$> Prepare.tables_of values in
  let names_of_sequences :=
    Prepare.sequence_getObjectName <$> Prepare.sequences_of values in
  (∀ error,
      Prepare.find names_of_tables names_of_sequences = inl error →
      Prepare._prepare values = Prepare.FindRejected error)
  ∧ (∀ found,
       Prepare.find names_of_tables names_of_sequences = inr found →
       let of_table t := Prepare.tables_get found (Prepare.table_getObjectName t) in
       let of_sequence s :=
         Prepare.sequences_get found (Prepare.sequence_getObjectName s) in
       (∀ statements,
           Prepare._prepare values = Prepare.Resolved statements →
           statements
           = (Prepare.sequences_of values
                ≫= (λ s, Prepare.resolved (Prepare._getChangeQueries s (of_sequence s))))
             ++ (Prepare.tables_of values
                   ≫= (λ t, [ str "foreignKey"; str "primaryKey"; str "unique";
                              str "check"; str "index" ]
                              ≫= (λ type,
                                    Prepare.resolved
                                      (Prepare._getExtensionCleanupQueries t type
                                         (of_table t)))))
             ++ (Prepare.tables_of values
                   ≫= (λ t, Prepare.resolved
                              (Prepare._getCreateOrAlterTableQueries t (of_table t))))
             ++ (Prepare.tables_of values
                   ≫= (λ t, [ str "index"; str "check"; str "unique";
                              str "primaryKey"; str "foreignKey" ]
                              ≫= (λ type,
                                    Prepare.resolved
                                      (Prepare._getAddExtensionQueries t type
                                         (of_table t)))))
             ++ (Prepare.tables_of values
                   ≫= (λ t, Prepare.resolved
                              (Prepare._getIdentityUpdateQueries t (of_table t)))))
       ∧ ((∃ statements, Prepare._prepare values = Prepare.Resolved statements)
          ↔ ∀ e, inl e ∉ Prepare.promises found values)
       ∧ (∀ errors,
            Prepare._prepare values = Prepare.ChangesRejected errors →
            errors ≠ [] ∧ ∀ e, e ∈ errors ↔ inl e ∈ Prepare.promises found values)
       ∧ (∀ error, Prepare._prepare values ≠ Prepare.FindRejected error))
  ∧ Prepare._prepare values
    = Prepare._prepare ((inr <$> Prepare.sequences_of values)
                          ++ (inl <$> Prepare.tables_of values)).
Proof.
  intros names_of_tables names_of_sequences. split_and!.
  - intros error Hfind. unfold Prepare._prepare.
    fold names_of_tables names_of_sequences. by rewrite Hfind.
  - intros found Hfind of_table of_sequence.
    assert (Prepare._prepare values
            = match Prepare.all_resolved (Prepare.promises found values) with
              | Some result => Prepare.Resolved (concat result)
              | None =>
                  Prepare.ChangesRejected
                    (Prepare.rejections (Prepare.promises found values))
              end) as Hrun.
    { unfold Prepare._prepare. fold names_of_tables names_of_sequences.
      by rewrite Hfind. }
    rewrite Hrun. clear Hrun. split_and!.
    + intros statements.
      destruct (Prepare.all_resolved (Prepare.promises found values))
        as [result|] eqn:Hall; [|done].
      intros [= <-]. rewrite (all_resolved_concat _ _ Hall).
      unfold Prepare.promises. rewrite !bind_app, !bind_fmap_list, !bind_bind_list.
      repeat f_equal.
    + destruct (Prepare.all_resolved (Prepare.promises found values))
        as [result|] eqn:Hall.
      * split; [|by eexists]. intros _ e He.
        assert (Prepare.all_resolved (Prepare.promises found values) = None) as Hnone.
        { apply all_resolved_None. by exists e. }
        by rewrite Hall in Hnone.
      * split; [by intros [? ?]|]. intros Hno.
        apply all_resolved_None in Hall as [e He]. by destruct (Hno e).
    + intros errors.
      destruct (Prepare.all_resolved (Prepare.promises found values))
        as [result|] eqn:Hall; [done|].
      intros [= <-].
      assert (∀ e, e ∈ Prepare.rejections (Prepare.promises found values)
                   ↔ inl e ∈ Prepare.promises found values) as Hin.
      { intros e. unfold Prepare.rejections. rewrite list_elem_of_omap. split.
        - intros ([e'|a] & Hx & [= ->]). exact Hx.
        - intros Hx. by exists (inl e). }
      split; [|exact Hin].
      apply all_resolved_None in Hall as [e He]. apply Hin in He.
      intros Hnil. rewrite Hnil in He. by apply elem_of_nil in He.
    + intros error. by destruct (Prepare.all_resolved (Prepare.promises found values)).
  - unfold Prepare._prepare, Prepare.promises.
    by destruct (tables_of_sorted (Prepare.sequences_of values) (Prepare.tables_of values))
      as [-> ->].
Qed.

Lemma prepare_phases_witness :
  @Prepare._prepare Examples.named_changes [inl (str "t"); inr (str "s")]
  = Prepare.Resolved
      [ str "alter sequence s"; str "drop foreign keys of t"; str "create table t";
        str "create index on t" ]
  ∧ @Prepare._prepare Examples.named_changes [inl (str "t"); inr (str "s")]
    = @Prepare._prepare Examples.named_changes ([inr (str "s")] ++ [inl (str "t")])
  ∧ @Prepare._prepare Examples.named_changes [inl (str "locked"); inr (str "s")]
    = Prepare.FindRejected (DatabaseError 55).
Proof.
  split; [reflexivity|]. split.
  - exact (proj2 (proj2 (prepare_phases Examples.named_changes
                           [inl (str "t"); inr (str "s")]))).
  - apply (proj1 (prepare_phases Examples.named_changes
                    [inl (str "locked"); inr (str "s")])).
    reflexivity.
Defined.

(** ** Extensions declared on columns *)

Section column_extension_facts.

Lemma groupBy_snoc {A : Type} (f : A → jsstring) (l : list A) (x : A) :
  groupBy f (l ++ [x])
  = set (f x) (default [] (lookup (f x) (groupBy f l)) ++ [x]) (groupBy f l).
Proof. unfold groupBy. by rewrite foldl_app. Qed.

Lemma groupBy_lookup {A : Type} (f : A → jsstring) (l : list A) (k : jsstring) :
  lookup k (groupBy f l)
  = match filter (λ x, f x = k) l with
    | [] => None
    | group => Some group
    end.
Proof.
  induction l as [|x l IH] using rev_ind; [done|].
  rewrite groupBy_snoc, filter_app.
  destruct (decide (f x = k)) as [Hx|Hx].
  - rewrite Hx, lookup_set_eq, IH.
    rewrite (filter_cons_True (λ x, f x = k)) by done. rewrite filter_nil.
    by destruct (filter (λ x, f x = k) l).
  - rewrite lookup_set_ne by done. rewrite IH.
    rewrite (filter_cons_False (λ x, f x = k)) by done. by rewrite filter_nil, app_nil_r.
Qed.

Lemma foldl_ext_local {A B : Type} (f g : A → B → A) (a : A) (l : list B) :
  (∀ acc x, f acc x = g acc x) → foldl f a l = foldl g a l.
Proof.
  intros Hext. revert a. induction l as [|x l IH]; intros a; [done|].
  simpl. by rewrite Hext, IH.
Qed.

Lemma pick_present (names : list jsstring) (o : object) :
  NoDup names →
  pick names o
  = (λ k, (k, get o k)) <$> List.filter (λ k, bool_decide (is_Some (lookup k o))) names.
Proof.
  intros Hnd. unfold pick.
  transitivity (foldl (λ acc key, if bool_decide (is_Some (lookup key o))
                                  then set key (get o key) acc else acc) [] names).
  - apply foldl_ext_local. intros acc k. unfold get.
    destruct (lookup k o) as [v|] eqn:Hk.
    + by rewrite bool_decide_eq_true_2.
    + rewrite bool_decide_eq_false_2; [done|]. by intros [? ?].
  - exact (difference_fold (λ k, bool_decide (is_Some (lookup k o))) (get o) names []
             Hnd (λ k _, not_elem_of_nil k)).
Qed.

Lemma bool_decide_ext_if {A : Type} (P Q : Prop) `{Decision P, Decision Q} (a b : A) :
  (P ↔ Q) → (if bool_decide P then a else b) = (if bool_decide Q then a else b).
Proof. intros HPQ. by rewrite (bool_decide_ext P Q). Qed.

Lemma foldl_app_bind {A B : Type} (f : A → list B) (acc : list B) (l : list A) :
  foldl (λ acc x, acc ++ f x) acc l = acc ++ (l ≫= f).
Proof.
  revert acc. induction l as [|x l IH]; intros acc; simpl.
  - by rewrite app_nil_r.
  - by rewrite IH, <- app_assoc.
Qed.

Lemma filter_bind {A B : Type} (P : B → Prop) `{∀ x, Decision (P x)}
    (f : A → list B) (l : list A) :
  filter P (l ≫= f) = l ≫= (λ x, filter P (f x)).
Proof.
  induction l as [|x l IH]; [done|]. by rewrite !bind_cons, filter_app, IH.
Qed.

Lemma flagged_filter (column : object) (type : jsstring) (names : list jsstring) :
  NoDup names →
  filter (λ x, ext_type x = type)
    (omap (λ e : jsstring * prim,
             let '(type, value) := e in
             if bool_decide (value = Bool true)
             then Some {| ext_type := type; ext_columns := [get column (str "name")] |}
             else None)
          ((λ k, (k, get column k))
             <$> List.filter (λ k, bool_decide (is_Some (lookup k column))) names))
  = if bool_decide (type ∈ names ∧ lookup type column = Some (Bool true))
    then [ {| ext_type := type; ext_columns := [get column (str "name")] |} ]
    else [].
Proof.
  induction names as [|k names IH]; intros Hnd.
  - rewrite bool_decide_eq_false_2; [done|]. intros [Hin _]. by apply elem_of_nil in Hin.
  - apply NoDup_cons in Hnd as [Hk Hnd]. specialize (IH Hnd).
    assert (k = type → 
            filter (λ x, ext_type x = type)
              (omap (λ e : jsstring * prim,
                       let '(type, value) := e in
                       if bool_decide (value = Bool true)
                       then Some {| ext_type := type;
                                    ext_columns := [get column (str "name")] |}
                       else None)
                 ((λ k, (k, get column k))
                    <$> List.filter (λ k, bool_decide (is_Some (lookup k column))) names))
            = []) as Hfresh.
    { intros ->. rewrite IH. rewrite bool_decide_eq_false_2; [done|]. by intros [? _]. }
    assert (get column k = Bool true ↔ lookup k column = Some (Bool true)) as Hget.
    { unfold get. destruct (lookup k column); simpl; split; congruence. }
    assert (k ≠ type →
            (type ∈ k :: names ∧ lookup type column = Some (Bool true))
            ↔ (type ∈ names ∧ lookup type column = Some (Bool true))) as Hne.
    { intros Hk'. rewrite elem_of_cons. split.
      - intros [[?|?] ?]; [congruence|done].
      - intros [? ?]. split; [by right|done]. }
    cbn [List.filter].
    destruct (bool_decide (is_Some (lookup k column))) eqn:Hsome;
      [apply bool_decide_eq_true in Hsome|apply bool_decide_eq_false in Hsome].
    + rewrite fmap_cons. cbn [omap list_omap].
      destruct (bool_decide (get column k = Bool true)) eqn:Hv;
        [apply bool_decide_eq_true in Hv|apply bool_decide_eq_false in Hv].
      * destruct (decide (k = type)) as [->|Hk'].
        -- rewrite filter_cons_True by done. rewrite Hfresh by done.
           rewrite bool_decide_eq_true_2; [done|].
           split; [apply elem_of_cons; by left|by apply Hget].
        -- rewrite filter_cons_False by done. rewrite IH.
           apply bool_decide_ext_if. symmetry. by apply Hne.
      * destruct (decide (k = type)) as [->|Hk'].
        -- rewrite Hfresh by done. rewrite bool_decide_eq_false_2; [done|].
           intros [_ Htrue]. by apply Hv, Hget.
        -- rewrite IH. apply bool_decide_ext_if. symmetry. by apply Hne.
    + destruct (decide (k = type)) as [->|Hk'].
      * rewrite Hfresh by done. rewrite bool_decide_eq_false_2; [done|].
        intros [_ Htrue]. apply Hsome. by rewrite Htrue.
      * rewrite IH. apply bool_decide_ext_if. symmetry. by apply Hne.
Qed.

End column_extension_facts.

(** X26. The extensions that columns declare: under a variant, one extension
    of that variant on the single column for every column whose property of
    that name is exactly [true], in the order of the columns; a variant that
    no column declares has no entry, and a property that is not one of
    [COLUMNS.EXTENSIONS] declares nothing. *)
Theorem extensions_from_columns (COLUMNS_EXTENSIONS : list jsstring)
    (columns : list object) (type : jsstring) :
  NoDup COLUMNS_EXTENSIONS →
  lookup type (_getExtensionsFromColumns COLUMNS_EXTENSIONS columns)
  = match columns ≫= (λ column,
            if bool_decide (type ∈ COLUMNS_EXTENSIONS
                            ∧ lookup type column = Some (Bool true))
            then [ {| ext_type := type; ext_columns := [get column (str "name")] |} ]
            else []) with
    | [] => None
    | declared => Some declared
    end.
Proof.
  intros Hnd. unfold _getExtensionsFromColumns.
  rewrite groupBy_lookup, foldl_app_bind. cbn [app]. rewrite filter_bind.
  assert (∀ column,
            filter (λ x, ext_type x = type) (column_extensions COLUMNS_EXTENSIONS column)
            = if bool_decide (type ∈ COLUMNS_EXTENSIONS
                              ∧ lookup type column = Some (Bool true))
              then [ {| ext_type := type; ext_columns := [get column (str "name")] |} ]
              else []) as Hcolumn.
  { intros column. unfold column_extensions. rewrite pick_present by done.
    by apply flagged_filter. }
  by rewrite (bind_ext_in _ _ columns (λ column _, Hcolumn column)).
Qed.


Lemma extensions_from_columns_witness :
  lookup (str "unique")
    (_getExtensionsFromColumns [str "unique"; str "primaryKey"]
       [ [(str "name", Str (str "id")); (str "primaryKey", Bool true)];
         [(str "name", Str (str "email")); (str "unique", Bool true)];
         [(str "name", Str (str "nick")); (str "unique", Str (str "true"))] ])
  = Some [ {| ext_type := str "unique"; ext_columns := [Str (str "email")] |} ].
Proof.
  exact (extensions_from_columns [str "unique"; str "primaryKey"]
           [ [(str "name", Str (str "id")); (str "primaryKey", Bool true)];
             [(str "name", Str (str "email")); (str "unique", Bool true)];
             [(str "name", Str (str "nick")); (str "unique", Str (str "true"))] ]
           (str "unique")
           ltac:(apply (bool_decide_unpack _); by vm_compute)).
Defined.

(** ** What a run never sends *)

Section only_calls_facts.

Context `{Server}.
Variable P : request → Prop.

Lemma only_calls_ret {A : Type} (a : A) : only_calls P (ret a).
Proof.
  intros tr. exists []. rewrite app_nil_r. split; [done|].
  intros r Hr. by apply elem_of_nil in Hr.
Qed.

Lemma only_calls_throw {A : Type} (e : exn) : only_calls P (@throw A e).
Proof.
  intros tr. exists []. rewrite app_nil_r. split; [done|].
  intros r Hr. by apply elem_of_nil in Hr.
Qed.

Lemma only_calls_pure {A : Type} (f : list event → outcome A) :
  only_calls P (λ tr, (tr, f tr)).
Proof.
  intros tr. exists []. rewrite app_nil_r. split; [done|].
  intros r Hr. by apply elem_of_nil in Hr.
Qed.

Lemma only_calls_logged (l : level) (m : message) : only_calls P (logged l m).
Proof.
  intros tr. exists [Logged l m]. split; [done|].
  intros r Hr. apply list_elem_of_singleton in Hr. done.
Qed.

Lemma only_calls_call (r : request) : P r → only_calls P (call r).
Proof.
  intros Hr tr. exists [Call r]. split; [done|].
  intros r' Hr'. apply list_elem_of_singleton in Hr'. by injection Hr' as ->.
Qed.

Lemma only_calls_bind {A B : Type} (c : M A) (k : A → M B) :
  only_calls P c →
  (∀ a, (∃ tr, (c tr).2 = inr a) → only_calls P (k a)) →
  only_calls P (c ≫= k).
Proof.
  intros Hc Hk tr. destruct (Hc tr) as (evs1 & Htr1 & Hevs1).
  rewrite run_bind. destruct (c tr) as [tr1 [e|a]] eqn:Hrun; simpl in Htr1; subst tr1.
  - by exists evs1.
  - assert (∃ tr, (c tr).2 = inr a) as Hreturned.
    { exists tr. by rewrite Hrun. }
    destruct (Hk a Hreturned (tr ++ evs1)) as (evs2 & Htr2 & Hevs2).
    exists (evs1 ++ evs2). rewrite Htr2, <- app_assoc. split; [done|].
    intros r [Hr|Hr]%elem_of_app; eauto.
Qed.

Lemma only_calls_when (cond : bool) (c : M unit) :
  only_calls P c → only_calls P (when cond c).
Proof. intros Hc. destruct cond; [done|apply only_calls_ret]. Qed.

Lemma only_calls_discard {A : Type} (c : M A) : only_calls P c → only_calls P (discard c).
Proof.
  intros Hc. apply (only_calls_bind c); [done|]. intros _ _. apply only_calls_ret.
Qed.

Lemma only_calls_for_each {A B : Type} (f : A → M B) (l : list A) :
  (∀ x, x ∈ l → only_calls P (f x)) → only_calls P (for_each f l).
Proof.
  induction l as [|x l IH]; intros Hf; [apply only_calls_ret|].
  cbn [for_each]. apply (only_calls_bind (f x)).
  - apply Hf. apply elem_of_cons. by left.
  - intros r _. apply (only_calls_bind (for_each f l)).
    + apply IH. intros y Hy. apply Hf. apply elem_of_cons. by right.
    + intros rs _. apply only_calls_ret.
Qed.

Lemma only_calls_try_catch {A : Type} (c : M A) (handler : exn → M A) :
  only_calls P c → (∀ e, only_calls P (handler e)) → only_calls P (try_catch c handler).
Proof.
  intros Hc Hh tr. destruct (Hc tr) as (evs1 & Htr1 & Hevs1). unfold try_catch.
  destruct (c tr) as [tr1 [e|a]]; simpl in Htr1; subst tr1.
  - destruct (Hh e (tr ++ evs1)) as (evs2 & Htr2 & Hevs2).
    exists (evs1 ++ evs2). rewrite Htr2, <- app_assoc. split; [done|].
    intros r [Hr|Hr]%elem_of_app; eauto.
  - by exists evs1.
Qed.

End only_calls_facts.

Section legacy_never_facts.

Import Legacy.
Context `{Getters}.

Lemma flat_statement (order : option (list jsstring)) (result : list (option Sql))
    (q : jsstring) :
  q ∈ uniq (_getFlatAndSortedSqlList order result) →
  ∃ statement, statement ∈ concat (omap id result) ∧ q = value statement.
Proof.
  rewrite elem_of_uniq. unfold _getFlatAndSortedSqlList.
  intros (statement & -> & Hin)%list_elem_of_fmap. exists statement. split; [|done].
  destruct order as [order|]; [|done].
  by rewrite (sortByList_perm operation order) in Hin.
Qed.

Lemma only_calls_entitySync (e : entity) (order : option (list jsstring)) (logging : bool) :
  only_calls plain_run (_entitySync e order logging).
Proof.
  unfold _entitySync.
  apply (only_calls_bind plain_run (λ tr, (tr, changes e tr))); [apply only_calls_pure|].
  intros result [tr Hresult]. simpl in Hresult.
  case_bool_decide; [apply only_calls_ret|].
  apply (only_calls_bind plain_run (when logging _));
    [apply only_calls_when, only_calls_logged|]. intros _ _.
  apply (only_calls_bind plain_run (for_each query _)).
  - apply only_calls_for_each. intros q Hq. apply only_calls_call.
    destruct (flat_statement order result q Hq) as (statement & Hin & ->).
    right. right. by exists e, tr, result, statement.
  - intros rs _.
    apply (only_calls_bind plain_run (when logging _));
      [apply only_calls_when, only_calls_logged|]. intros _ _. apply only_calls_ret.
Qed.

Lemma only_calls_sync (options : object) :
  transactionOption options = false → only_calls plain_run (sync options).
Proof.
  intros Ht. unfold sync. rewrite Ht.
  apply (only_calls_bind plain_run _getDatabaseVersion).
  { unfold _getDatabaseVersion.
    apply (only_calls_bind plain_run (query _)); [apply only_calls_call; by left|].
    intros r _. apply only_calls_ret. }
  intros v _.
  apply (only_calls_bind plain_run (logged _ _)); [apply only_calls_logged|]. intros _ _.
  apply (only_calls_bind plain_run (logged _ _)); [apply only_calls_logged|]. intros _ _.
  apply (only_calls_bind plain_run (when false _)); [apply only_calls_ret|]. intros _ _.
  apply only_calls_try_catch.
  - unfold syncBody.
    apply (only_calls_bind plain_run (_entitySync _ _ _)); [apply only_calls_entitySync|].
    intros q1 _.
    apply (only_calls_bind plain_run (_entitySync _ _ _)); [apply only_calls_entitySync|].
    intros q2 _.
    apply (only_calls_bind plain_run (_entitySync _ _ _)); [apply only_calls_entitySync|].
    intros q3 _. unfold syncRest.
    apply (only_calls_bind plain_run (syncSeeds v)).
    { unfold syncSeeds. destruct (_supportSeeds v).
      - apply (only_calls_bind plain_run (_entitySync _ _ _)); [apply only_calls_entitySync|].
        intros [results|] _; [|apply only_calls_ret].
        apply (only_calls_bind plain_run (logged _ _)); [apply only_calls_logged|].
        intros _ _. apply only_calls_ret.
      - apply (only_calls_bind plain_run (logged _ _)); [apply only_calls_logged|].
        intros _ _. apply only_calls_ret. }
    intros seeds _.
    apply (only_calls_bind plain_run (_entitySync _ _ _)); [apply only_calls_entitySync|].
    intros q5 _. unfold syncFinish.
    apply (only_calls_bind plain_run (when _ _));
      [apply only_calls_when, only_calls_logged|]. intros _ _.
    apply (only_calls_bind plain_run (when false _)); [apply only_calls_ret|]. intros _ _.
    apply (only_calls_bind plain_run (logged _ _)); [apply only_calls_logged|]. intros _ _.
    apply only_calls_discard, only_calls_call. right. by left.
  - intros e. unfold syncCatch.
    apply (only_calls_bind plain_run (when false _)); [apply only_calls_ret|]. intros _ _.
    apply (only_calls_bind plain_run (discard _)).
    + apply only_calls_discard, only_calls_call. right. by left.
    + intros _ _. apply only_calls_throw.
Qed.

End legacy_never_facts.

(** X27. With the transaction switched off the closure-based [sync] sends
    no [begin], [commit] or [rollback] of its own, on no path: whatever the
    server answers and wherever the run stops, every request it makes is the
    version query, a statement that a getter produced, or the end of the
    connection. *)
Theorem sync_without_transaction (Srv : Server) (G : Legacy.Getters) (options : object)
    (tr : list event) :
  Legacy.transactionOption options = false →
  ∃ evs, (Legacy.sync options tr).1 = tr ++ evs
         ∧ ∀ r, Call r ∈ evs →
             r = Query (str "select version()") ∨ r = End
             ∨ ∃ e tr' result statement,
                 Legacy.changes e tr' = inr result
                 ∧ statement ∈ concat (omap id result)
                 ∧ r = Query (value statement).
Proof. intros Ht. exact (only_calls_sync options Ht tr). Qed.

Lemma sync_without_transaction_witness :
  ∃ evs,
    (@Legacy.sync _ (Examples.getters_of (Examples.picky_server [Query (str "bad")])
                       Examples.some_changes)
       [(str "transaction", Bool false)] []).1 = [] ++ evs
    ∧ ∀ r, Call r ∈ evs →
        r = Query (str "select version()") ∨ r = End
        ∨ ∃ e tr' result statement,
            @Legacy.changes _ (Examples.getters_of
                                 (Examples.picky_server [Query (str "bad")])
                                 Examples.some_changes) e tr' = inr result
            ∧ statement ∈ concat (omap id result)
            ∧ r = Query (value statement).
Proof.
  exact (sync_without_transaction _
           (Examples.getters_of (Examples.picky_server [Query (str "bad")])
              Examples.some_changes)
           [(str "transaction", Bool false)] [] eq_refl).
Defined.

(** ** When the closure-based [sync] says that nothing needed updating *)

Section legacy_notice_facts.

Import Legacy.
Context `{Getters}.

Variable per : entity → list (option Sql).
Variable n : Z.
Hypothesis Hanswered : ∀ tr r, answered tr r.
Hypothesis Hper : ∀ e tr, changes e tr = inr (per e).
Hypothesis Hrows : ∀ r : response, rowCount r = n.

Lemma logs_app (evs1 evs2 : list event) : logs (evs1 ++ evs2) = logs evs1 ++ logs evs2.
Proof. unfold logs. by rewrite omap_app. Qed.

Lemma logs_queries (l : list jsstring) : logs ((λ q, Call (Query q)) <$> l) = [].
Proof. induction l as [|q l IH]; [done|]. rewrite fmap_cons. exact IH. Qed.

Lemma inserted_rows (rs : list response) :
  _calculateSuccessfulInsets rs = (n * Z.of_nat (length rs))%Z.
Proof using Hrows.
  unfold _calculateSuccessfulInsets.
  assert (∀ acc, foldl (λ acc insert, (acc + rowCount insert)%Z) acc rs
                 = (acc + n * Z.of_nat (length rs))%Z) as Hfold.
  { induction rs as [|r rs' IH]; intros acc; simpl length; simpl foldl.
    - lia.
    - rewrite IH, Hrows. lia. }
  rewrite Hfold. lia.
Qed.

Lemma entitySync_outcome (e : entity) (order : option (list jsstring)) (logging : bool)
    (tr : list event) :
  let sql := uniq (_getFlatAndSortedSqlList order (per e)) in
  ∃ evs x, _entitySync e order logging tr = (tr ++ evs, inr x)
           ∧ ((Info, NoUpdateNeeded) ∉ logs evs)
           ∧ match x with
             | None => sql = []
             | Some rs => sql ≠ [] ∧ length rs = length sql
             end.
Proof using Hanswered Hper.
  intros sql.
  destruct (decide (_getFlatAndSortedSqlList order (per e) = [])) as [Hempty|Hsome].
  - exists [], None. unfold _entitySync. rewrite run_bind, Hper.
    rewrite bool_decide_eq_true_2 by done. rewrite app_nil_r.
    split_and!; [done|apply not_elem_of_nil|]. unfold sql. by rewrite Hempty.
  - destruct (entitySync_runs e order logging tr (per e) (Hper e tr) Hsome)
      as (rs & Hrun & Hlen); [apply always_all_answered, Hanswered|].
    eexists _, (Some rs). split; [exact Hrun|]. split.
    + rewrite !logs_app, logs_queries.
      destruct logging; simpl; intros Hin;
        repeat (apply elem_of_cons in Hin as [Hin|Hin]; [done|]);
        by apply elem_of_nil in Hin.
    + split; [|done]. fold sql in Hlen. intros Hnil.
      destruct (_getFlatAndSortedSqlList order (per e)) as [|q l] eqn:Hl; [done|].
      assert (q ∈ sql) as Hin.
      { unfold sql. apply elem_of_uniq. apply elem_of_cons. by left. }
      rewrite Hnil in Hin. by apply elem_of_nil in Hin.
Qed.

Lemma entitySync_ran (e : entity) (order : option (list jsstring)) (logging : bool)
    (tr : list event) :
  ∃ evs x, _entitySync e order logging tr = (tr ++ evs, inr x)
           ∧ ((Info, NoUpdateNeeded) ∉ logs evs)
           ∧ (bool_decide (is_Some x) = false
              ↔ uniq (_getFlatAndSortedSqlList order (per e)) = []).
Proof using Hanswered Hper.
  destruct (entitySync_outcome e order logging tr) as (evs & x & Hrun & Hlogs & Hx).
  exists evs, x. split_and!; [done|done|].
  destruct x as [rs|].
  - destruct Hx as [Hne _]. rewrite bool_decide_eq_true_2 by done. split; done.
  - rewrite bool_decide_eq_false_2 by (by intros [? ?]). done.
Qed.

Lemma syncSeeds_outcome (v : dbversion) (tr : list event) :
  ∃ evs pushed, syncSeeds v tr = (tr ++ evs, inr pushed)
    ∧ ((Info, NoUpdateNeeded) ∉ logs evs)
    ∧ (List.filter id pushed = []
       ↔ (_supportSeeds v = true →
          uniq (_getFlatAndSortedSqlList None (per Seeds)) = [] ∨ n = 0%Z)).
Proof using Hanswered Hper Hrows.
  unfold syncSeeds. destruct (_supportSeeds v).
  - destruct (entitySync_outcome Seeds None false tr) as (evs & x & Hrun & Hlogs & Hx).
    rewrite run_bind, Hrun. destruct x as [rs|].
    + destruct Hx as [Hne Hlen].
      rewrite run_bind, run_logged. eexists _, _. rewrite <- app_assoc.
      split; [done|]. split.
      * rewrite logs_app. intros [Hin|Hin]%elem_of_app; [done|].
        apply list_elem_of_singleton in Hin. done.
      * rewrite inserted_rows, Hlen.
        assert (0 < Z.of_nat (length (uniq (_getFlatAndSortedSqlList None (per Seeds)))))%Z
          as Hpos.
        { destruct (uniq (_getFlatAndSortedSqlList None (per Seeds))); [done|].
          simpl length. lia. }
        destruct (decide (n = 0%Z)) as [->|Hn].
        -- split; [by right|]. intros _. by simpl.
        -- split.
           ++ simpl. destruct (Z.eqb_spec
                (n * Z.of_nat (length (uniq (_getFlatAndSortedSqlList None (per Seeds)))))
                0); [nia|done].
           ++ intros Hor. destruct (Hor eq_refl); done.
    + eexists _, _. split; [done|]. split; [done|]. split; [by left|done].
  - rewrite run_bind, run_logged. eexists _, _. split; [done|]. split.
    + intros Hin. apply list_elem_of_singleton in Hin. done.
    + done.
Qed.

Lemma syncFinish_notice (transaction : bool) (queries : list bool) (tr : list event) :
  ∃ evs, syncFinish transaction queries tr = (tr ++ evs, inr tt)
         ∧ ((Info, NoUpdateNeeded) ∈ logs evs ↔ List.filter id queries = []).
Proof using Hanswered.
  unfold syncFinish. rewrite run_bind.
  set (note := if bool_decide (List.filter id queries = [])
               then [Logged Info NoUpdateNeeded] else []).
  assert (when (bool_decide (List.filter id queries = [])) (logged Info NoUpdateNeeded) tr
          = (tr ++ note, inr tt)) as ->.
  { unfold note. case_bool_decide; [done|]. unfold when, ret. by rewrite app_nil_r. }
  rewrite run_bind. unfold query. rewrite run_when_calls by (intros _; apply Hanswered).
  rewrite run_bind, run_logged. rewrite run_discard_call by apply Hanswered.
  eexists. rewrite <- !app_assoc. split; [done|].
  rewrite !logs_app. unfold note. case_bool_decide as Hq.
  - split; [done|]. intros _. apply elem_of_app. left. apply elem_of_cons. by left.
  - split; [|done]. destruct transaction; simpl; intros Hin;
      repeat (apply elem_of_cons in Hin as [Hin|Hin]; [done|]);
      by apply elem_of_nil in Hin.
Qed.

Lemma syncBody_notice (transaction : bool) (v : dbversion) (tr : list event) :
  ∃ evs, syncBody transaction v tr = (tr ++ evs, inr tt)
    ∧ ((Info, NoUpdateNeeded) ∈ logs evs
       ↔ uniq (_getFlatAndSortedSqlList None (per Sequences)) = []
         ∧ uniq (_getFlatAndSortedSqlList None (per Tables)) = []
         ∧ uniq (_getFlatAndSortedSqlList (Some extensionsOrder) (per Extensions)) = []
         ∧ uniq (_getFlatAndSortedSqlList None (per SequenceValues)) = []
         ∧ (_supportSeeds v = true →
            uniq (_getFlatAndSortedSqlList None (per Seeds)) = [] ∨ n = 0%Z)).
Proof using Hanswered Hper Hrows.
  unfold syncBody.
  destruct (entitySync_ran Sequences None true tr) as (evs1 & x1 & Hrun1 & Hlogs1 & Hx1).
  rewrite run_bind, Hrun1.
  destruct (entitySync_ran Tables None true (tr ++ evs1))
    as (evs2 & x2 & Hrun2 & Hlogs2 & Hx2).
  rewrite run_bind, Hrun2.
  destruct (entitySync_ran Extensions (Some extensionsOrder) true ((tr ++ evs1) ++ evs2))
    as (evs3 & x3 & Hrun3 & Hlogs3 & Hx3).
  rewrite run_bind, Hrun3. unfold syncRest.
  destruct (syncSeeds_outcome v (((tr ++ evs1) ++ evs2) ++ evs3))
    as (evs4 & pushed & Hrun4 & Hlogs4 & Hpushed).
  rewrite run_bind, Hrun4.
  destruct (entitySync_ran SequenceValues None true
              ((((tr ++ evs1) ++ evs2) ++ evs3) ++ evs4))
    as (evs5 & x5 & Hrun5 & Hlogs5 & Hx5).
  rewrite run_bind, Hrun5.
  destruct (syncFinish_notice transaction
              (([bool_decide (is_Some x1); bool_decide (is_Some x2);
                 bool_decide (is_Some x3)] ++ pushed) ++ [bool_decide (is_Some x5)])
              (((((tr ++ evs1) ++ evs2) ++ evs3) ++ evs4) ++ evs5))
    as (evs6 & Hrun6 & Hnote).
  rewrite Hrun6.
  exists (evs1 ++ evs2 ++ evs3 ++ evs4 ++ evs5 ++ evs6).
  split; [by rewrite <- !app_assoc|].
  rewrite !logs_app, !elem_of_app.
  rewrite <- Hx1, <- Hx2, <- Hx3, <- Hx5, <- Hpushed.
  assert (List.filter id
            (([bool_decide (is_Some x1); bool_decide (is_Some x2);
               bool_decide (is_Some x3)] ++ pushed) ++ [bool_decide (is_Some x5)]) = []
          ↔ bool_decide (is_Some x1) = false ∧ bool_decide (is_Some x2) = false
            ∧ bool_decide (is_Some x3) = false ∧ bool_decide (is_Some x5) = false
            ∧ List.filter id pushed = []) as Hfilter.
  { rewrite !List.filter_app.
    destruct (bool_decide (is_Some x1)), (bool_decide (is_Some x2)),
      (bool_decide (is_Some x3)), (bool_decide (is_Some x5)); simpl;
      try (split; [intros Hnil; by apply app_eq_nil in Hnil as [? ?]
                  |by intros (? & ? & ? & ? & ?)]);
      try (split; [done|by intros (? & ? & ? & ? & ?)]).
    rewrite app_nil_r. split; [done|by intros (_ & _ & _ & _ & ?)]. }
  rewrite <- Hfilter, <- Hnote. split; [|by intros; repeat right].
  intros [?|[?|[?|[?|[?|?]]]]]; done.
Qed.

End legacy_notice_facts.

(** X28. On a server that answers every request and reports the same number
    of rows for every statement, the closure-based [sync] logs that the
    database does not need updating exactly when no category other than the
    seeds has a statement and the seeds, where the version supports them,
    have no statement or insert no row: seed statements that ran without
    inserting a row do not count as an update. *)
Theorem no_update_notice (Srv : Server) (G : Legacy.Getters) (options : object)
    (tr : list event) (resp : response) (per : entity → list (option Sql)) (n : Z) :
  (∀ tr r, answered tr r) →
  (∀ e tr, Legacy.changes e tr = inr (per e)) →
  (∀ r : response, rowCount r = n) →
  reply tr (Query (str "select version()")) = inr resp →
  let statements e order := uniq (_getFlatAndSortedSqlList order (per e)) in
  ∃ evs, (Legacy.sync options tr).1 = tr ++ evs
    ∧ ((Info, NoUpdateNeeded) ∈ logs evs
       ↔ statements Sequences None = []
         ∧ statements Tables None = []
         ∧ statements Extensions (Some extensionsOrder) = []
         ∧ statements SequenceValues None = []
         ∧ (Legacy._supportSeeds (Legacy.versionOf resp) = true →
            statements Seeds None = [] ∨ n = 0%Z)).
Proof.
  intros Hanswered Hper Hrows Hversion statements.
  rewrite (sync_prelude_run options tr resp Hversion)
    by apply (always_all_answered Hanswered).
  unfold try_catch.
  destruct (syncBody_notice per n Hanswered Hper Hrows
              (Legacy.transactionOption options) (Legacy.versionOf resp)
              (tr ++ Legacy.syncPrelude (Legacy.transactionOption options)
                       (Legacy.versionOf resp)))
    as (evs & Hrun & Hnote).
  rewrite Hrun. cbn [fst]. eexists. rewrite <- app_assoc. split; [done|].
  rewrite logs_app, elem_of_app, Hnote. unfold statements. split; [|by right].
  intros [Hin|?]; [|done]. exfalso. unfold Legacy.syncPrelude in Hin.
  rewrite logs_app in Hin. apply elem_of_app in Hin as [Hin|Hin].
  - repeat (apply elem_of_cons in Hin as [Hin|Hin]; [done|]). by apply elem_of_nil in Hin.
  - destruct (Legacy.transactionOption options); by apply elem_of_nil in Hin.
Qed.


Lemma no_update_notice_witness :
  ∃ evs,
    (@Legacy.sync _ (Examples.getters_of Examples.idle_server Examples.only_seeds) [] []).1
    = [] ++ evs
    ∧ ((Info, NoUpdateNeeded) ∈ logs evs
       ↔ uniq (_getFlatAndSortedSqlList None (Examples.only_seeds Sequences)) = []
         ∧ uniq (_getFlatAndSortedSqlList None (Examples.only_seeds Tables)) = []
         ∧ uniq (_getFlatAndSortedSqlList (Some extensionsOrder)
                   (Examples.only_seeds Extensions)) = []
         ∧ uniq (_getFlatAndSortedSqlList None (Examples.only_seeds SequenceValues)) = []
         ∧ (Legacy._supportSeeds (Version (10 # 1)) = true →
            uniq (_getFlatAndSortedSqlList None (Examples.only_seeds Seeds)) = []
            ∨ 0%Z = 0%Z)).
Proof.
  exact (no_update_notice Examples.idle_server
           (Examples.getters_of Examples.idle_server Examples.only_seeds)
           [] [] tt Examples.only_seeds 0%Z
           (λ _ _, ex_intro _ tt eq_refl) (λ _ _, eq_refl) (λ _, eq_refl) eq_refl).
Defined.

(** ** The closure-based [sync] ends the connection *)

Section legacy_ends_facts.

Import Legacy.
Context `{Getters}.

Lemma bind_returns {A B : Type} (c : M A) (k : A → M B) (tr tr' : list event) (b : B) :
  (c ≫= k) tr = (tr', inr b) →
  ∃ a tr1, c tr = (tr1, inr a) ∧ k a tr1 = (tr', inr b).
Proof.
  rewrite run_bind. destruct (c tr) as [tr1 [e|a]]; [done|]. intros Hk. by exists a, tr1.
Qed.

Lemma failstop_extends {A : Type} (c : M A) (tr tr' : list event) (o : outcome A) :
  failstop c → c tr = (tr', o) → ∃ evs, tr' = tr ++ evs.
Proof.
  intros Hc Hrun. destruct (Hc tr) as (evs & Hevs & _). rewrite Hrun in Hevs. by exists evs.
Qed.

Lemma syncBody_returns (transaction : bool) (v : dbversion) (tr tr' : list event) :
  syncBody transaction v tr = (tr', inr tt) → ∃ evs, tr' = tr ++ evs ++ [Call End].
Proof.
  unfold syncBody.
  intros (q1 & tr1 & Hrun1 & Hbody)%bind_returns.
  apply bind_returns in Hbody as (q2 & tr2 & Hrun2 & Hbody).
  apply bind_returns in Hbody as (q3 & tr3 & Hrun3 & Hbody).
  unfold syncRest in Hbody.
  apply bind_returns in Hbody as (seeds & tr4 & Hrun4 & Hbody).
  apply bind_returns in Hbody as (q5 & tr5 & Hrun5 & Hbody).
  unfold syncFinish in Hbody.
  apply bind_returns in Hbody as ([] & tr6 & Hrun6 & Hbody).
  apply bind_returns in Hbody as ([] & tr7 & Hrun7 & Hbody).
  apply bind_returns in Hbody as ([] & tr8 & Hrun8 & Hbody).
  apply (failstop_extends _ _ _ _ (failstop_entitySync _ _ _)) in Hrun1 as [evs1 ->].
  apply (failstop_extends _ _ _ _ (failstop_entitySync _ _ _)) in Hrun2 as [evs2 ->].
  apply (failstop_extends _ _ _ _ (failstop_entitySync _ _ _)) in Hrun3 as [evs3 ->].
  apply (failstop_extends _ _ _ _ (failstop_syncSeeds _)) in Hrun4 as [evs4 ->].
  apply (failstop_extends _ _ _ _ (failstop_entitySync _ _ _)) in Hrun5 as [evs5 ->].
  apply (failstop_extends _ _ _ _ (failstop_when _ _ (failstop_logged _ _))) in Hrun6
    as [evs6 ->].
  apply (failstop_extends _ _ _ _
           (failstop_when _ _ (failstop_discard _ (failstop_query _)))) in Hrun7
    as [evs7 ->].
  apply (failstop_extends _ _ _ _ (failstop_logged _ _)) in Hrun8 as [evs8 ->].
  unfold discard, call, bind in Hbody.
  destruct (reply _ End); [done|]. injection Hbody as <-.
  exists (evs1 ++ evs2 ++ evs3 ++ evs4 ++ evs5 ++ evs6 ++ evs7 ++ evs8).
  by rewrite <- !app_assoc.
Qed.

End legacy_ends_facts.

(** X29. Once the version has been read and [begin] has been accepted, the
    closure-based [sync] ends the connection, whatever happens in between,
    as long as the server accepts [rollback] and the end of the connection:
    the last thing a run does with the connection is to end it. *)
Theorem sync_ends_connection (Srv : Server) (G : Legacy.Getters) (options : object)
    (tr : list event) (resp : response) :
  reply tr (Query (str "select version()")) = inr resp →
  all_answered tr (Legacy.syncPrelude (Legacy.transactionOption options)
                     (Legacy.versionOf resp)) →
  (∀ tr', answered tr' (Query (str "rollback"))) →
  (∀ tr', answered tr' End) →
  ∃ evs, (Legacy.sync options tr).1 = tr ++ evs ++ [Call End].
Proof.
  intros Hversion Hprelude Hrollback Hend.
  rewrite (sync_prelude_run options tr resp) by done.
  set (t := Legacy.transactionOption options). set (v := Legacy.versionOf resp).
  unfold try_catch.
  destruct (Legacy.syncBody t v (tr ++ Legacy.syncPrelude t v)) as [tr' [e|[]]] eqn:Hbody.
  - apply (failstop_extends _ _ _ _ (failstop_syncBody t v)) in Hbody as [evs ->].
    rewrite syncCatch_run.
    + unfold Legacy.catchEvents. cbn [fst].
      exists (Legacy.syncPrelude t v ++ evs
              ++ (if t then [Call (Query (str "rollback"))] else [])).
      by rewrite <- !app_assoc.
    + unfold Legacy.catchEvents. apply all_answered_app. split.
      * apply all_answered_when. intros _. apply Hrollback.
      * apply all_answered_call, Hend.
  - apply syncBody_returns in Hbody as [evs ->]. cbn [fst].
    exists (Legacy.syncPrelude t v ++ evs). by rewrite <- !app_assoc.
Qed.

Lemma sync_ends_connection_witness :
  ∃ evs,
    (@Legacy.sync _
       (Examples.getters_of (Examples.picky_server [Query (str "create table t")])
          Examples.some_changes) [] []).1
    = [] ++ evs ++ [Call End].
Proof.
  apply (sync_ends_connection (Examples.picky_server [Query (str "create table t")])
           (Examples.getters_of (Examples.picky_server [Query (str "create table t")])
              Examples.some_changes) [] [] tt).
  - reflexivity.
  - apply picky_all_answered. intros r Hr Hin.
    apply list_elem_of_singleton in Hr as ->.
    apply (bool_decide_pack _) in Hin. by vm_compute in Hin.
  - intros tr'. by exists tt.
  - intros tr'. by exists tt.
Defined.
